(** * grid1q: plane-wave Hamiltonian, truncated Fourier transforms and
      plane-wave functions

    A shallow embedding of the three numerical modules of the package

    - [grid1q/operators/plane_wave.py]      (module [Operators]),
    - [grid1q/utils/fourier_methods/fourier.py] (module [Fourier]),
    - [grid1q/wavefunctions/plane_wave.py]  (module [Wavefunctions]),

    together with the properties their specification states.

    Numeric conventions of the embedding.

    - A finite [float64] is a real number of [R]; a [complex128] with finite
      parts is a pair of reals ([C]).  Rounding and overflow of floating
      point arithmetic are not represented: arithmetic on finite values is
      exact.  The one way the code can leave the finite values, a NumPy
      division by zero, is represented: it yields [NonFinite] (an [inf] or
      a [nan], with NumPy's run-time warning), and [NonFinite] is absorbed
      by every later operation.  What depends on the range of [float64]
      is not: a value too small or too large for a [float64], and
      Python's [OverflowError] for a float power out of range
      ([hbar ** 2] in [kenetic]); statements about [kenetic] that need it
      to return say so.
    - An [int32] array element is an integer of [Z]; NumPy's integer array
      arithmetic wraps around modulo [2^32] ([wrap32]).
    - Python [int]s ([range] indices, [len]) are unbounded.
    - A Python exception is a value [Raise e] of the [result] type. *)

From Stdlib Require Import Reals Lra Lia ZArith List Bool Arith.
Import ListNotations.

Open Scope R_scope.

(** ** Python exceptions *)

Inductive exn : Type :=
| ValueError
| ZeroDivisionError
| IndexError
| StopIteration
| KeyError.

Inductive result (A : Type) : Type :=
| Ok (a : A)
| Raise (e : exn).

Arguments Ok {A} a.
Arguments Raise {A} e.

Definition bind {A B : Type} (m : result A) (f : A -> result B) : result B :=
  match m with
  | Ok a => f a
  | Raise e => Raise e
  end.

Notation "x <- m ;; k" := (bind m (fun x => k))
  (at level 61, m at next level, right associativity).

Definition result_map {A B : Type} (f : A -> B) (m : result A) : result B :=
  match m with
  | Ok a => Ok (f a)
  | Raise e => Raise e
  end.

(** A list comprehension whose body may raise: the first exception, in
    iteration order, leaves the comprehension. *)
Fixpoint mapM {A B : Type} (f : A -> result B) (l : list A) : result (list B) :=
  match l with
  | [] => Ok []
  | a :: l' => b <- f a ;; bs <- mapM f l' ;; Ok (b :: bs)
  end.

(** A [for] loop over [l] threading the state [s]; the body may raise. *)
Fixpoint foldM {A S : Type} (body : S -> A -> result S) (l : list A) (s : S)
  : result S :=
  match l with
  | [] => Ok s
  | a :: l' => s' <- body s a ;; foldM body l' s'
  end.

(** ** Complex numbers *)

Record C : Type := mkC { Re : R; Im : R }.

Definition C0 : C := mkC 0 0.
Definition C1 : C := mkC 1 0.
(** Python's [1j]. *)
Definition Ci : C := mkC 0 1.

Definition RtoC (x : R) : C := mkC x 0.
Definition Cadd (a b : C) : C := mkC (Re a + Re b) (Im a + Im b).
Definition Copp (a : C) : C := mkC (- Re a) (- Im a).
Definition Cmul (a b : C) : C :=
  mkC (Re a * Re b - Im a * Im b) (Re a * Im b + Im a * Re b).
Definition Cconj (a : C) : C := mkC (Re a) (- Im a).
(** [z / x] for a complex [z] and a non-zero real [x]. *)
Definition Cdiv_real (a : C) (x : R) : C := mkC (Re a / x) (Im a / x).
(** [np.exp] on a complex argument. *)
Definition Cexp (a : C) : C :=
  mkC (exp (Re a) * cos (Im a)) (exp (Re a) * sin (Im a)).
(** Squared modulus. *)
Definition Cnorm2 (a : C) : R := Re a * Re a + Im a * Im a.

(** ** Floating point values that may have left the finite range *)

Inductive ieee (A : Type) : Type :=
| Finite (a : A)
| NonFinite.

Arguments Finite {A} a.
Arguments NonFinite {A}.

Definition ieee_map {A B : Type} (f : A -> B) (x : ieee A) : ieee B :=
  match x with
  | Finite a => Finite (f a)
  | NonFinite => NonFinite
  end.

Definition ieee_map2 {A B D : Type} (f : A -> B -> D) (x : ieee A) (y : ieee B)
  : ieee D :=
  match x, y with
  | Finite a, Finite b => Finite (f a b)
  | _, _ => NonFinite
  end.

(** NumPy's float division: a zero divisor gives [inf] or [nan] and a
    warning, not an exception. *)
Definition np_fdiv (x y : R) : ieee R :=
  if Req_dec_T y 0 then NonFinite else Finite (x / y).

(** A [complex128] divided by a [float64], likewise. *)
Definition np_cdiv (z : C) (y : R) : ieee C :=
  if Req_dec_T y 0 then NonFinite else Finite (Cdiv_real z y).

(** ** 32-bit integers *)

Definition wrap32 (z : Z) : Z := ((z + 2 ^ 31) mod 2 ^ 32 - 2 ^ 31)%Z.

Definition int32_range (z : Z) : Prop := (- 2 ^ 31 <= z < 2 ^ 31)%Z.

(** ** Lists used as arrays *)

(** [l[i] = v] on a one-dimensional array. *)
Fixpoint list_set {A : Type} (i : nat) (v : A) (l : list A) : result (list A) :=
  match l, i with
  | [], _ => Raise IndexError
  | _ :: l', O => Ok (v :: l')
  | x :: l', S i' => r <- list_set i' v l' ;; Ok (x :: r)
  end.

(** [l[i]] for [0 <= i]. *)
Definition list_get {A : Type} (i : nat) (l : list A) : result A :=
  match nth_error l i with
  | Some a => Ok a
  | None => Raise IndexError
  end.

(** [np.zeros(n)] and [np.zeros((n, m))]. *)
Definition np_zeros {A : Type} (zero : A) (n : nat) : list A := repeat zero n.
Definition np_zeros2 {A : Type} (zero : A) (n m : nat) : list (list A) :=
  repeat (repeat zero m) n.

(** [list(enumerate(l))]. *)
Definition enumerate {A : Type} (l : list A) : list (nat * A) :=
  combine (seq 0 (length l)) l.

(** * [grid1q/operators/plane_wave.py] *)

Module Operators.

(** A k-point is a row of an [int32] array, a nucleus position a row of a
    [float64] array. *)
Definition kpoint : Type := list Z.
Definition position : Type := list R.

(** [np.dot(a, b)] for one-dimensional [int32] arrays of one length: the
    result is an [int32], the sum of the products reduced modulo [2^32]. *)
Definition np_dot_int32 (a b : list Z) : result Z :=
  if Nat.eqb (length a) (length b)
  then Ok (wrap32 (fold_left (fun acc p => (acc + fst p * snd p)%Z)
                             (combine a b) 0%Z))
  else Raise ValueError.

(** [x ** 2] on an [np.int32] scalar: the Python [2] adapts to [int32], and
    the square is reduced modulo [2^32]. *)
Definition int32_sq (x : Z) : Z := wrap32 (x * x).

(** [np.diag(v)] for a one-dimensional [v]. *)
Definition np_diag (v : list (ieee R)) : list (list (ieee R)) :=
  map (fun i =>
         map (fun j => if Nat.eqb i j then nth i v (Finite 0) else Finite 0)
             (seq 0 (length v)))
      (seq 0 (length v)).

(** One entry of the list comprehension of [kenetic]. *)
Definition kenetic_entry (hbar m : R) (k : kpoint) : result (ieee R) :=
  d <- np_dot_int32 k k ;;
  Ok (np_fdiv (hbar ^ 2 * IZR (int32_sq d)) (2 * m)).

Definition kenetic (k_points : list kpoint) (hbar m : R)
  : result (list (list (ieee R))) :=
  v <- mapM (kenetic_entry hbar m) k_points ;;
  Ok (np_diag v).

(** [a - b] on two rows of one [int32] array: the entries wrap around.
    Rows of different lengths do not arise from an array; they are refused
    here. *)
Definition np_sub_int32 (a b : list Z) : result (list Z) :=
  if Nat.eqb (length a) (length b)
  then Ok (map (fun p => wrap32 (fst p - snd p)) (combine a b))
  else Raise ValueError.

(** [np.array_equal(a, b)]. *)
Definition np_array_equal (a b : list Z) : bool :=
  Nat.eqb (length a) (length b)
  && forallb (fun p => Z.eqb (fst p) (snd p)) (combine a b).

(** [np.linalg.norm(d)] of an integer vector: the entries are converted to
    [float64] first. *)
Definition np_linalg_norm (d : list Z) : R :=
  sqrt (fold_left (fun acc x => acc + IZR x * IZR x) d 0).

(** [np.dot(d, r)] of an [int32] vector with a [float64] vector. *)
Definition np_dot_mixed (d : list Z) (r : list R) : result R :=
  if Nat.eqb (length d) (length r)
  then Ok (fold_left (fun acc p => acc + IZR (fst p) * snd p) (combine d r) 0)
  else Raise ValueError.

(** The body of the loop over the nuclei: [mat_element] before, the
    nucleus [r], [mat_element] after. *)
Definition elec_nuc_step (k_bra k_ket : kpoint) (cell_area : R)
  (mat_element : ieee C) (r : position) : result (ieee C) :=
  if np_array_equal k_bra k_ket
  then Ok (Finite C0)
  else
    d <- np_sub_int32 k_bra k_ket ;;
    let coulomb := np_fdiv (4 * PI) (cell_area * np_linalg_norm d ^ 2) in
    d' <- np_sub_int32 k_bra k_ket ;;
    phase <- np_dot_mixed d' r ;;
    let term :=
      ieee_map (fun c => Cmul (RtoC c) (Cexp (Cmul (Copp Ci) (RtoC phase))))
               coulomb in
    Ok (ieee_map2 Cadd mat_element term).

Definition elec_nuc_args : Type :=
  (nat * nat * kpoint * kpoint * list position * R)%type.

Definition elec_nuc_potential_element (args : elec_nuc_args)
  : result (nat * nat * ieee C) :=
  let '(i, j, k_bra, k_ket, r_pos, cell_area) := args in
  mat_element <- foldM (elec_nuc_step k_bra k_ket cell_area) r_pos (Finite C0) ;;
  Ok (i, j, mat_element).

(** [mat[i, j] = v]. *)
Definition mat_set {A : Type} (mat : list (list A)) (i j : nat) (v : A)
  : result (list (list A)) :=
  row <- list_get i mat ;;
  row' <- list_set j v row ;;
  list_set i row' mat.

(** [mat[i, j]]. *)
Definition mat_get {A : Type} (mat : list (list A)) (i j : nat) : result A :=
  row <- list_get i mat ;; list_get j row.

(** The two nested [enumerate] loops that build [args_list]. *)
Definition elec_nuc_args_list (k_points : list kpoint) (cell_area : R)
  (r_pos : list position) : list elec_nuc_args :=
  flat_map (fun ib =>
              map (fun jk => (fst ib, fst jk, snd ib, snd jk, r_pos, cell_area))
                  (enumerate k_points))
           (enumerate k_points).

(** [pool.map] returns the results in the order of the arguments, and
    re-raises the exception of a worker. *)
Definition pool_map {A B : Type} (f : A -> result B) (l : list A)
  : result (list B) := mapM f l.

Definition elec_nuc_potential (k_points : list kpoint) (cell_area : R)
  (r_pos : list position) : result (list (list (ieee C))) :=
  let mat := np_zeros2 (Finite C0) (length k_points) (length k_points) in
  let args_list := elec_nuc_args_list k_points cell_area r_pos in
  results <- pool_map elec_nuc_potential_element args_list ;;
  foldM (fun mat res => let '(i, j, mat_element) := res in
                        mat_set mat i j mat_element)
        results mat.

(** Entrywise sum of a real and a complex matrix of one shape. *)
Definition mat_add (a : list (list (ieee R))) (b : list (list (ieee C)))
  : list (list (ieee C)) :=
  map (fun rows =>
         map (fun p => ieee_map2 (fun x z => Cadd (RtoC x) z) (fst p) (snd p))
             (combine (fst rows) (snd rows)))
      (combine a b).

Definition plane_wave_hamiltonian (k_points : list kpoint) (cell_area : R)
  (r_pos : list position) (hbar m : R) : result (list (list (ieee C))) :=
  t <- kenetic k_points hbar m ;;
  v <- elec_nuc_potential k_points cell_area r_pos ;;
  Ok (mat_add t v).

End Operators.

(** * [grid1q/utils/fourier_methods/fourier.py] *)

Module Fourier.

(** [np.zeros(n, dtype=complex)] for a Python [int] [n]: a negative
    dimension is refused. *)
Definition np_zeros_int (n : Z) : result (list C) :=
  if (n <? 0)%Z then Raise ValueError else Ok (np_zeros C0 (Z.to_nat n)).

(** [list(range(a, b))]. *)
Definition py_range (a b : Z) : list Z :=
  map (fun i => (a + Z.of_nat i)%Z) (seq 0 (Z.to_nat (b - a))).

(** [z / n] for a complex [z] and a Python [int] [n]. *)
Definition py_cdiv (z : C) (n : Z) : result C :=
  if (n =? 0)%Z then Raise ZeroDivisionError else Ok (Cdiv_real z (IZR n)).

(** [sgn * 1j * 2 * np.pi * k * n / len], evaluated from the left. *)
Definition twiddle_arg (unit : C) (k n len : Z) : result C :=
  py_cdiv
    (Cmul (Cmul (Cmul (Cmul unit (RtoC 2)) (RtoC PI)) (RtoC (IZR k)))
          (RtoC (IZR n)))
    len.

(** [len(signal)] as a Python [int]. *)
Definition py_len {A : Type} (l : list A) : Z := Z.of_nat (length l).

(** The inner loop of [dft]: [sum_result] before, the index [n],
    [sum_result] after. *)
Definition dft_inner (signal : list C) (k : Z) (sum_result : C) (n : Z)
  : result C :=
  x <- list_get (Z.to_nat n) signal ;;
  a <- twiddle_arg (Copp Ci) k n (py_len signal) ;;
  Ok (Cadd sum_result (Cmul x (Cexp a))).

(** The outer loop of [dft]. *)
Definition dft_outer (signal : list C) (k_min : Z)
  (truncated_dft_result : list C) (k : Z) : result (list C) :=
  sum_result <- foldM (dft_inner signal k) (py_range 0 (py_len signal)) C0 ;;
  v <- py_cdiv sum_result (py_len signal) ;;
  list_set (Z.to_nat (k - k_min)) v truncated_dft_result.

Definition dft (signal : list C) (k_min k_max : Z) : result (list C) :=
  truncated_dft_result <- np_zeros_int (k_max - k_min) ;;
  foldM (dft_outer signal k_min) (py_range k_min k_max) truncated_dft_result.

(** The inner loop of [idft]. *)
Definition idft_inner (truncated_dft_result : list C) (sig_len k_min n : Z)
  (sum_result : C) (k : Z) : result C :=
  x <- list_get (Z.to_nat (k - k_min)) truncated_dft_result ;;
  a <- twiddle_arg Ci k n sig_len ;;
  Ok (Cadd sum_result (Cmul x (Cexp a))).

(** The outer loop of [idft]. *)
Definition idft_outer (truncated_dft_result : list C) (sig_len k_min k_max : Z)
  (reconstructed_signal : list C) (n : Z) : result (list C) :=
  sum_result <- foldM (idft_inner truncated_dft_result sig_len k_min n)
                      (py_range k_min k_max) C0 ;;
  list_set (Z.to_nat n) sum_result reconstructed_signal.

Definition idft (truncated_dft_result : list C) (sig_len k_min k_max : Z)
  : result (list C) :=
  reconstructed_signal <- np_zeros_int sig_len ;;
  foldM (idft_outer truncated_dft_result sig_len k_min k_max)
        (py_range 0 sig_len) reconstructed_signal.

(** [a.shape[1]] of [a = np.array(rows)]: an empty list of rows makes a
    one-dimensional array, which has no second axis. *)
Definition shape1 {A : Type} (rows : list (list A)) : result nat :=
  match rows with
  | [] => Raise IndexError
  | row :: _ => Ok (length row)
  end.

(** [a[:, col]]. *)
Definition column {A : Type} (a : list (list A)) (col : nat) : result (list A) :=
  mapM (list_get col) a.

(** [a.T] of [a = np.array(rows)]. *)
Definition np_transpose {A : Type} (d : A) (a : list (list A)) : list (list A) :=
  map (fun c => map (fun row => nth c row d) a) (seq 0 (length (hd [] a))).

Definition dft2 (signal_2d : list (list C)) (k_min k_max : Z)
  : result (list (list C)) :=
  dft_rows <- mapM (fun row => dft row k_min k_max) signal_2d ;;
  ncols <- shape1 dft_rows ;;
  dft_columns <- mapM (fun col => c <- column dft_rows col ;; dft c k_min k_max)
                      (seq 0 ncols) ;;
  Ok (np_transpose C0 dft_columns).

Definition idft2 (truncated_dft_2d : list (list C)) (original_shape : Z * Z)
  (k_min k_max : Z) : result (list (list C)) :=
  ncols <- shape1 truncated_dft_2d ;;
  cols <- mapM (fun col => c <- column truncated_dft_2d col ;;
                           idft c (fst original_shape) k_min k_max)
               (seq 0 ncols) ;;
  let idft_cols := np_transpose C0 cols in
  mapM (fun row => r <- list_get row idft_cols ;;
                   idft r (snd original_shape) k_min k_max)
       (seq 0 (length idft_cols)).

(** ** The separable transform, as the specification words it *)

(** The columns of a grid, first column first. *)
Definition columns_of {A : Type} (d : A) (grid : list (list A)) : list (list A) :=
  match grid with
  | [] => []
  | row :: _ => map (fun c => map (fun r => nth c r d) grid) (seq 0 (length row))
  end.

(** Swap the two axes of a grid. *)
Fixpoint swap_axes {A : Type} (grid : list (list A)) : list (list A) :=
  match grid with
  | [] => []
  | [row] => map (fun x => [x]) row
  | row :: rest => map (fun p => fst p :: snd p) (combine row (swap_axes rest))
  end.

(** Apply the one-dimensional [dft] to every row, then to every column of
    the intermediate result, and transpose the outcome back. *)
Definition dft2_separable (signal_2d : list (list C)) (k_min k_max : Z)
  : result (list (list C)) :=
  by_rows <- mapM (fun row => dft row k_min k_max) signal_2d ;;
  by_cols <- mapM (fun col => dft col k_min k_max) (columns_of C0 by_rows) ;;
  Ok (swap_axes by_cols).

(** The mirror order: the one-dimensional [idft] on every column, then on
    every row of the intermediate result. *)
Definition idft2_separable (spectrum_2d : list (list C)) (original_shape : Z * Z)
  (k_min k_max : Z) : result (list (list C)) :=
  by_cols <- mapM (fun col => idft col (fst original_shape) k_min k_max)
                  (columns_of C0 spectrum_2d) ;;
  mapM (fun row => idft row (snd original_shape) k_min k_max)
       (swap_axes by_cols).

End Fourier.

(** * [grid1q/wavefunctions/plane_wave.py] *)

Module Wavefunctions.

(** A NumPy array: its shape and its entries in row-major order. *)
Record ndarray (A : Type) : Type := mk_nd { shape : list nat; data : list A }.

Arguments mk_nd {A} shape data.
Arguments shape {A} n.
Arguments data {A} n.

Definition size_of (shp : list nat) : nat := fold_right Nat.mul 1%nat shp.

(** An elementwise operation. *)
Definition nd_map {A B : Type} (f : A -> B) (a : ndarray A) : ndarray B :=
  mk_nd (shape a) (map f (data a)).

(** A coefficient dictionary, in insertion order. *)
Definition coeffs := list (list Z * C).

(** [coeffs_dict[k]]. *)
Definition dict_get (coeffs_dict : coeffs) (k : list Z) : result C :=
  match find (fun kv => if list_eq_dec Z.eq_dec (fst kv) k then true else false)
             coeffs_dict with
  | Some kv => Ok (snd kv)
  | None => Raise KeyError
  end.

(** [next(iter(coeffs_dict.keys()))]. *)
Definition first_key (coeffs_dict : coeffs) : result (list Z) :=
  match coeffs_dict with
  | [] => Raise StopIteration
  | kv :: _ => Ok (fst kv)
  end.

(** [np.tensordot(r, k, axes=([axis], [0]))] for a tuple [k] of integers:
    axis [axis] of [r] is summed against [k].  The shape look-up
    [r.shape[axis]] comes first ([IndexError] when [r] has no such axis),
    then the comparison of the two lengths ([ValueError]). *)
Definition np_tensordot (r : ndarray R) (k : list Z) (axis : nat)
  : result (ndarray R) :=
  match nth_error (shape r) axis with
  | None => Raise IndexError
  | Some mid =>
      if Nat.eqb mid (length k)
      then
        let outer := size_of (firstn axis (shape r)) in
        let inner := size_of (skipn (S axis) (shape r)) in
        Ok (mk_nd
              (firstn axis (shape r) ++ skipn (S axis) (shape r))
              (flat_map
                 (fun o =>
                    map (fun q =>
                           fold_left
                             (fun acc t =>
                                acc + nth (o * mid * inner + t * inner + q)%nat
                                          (data r) 0
                                      * IZR (nth t k 0%Z))
                             (seq 0 mid) 0)
                        (seq 0 inner))
                 (seq 0 outer)))
      else Raise ValueError
  end.

(** [a + b]: a zero-dimensional left operand (Python's [0], the start of
    [sum]) is broadcast; otherwise the two shapes here are equal. *)
Definition np_add (a b : ndarray C) : result (ndarray C) :=
  match shape a, data a with
  | [], [z] => Ok (nd_map (Cadd z) b)
  | _, _ =>
      if list_eq_dec Nat.eq_dec (shape a) (shape b)
      then Ok (mk_nd (shape a)
                     (map (fun p => Cadd (fst p) (snd p))
                          (combine (data a) (data b))))
      else Raise ValueError
  end.

(** Python's [0] as a zero-dimensional array. *)
Definition py_zero : ndarray C := mk_nd [] [C0].

(** One entry of the list comprehension of [space_function]. *)
Definition plane_wave_term (coeffs_dict : coeffs) (dim : nat) (r : ndarray R)
  (k : list Z) : result (ndarray C) :=
  c <- dict_get coeffs_dict k ;;
  t <- np_tensordot r k dim ;;
  Ok (nd_map (fun x => Cmul c (Cexp (Cmul (Cmul (RtoC PI) Ci) (RtoC x)))) t).

Definition space_function (coeffs_dict : coeffs) (dim : nat) (r : ndarray R)
  : result (ndarray C) :=
  terms <- mapM (plane_wave_term coeffs_dict dim r) (map fst coeffs_dict) ;;
  foldM np_add terms py_zero.

Definition plane_wave (coeffs_dict : coeffs)
  : result (ndarray R -> result (ndarray C)) :=
  k0 <- first_key coeffs_dict ;;
  let dim := length k0 in
  Ok (space_function coeffs_dict dim).

(** [np.linalg.norm] of a flat complex array. *)
Definition np_linalg_norm_c (v : list C) : R :=
  sqrt (fold_left (fun acc z => acc + Cnorm2 z) v 0).

Definition plane_wave_renorm (plane_wave_r : ndarray C) : ndarray (ieee C) :=
  let pw_flat := data plane_wave_r in
  let pw_flat_norm := map (fun z => np_cdiv z (np_linalg_norm_c pw_flat)) pw_flat in
  mk_nd (shape plane_wave_r) pw_flat_norm.

End Wavefunctions.

(** * Notions used in the statements *)

(** A matrix of [n] rows of [m] entries. *)
Definition mat_shape {A : Type} (n m : nat) (mat : list (list A)) : Prop :=
  length mat = n /\ Forall (fun row => length row = m) mat.

(** The exact dot product of an integer vector with itself. *)
Definition dot_self (k : list Z) : Z :=
  fold_left (fun acc x => (acc + x * x)%Z) k 0%Z.

(** The exact sum of a function over [0, n). *)
Fixpoint Csum (f : nat -> C) (n : nat) : C :=
  match n with
  | O => C0
  | S n' => Cadd (Csum f n') (f n')
  end.

(** [exp(i x)] for a real [x]. *)
Definition cis (x : R) : C := mkC (cos x) (sin x).

(** The kinetic energy of a k-point as the formula has it, on exact
    integers: [hbar^2 (k.k)^2 / (2 m)]. *)
Definition kinetic_exact (hbar m : R) (k : list Z) : R :=
  hbar ^ 2 * IZR (dot_self k) ^ 2 / (2 * m).

(** [(k.k)^2] is representable in [int32]. *)
Definition kinetic_fits (k : list Z) : Prop :=
  (dot_self k * dot_self k < 2 ^ 31)%Z.

(** The value that [elec_nuc_potential_element] computes for a pair of
    k-points: the loop over the nuclei. *)
Definition elec_nuc_value (k_bra k_ket : list Z) (r_pos : list (list R))
  (cell_area : R) : result (ieee C) :=
  foldM (Operators.elec_nuc_step k_bra k_ket cell_area) r_pos (Finite C0).

(** No component of [a - b] leaves the [int32] range. *)
Definition diff_fits (a b : list Z) : Prop :=
  Forall (fun p => int32_range (fst p - snd p)) (combine a b).

(** Two k-points are equal component by component. *)
Definition componentwise_equal (a b : list Z) : Prop :=
  length a = length b /\
  forall c, (c < length a)%nat -> nth c a 0%Z = nth c b 0%Z.

(** The sum of the squares of an integer vector, as a real. *)
Definition sum_sq (d : list Z) : R :=
  fold_left (fun acc x => acc + IZR x * IZR x) d 0.

(** The angle [2 pi k n / len] of the transforms. *)
Definition omega (k n len : Z) : R := 2 * PI * IZR k * IZR n / IZR len.

(** The coefficient of frequency [k] of a non-empty signal:
    [(1/N) sum_n signal[n] exp(-2 pi i k n / N)]. *)
Definition dft_coeff (signal : list C) (k : Z) : C :=
  Cdiv_real
    (Csum (fun n => Cmul (nth n signal C0)
                         (cis (- omega k (Z.of_nat n) (Fourier.py_len signal))))
          (length signal))
    (IZR (Fourier.py_len signal)).

(** The sample [n] rebuilt from a spectrum over the window that starts at
    [k_min] and holds [width] frequencies:
    [sum_k spectrum[k - k_min] exp(+2 pi i k n / sig_len)]. *)
Definition idft_sample (spectrum : list C) (sig_len k_min : Z) (width : nat)
  (n : Z) : C :=
  Csum (fun i => Cmul (nth i spectrum C0)
                      (cis (omega (k_min + Z.of_nat i) n sig_len)))
       width.

(** The differences of the components of two k-points, on exact
    integers. *)
Definition exact_diff (a b : list Z) : list Z :=
  map (fun p => (fst p - snd p)%Z) (combine a b).

(** The dot product of an integer vector with a real vector. *)
Definition dot_zr (d : list Z) (r : list R) : R :=
  fold_left (fun acc p => acc + IZR (fst p) * snd p) (combine d r) 0.

(** The Coulomb sum over the nuclei,
    [sum_r 4 pi / (area |dk|^2) exp(-i dk.r)] with [dk = k_bra - k_ket],
    added up in the order of [r_pos]. *)
Definition potential_formula (k_bra k_ket : list Z) (r_pos : list (list R))
  (cell_area : R) : C :=
  fold_left
    (fun acc r =>
       Cadd acc
            (Cmul (RtoC (4 * PI / (cell_area * sum_sq (exact_diff k_bra k_ket))))
                  (cis (- dot_zr (exact_diff k_bra k_ket) r))))
    r_pos C0.

(** Two k-points moved by one vector [q]. *)
Definition zip_add (a q : list Z) : list Z :=
  map (fun p => (fst p + snd p)%Z) (combine a q).

(** The dot product of the wave vector [k] with point number [o] of a
    grid of [D]-vectors stored in row-major order. *)
Definition point_dot (r : Wavefunctions.ndarray R) (D o : nat) (k : list Z) : R :=
  fold_left (fun acc t =>
               acc + nth (o * D + t)%nat (Wavefunctions.data r) 0
                     * IZR (nth t k 0%Z))
            (seq 0 D) 0.

(** The plane-wave sum [sum_k coeffs[k] exp(i pi k.r)] at point number [o]
    of the grid, added up in the order of the dictionary. *)
Definition plane_wave_value (coeffs_dict : Wavefunctions.coeffs)
  (r : Wavefunctions.ndarray R) (D o : nat) : C :=
  fold_left
    (fun acc kc =>
       Cadd acc (Cmul (snd kc) (cis (PI * point_dot r D o (fst kc)))))
    coeffs_dict C0.

(** * Generic facts: exceptions, loops, arrays *)

Section Plumbing.

Context {A B : Type}.

Lemma mapM_ok_all (f : A -> result B) (g : A -> B) (l : list A) :
  (forall a, In a l -> f a = Ok (g a)) -> mapM f l = Ok (map g l).
Proof.
  induction l as [|a l IH]; intros H; simpl; [reflexivity|].
  rewrite (H a (or_introl eq_refl)). simpl.
  rewrite IH by (intros; apply H; now right). reflexivity.
Qed.

Lemma mapM_ok_inv (f : A -> result B) (l : list A) (bs : list B) :
  mapM f l = Ok bs -> Forall2 (fun a b => f a = Ok b) l bs.
Proof.
  revert bs. induction l as [|a l IH]; intros bs H; simpl in H.
  - injection H as <-. constructor.
  - destruct (f a) as [b|e] eqn:Ea; simpl in H; [|discriminate].
    destruct (mapM f l) as [bs'|e] eqn:El; simpl in H; [|discriminate].
    injection H as <-. constructor; auto.
Qed.

Lemma mapM_ext (f g : A -> result B) (l : list A) :
  (forall a, In a l -> f a = g a) -> mapM f l = mapM g l.
Proof.
  induction l as [|a l IH]; intros H; simpl; [reflexivity|].
  rewrite (H a (or_introl eq_refl)), IH; [reflexivity|].
  intros; apply H; now right.
Qed.

Lemma list_get_nth (d : A) (i : nat) (l : list A) :
  (i < length l)%nat -> list_get i l = Ok (nth i l d).
Proof.
  intros H. unfold list_get.
  rewrite (nth_error_nth' l d H). reflexivity.
Qed.

Lemma list_get_out (i : nat) (l : list A) :
  (length l <= i)%nat -> list_get i l = Raise IndexError.
Proof.
  intros H. unfold list_get.
  apply nth_error_None in H. rewrite H. reflexivity.
Qed.

Lemma list_set_ok (i : nat) (v : A) (l : list A) :
  (i < length l)%nat ->
  exists l', list_set i v l = Ok l' /\ length l' = length l /\
             forall (d : A) (j : nat),
               nth j l' d = if Nat.eqb j i then v else nth j l d.
Proof.
  revert i. induction l as [|x l IH]; intros i H; simpl in H; [lia|].
  destruct i as [|i]; simpl.
  - exists (v :: l). repeat split. intros d [|j]; reflexivity.
  - destruct (IH i ltac:(lia)) as (l' & E & Hlen & Hnth).
    rewrite E. simpl. exists (x :: l'). repeat split.
    + simpl. now rewrite Hlen.
    + intros d [|j]; simpl; [reflexivity|apply Hnth].
Qed.

Lemma list_set_out (i : nat) (v : A) (l : list A) :
  (length l <= i)%nat -> list_set i v l = Raise IndexError.
Proof.
  revert i. induction l as [|x l IH]; intros i H.
  - now destruct i.
  - destruct i as [|i]; simpl in H; [lia|].
    cbn [list_set]. rewrite IH by lia. reflexivity.
Qed.

End Plumbing.

Lemma nth_map_seq {A : Type} (f : nat -> A) (d : A) (n i : nat) :
  (i < n)%nat -> nth i (map f (seq 0 n)) d = f i.
Proof.
  intros H.
  rewrite (nth_indep _ d (f 0%nat)) by (now rewrite length_map, length_seq).
  rewrite (map_nth f). now rewrite seq_nth.
Qed.

(** * Complex arithmetic *)

Lemma C_eq (a b : C) : Re a = Re b -> Im a = Im b -> a = b.
Proof. destruct a, b; simpl; intros -> ->; reflexivity. Qed.

Lemma Cadd_0_l (a : C) : Cadd C0 a = a.
Proof. apply C_eq; simpl; ring. Qed.

Lemma Cadd_0_r (a : C) : Cadd a C0 = a.
Proof. apply C_eq; simpl; ring. Qed.

Lemma Cadd_comm (a b : C) : Cadd a b = Cadd b a.
Proof. apply C_eq; simpl; ring. Qed.

Lemma Cadd_assoc (a b c : C) : Cadd a (Cadd b c) = Cadd (Cadd a b) c.
Proof. apply C_eq; simpl; ring. Qed.

Lemma Cmul_1_r (a : C) : Cmul a C1 = a.
Proof. apply C_eq; simpl; ring. Qed.

Lemma Cmul_0_r (a : C) : Cmul a C0 = C0.
Proof. apply C_eq; simpl; ring. Qed.

Lemma Cmul_comm (a b : C) : Cmul a b = Cmul b a.
Proof. apply C_eq; simpl; ring. Qed.

Lemma Cmul_assoc (a b c : C) : Cmul a (Cmul b c) = Cmul (Cmul a b) c.
Proof. apply C_eq; simpl; ring. Qed.

Lemma Cmul_add_distr_l (a b c : C) :
  Cmul a (Cadd b c) = Cadd (Cmul a b) (Cmul a c).
Proof. apply C_eq; simpl; ring. Qed.

Lemma Cmul_add_distr_r (a b c : C) :
  Cmul (Cadd a b) c = Cadd (Cmul a c) (Cmul b c).
Proof. apply C_eq; simpl; ring. Qed.

Lemma Cconj_add (a b : C) : Cconj (Cadd a b) = Cadd (Cconj a) (Cconj b).
Proof. apply C_eq; simpl; ring. Qed.

Lemma Cconj_mul (a b : C) : Cconj (Cmul a b) = Cmul (Cconj a) (Cconj b).
Proof. apply C_eq; simpl; ring. Qed.

Lemma Cconj_RtoC (x : R) : Cconj (RtoC x) = RtoC x.
Proof. apply C_eq; simpl; ring. Qed.

Lemma Cexp_0 : Cexp C0 = C1.
Proof.
  unfold Cexp, C0, C1; simpl. rewrite exp_0, cos_0, sin_0.
  apply C_eq; simpl; ring.
Qed.

Lemma Cexp_imag (x : R) : Cexp (mkC 0 x) = cis x.
Proof. unfold Cexp, cis; simpl. rewrite exp_0. apply C_eq; simpl; ring. Qed.

Lemma cis_add (x y : R) : cis (x + y) = Cmul (cis x) (cis y).
Proof.
  unfold cis, Cmul; simpl. rewrite cos_plus, sin_plus.
  apply C_eq; simpl; ring.
Qed.

Lemma cis_conj (x : R) : Cconj (cis x) = cis (- x).
Proof. unfold cis, Cconj; simpl. now rewrite cos_neg, sin_neg. Qed.

Lemma cis_0 : cis 0 = C1.
Proof. unfold cis, C1. now rewrite cos_0, sin_0. Qed.

(** * 32-bit wrap-around *)

Lemma wrap32_small (z : Z) : int32_range z -> wrap32 z = z.
Proof.
  unfold int32_range, wrap32. intros H.
  rewrite Z.mod_small by lia. lia.
Qed.

Lemma wrap32_range (z : Z) : int32_range (wrap32 z).
Proof.
  unfold int32_range, wrap32.
  pose proof (Z.mod_pos_bound (z + 2 ^ 31) (2 ^ 32) ltac:(lia)). lia.
Qed.

(** * The kinetic matrix *)

Section Kinetic.

Import Operators.

Lemma dot_self_combine (k : list Z) (a : Z) :
  fold_left (fun acc p => (acc + fst p * snd p)%Z) (combine k k) a
  = fold_left (fun acc x => (acc + x * x)%Z) k a.
Proof.
  revert a. induction k as [|x k IH]; intros a; simpl; [reflexivity|apply IH].
Qed.

Lemma np_dot_int32_self (k : list Z) :
  np_dot_int32 k k = Ok (wrap32 (dot_self k)).
Proof.
  unfold np_dot_int32. rewrite Nat.eqb_refl. f_equal. f_equal.
  apply dot_self_combine.
Qed.

Lemma dot_self_fold_nonneg (k : list Z) (a : Z) :
  (0 <= a -> a <= fold_left (fun acc x => acc + x * x) k a)%Z.
Proof.
  revert a. induction k as [|x k IH]; intros a Ha; simpl; [lia|].
  specialize (IH (a + x * x)%Z ltac:(nia)). nia.
Qed.

Lemma dot_self_nonneg (k : list Z) : (0 <= dot_self k)%Z.
Proof. apply (dot_self_fold_nonneg k 0%Z). lia. Qed.

Lemma dot_self_zero (k : list Z) : Forall (eq 0%Z) k -> dot_self k = 0%Z.
Proof.
  unfold dot_self. induction 1 as [|x k <- _ IH]; simpl; [reflexivity|exact IH].
Qed.

Lemma kenetic_entry_eq (hbar m : R) (k : kpoint) :
  kenetic_entry hbar m k
  = Ok (np_fdiv (hbar ^ 2 * IZR (int32_sq (wrap32 (dot_self k)))) (2 * m)).
Proof. unfold kenetic_entry. now rewrite np_dot_int32_self. Qed.

Lemma np_fdiv_finite (x y : R) : y <> 0 -> np_fdiv x y = Finite (x / y).
Proof. intros H. unfold np_fdiv. now destruct (Req_dec_T y 0). Qed.

Lemma np_diag_shape (v : list (ieee R)) :
  mat_shape (length v) (length v) (np_diag v).
Proof.
  unfold mat_shape, np_diag. split.
  - now rewrite length_map, length_seq.
  - apply Forall_forall. intros row Hrow.
    apply in_map_iff in Hrow as (i & <- & _).
    now rewrite length_map, length_seq.
Qed.

Lemma np_diag_get (v : list (ieee R)) (i j : nat) :
  (i < length v)%nat -> (j < length v)%nat ->
  mat_get (np_diag v) i j
  = Ok (if Nat.eqb i j then nth i v (Finite 0) else Finite 0).
Proof.
  intros Hi Hj. unfold mat_get, np_diag.
  rewrite (list_get_nth []) by (now rewrite length_map, length_seq).
  rewrite nth_map_seq by assumption. simpl.
  rewrite (list_get_nth (Finite 0)) by (now rewrite length_map, length_seq).
  now rewrite nth_map_seq by assumption.
Qed.

Lemma kenetic_eq (k_points : list kpoint) (hbar m : R) :
  kenetic k_points hbar m
  = Ok (np_diag
          (map (fun k => np_fdiv (hbar ^ 2 * IZR (int32_sq (wrap32 (dot_self k))))
                                 (2 * m))
               k_points)).
Proof.
  unfold kenetic.
  rewrite (mapM_ok_all _
             (fun k => np_fdiv (hbar ^ 2 * IZR (int32_sq (wrap32 (dot_self k))))
                               (2 * m))).
  - reflexivity.
  - intros k _. apply kenetic_entry_eq.
Qed.

End Kinetic.

Section KineticClaims.

Import Operators.

(** C2 (as amended).  For every k-point set of length [n] and positive
    [hbar] and [m], [kenetic] returns an [n] by [n] matrix that is zero off
    the diagonal; its entry [(i,i)] is [hbar^2 (k_i.k_i)^2 / (2m)] whenever
    [(k_i.k_i)^2] is representable as a 32-bit integer, and it is exactly
    [0] for the all-zero k-point. *)
Theorem kenetic_diagonal (k_points : list kpoint) (hbar m : R) :
  0 < hbar -> 0 < m ->
  exists T,
    kenetic k_points hbar m = Ok T /\
    mat_shape (length k_points) (length k_points) T /\
    (forall i j, (i < length k_points)%nat -> (j < length k_points)%nat ->
                 i <> j -> mat_get T i j = Ok (Finite 0)) /\
    (forall i, (i < length k_points)%nat -> kinetic_fits (nth i k_points []) ->
               mat_get T i i
               = Ok (Finite (kinetic_exact hbar m (nth i k_points [])))) /\
    (forall i, (i < length k_points)%nat ->
               Forall (eq 0%Z) (nth i k_points []) ->
               mat_get T i i = Ok (Finite 0)).
Proof.
  intros Hh Hm. rewrite kenetic_eq.
  set (entry := fun k => np_fdiv _ _).
  exists (np_diag (map entry k_points)).
  assert (Hlen : length (map entry k_points) = length k_points)
    by apply length_map.
  assert (Hdiag : forall i, (i < length k_points)%nat ->
            mat_get (np_diag (map entry k_points)) i i
            = Ok (Finite (hbar ^ 2
                          * IZR (int32_sq (wrap32 (dot_self (nth i k_points []))))
                          / (2 * m)))).
  { intros i Hi. rewrite np_diag_get by lia. rewrite Nat.eqb_refl.
    rewrite (nth_indep _ (Finite 0) (entry [])) by lia.
    rewrite (map_nth entry). unfold entry.
    rewrite np_fdiv_finite by lra. reflexivity. }
  split; [reflexivity|]. split.
  { rewrite <- Hlen. apply np_diag_shape. }
  split.
  { intros i j Hi Hj Hij. rewrite np_diag_get by lia.
    apply Nat.eqb_neq in Hij. now rewrite Hij. }
  split.
  - intros i Hi Hfit. rewrite (Hdiag i Hi). do 2 f_equal.
    unfold kinetic_exact, kinetic_fits, int32_sq in *.
    pose proof (dot_self_nonneg (nth i k_points [])) as Hnn.
    set (d := dot_self (nth i k_points [])) in *.
    assert (Hd : (d < 2 ^ 31)%Z) by nia.
    rewrite (wrap32_small d) by (unfold int32_range; lia).
    rewrite (wrap32_small (d * d)) by (unfold int32_range; nia).
    rewrite mult_IZR. simpl. field. lra.
  - intros i Hi Hz. rewrite (Hdiag i Hi). do 2 f_equal.
    rewrite (dot_self_zero _ Hz).
    change (int32_sq (wrap32 0)) with 0%Z. field. lra.
Qed.

Lemma kenetic_diagonal_witness :
  exists T,
    kenetic [[0%Z]; [1%Z]] 1 1 = Ok T /\
    mat_get T 0 1 = Ok (Finite 0) /\
    mat_get T 1 1 = Ok (Finite (kinetic_exact 1 1 [1%Z])) /\
    mat_get T 0 0 = Ok (Finite 0).
Proof.
  destruct (kenetic_diagonal [[0%Z]; [1%Z]] 1 1 ltac:(lra) ltac:(lra))
    as (T & HT & _ & Hoff & Hfit & Hzero).
  exists T. split; [exact HT|]. split; [|split].
  - apply Hoff; simpl; lia.
  - apply (Hfit 1%nat); [simpl; lia|]. unfold kinetic_fits. simpl. lia.
  - apply (Hzero 0%nat); [simpl; lia|]. simpl. repeat constructor.
Defined.

(** C2, the claim as stated, fails where the 32-bit dot product wraps
    around: for the k-point [(65536,)] the entry is [0], the formula on
    exact integers is not. *)
Lemma kenetic_overflow_counterexample :
  kenetic [[65536%Z]] 1 1 = Ok [[Finite 0]] /\
  kinetic_exact 1 1 [65536%Z] <> 0.
Proof.
  split.
  - rewrite kenetic_eq. simpl.
    replace (int32_sq (wrap32 (dot_self [65536%Z]))) with 0%Z by reflexivity.
    rewrite np_fdiv_finite by lra. unfold np_diag. simpl.
    match goal with
    | |- context [Finite ?x] => replace x with 0 by field
    end.
    reflexivity.
  - unfold kinetic_exact.
    replace (dot_self [65536%Z]) with 4294967296%Z by reflexivity.
    assert (0 < IZR 4294967296) by (apply IZR_lt; lia).
    intros E. apply Rmult_integral in E as [E|E].
    + apply Rmult_integral in E as [E|E]; [lra|].
      apply Rmult_integral in E as [E|E]; [lra|].
      apply Rmult_integral in E as [E|E]; lra.
    + pose proof (Rinv_neq_0_compat (2 * 1) ltac:(lra)). contradiction.
Qed.

End KineticClaims.

(** * Matrices filled entry by entry *)

Section MatrixFill.

Import Operators.

Context {A : Type}.

Lemma mat_get_nth (d : A) (n m : nat) (mat : list (list A)) (i j : nat) :
  mat_shape n m mat -> (i < n)%nat -> (j < m)%nat ->
  mat_get mat i j = Ok (nth j (nth i mat []) d).
Proof.
  intros [Hn Hrows] Hi Hj. unfold mat_get.
  rewrite (list_get_nth []) by lia. simpl.
  apply list_get_nth.
  rewrite Forall_forall in Hrows. rewrite (Hrows (nth i mat [])); [lia|].
  apply nth_In. lia.
Qed.

Lemma mat_set_ok (n m : nat) (mat : list (list A)) (i j : nat) (v : A) :
  mat_shape n m mat -> (i < n)%nat -> (j < m)%nat ->
  exists mat',
    mat_set mat i j v = Ok mat' /\ mat_shape n m mat' /\
    forall i' j', (i' < n)%nat -> (j' < m)%nat ->
      mat_get mat' i' j'
      = if Nat.eqb i' i && Nat.eqb j' j then Ok v else mat_get mat i' j'.
Proof.
  intros Hshape Hi Hj. pose proof Hshape as [Hn Hrows].
  rewrite Forall_forall in Hrows.
  assert (Hrow : length (nth i mat []) = m)
    by (apply Hrows, nth_In; lia).
  unfold mat_set. rewrite (list_get_nth []) by lia. simpl.
  destruct (list_set_ok j v (nth i mat []) ltac:(lia)) as (row' & E1 & L1 & N1).
  rewrite E1. simpl.
  destruct (list_set_ok i row' mat ltac:(lia)) as (mat' & E2 & L2 & N2).
  rewrite E2. exists mat'.
  assert (Hshape' : mat_shape n m mat').
  { split; [lia|]. apply Forall_forall. intros row Hin.
    destruct (In_nth _ _ [] Hin) as (p & Hp & <-).
    rewrite N2. destruct (Nat.eqb p i); [lia|].
    apply Hrows, nth_In. lia. }
  split; [reflexivity|]. split; [exact Hshape'|].
  intros i' j' Hi' Hj'.
  rewrite (mat_get_nth v n m mat' i' j' Hshape' Hi' Hj').
  rewrite (mat_get_nth v n m mat i' j' Hshape Hi' Hj').
  rewrite N2. destruct (Nat.eqb i' i) eqn:Ei; simpl; [|reflexivity].
  apply Nat.eqb_eq in Ei. subst i'.
  rewrite N1. destruct (Nat.eqb j' j); reflexivity.
Qed.

(** The loop [for i, j, v in results: mat[i, j] = v]. *)
Lemma fill_ok (n m : nat) (results : list (nat * nat * A)) :
  forall mat : list (list A),
  mat_shape n m mat ->
  Forall (fun r => (fst (fst r) < n)%nat /\ (snd (fst r) < m)%nat) results ->
  exists mat',
    foldM (fun mat res => let '(i, j, v) := res in mat_set mat i j v)
          results mat = Ok mat' /\
    mat_shape n m mat' /\
    forall i j, (i < n)%nat -> (j < m)%nat ->
      (exists v, In (i, j, v) results /\ mat_get mat' i j = Ok v) \/
      ((forall v, ~ In (i, j, v) results) /\ mat_get mat' i j = mat_get mat i j).
Proof.
  induction results as [|[[a b] w] rest IH]; intros mat Hshape Hall.
  - exists mat. simpl. split; [reflexivity|]. split; [assumption|].
    intros i j _ _. right. split; [intros v []|reflexivity].
  - inversion Hall as [|? ? [Ha Hb] Hrest]; subst. simpl in Ha, Hb.
    destruct (mat_set_ok n m mat a b w Hshape Ha Hb) as (mat1 & E1 & S1 & G1).
    destruct (IH mat1 S1 Hrest) as (mat' & E' & S' & G').
    exists mat'. cbn [foldM]. rewrite E1. simpl. split; [exact E'|].
    split; [exact S'|].
    intros i j Hi Hj.
    destruct (G' i j Hi Hj) as [(v & Hin & Hv)|[Hnone Hsame]].
    + left. exists v. split; [now right|exact Hv].
    + rewrite G1 in Hsame by assumption.
      destruct (Nat.eqb i a && Nat.eqb j b) eqn:E.
      * apply andb_true_iff in E as [Ei Ej].
        apply Nat.eqb_eq in Ei, Ej. subst a b.
        left. exists w. split; [now left|exact Hsame].
      * right. split; [|exact Hsame].
        intros v [Heq|Hin]; [|exact (Hnone v Hin)].
        injection Heq as -> -> _.
        rewrite !Nat.eqb_refl in E. discriminate.
Qed.

End MatrixFill.

(** * The electron-nucleus potential matrix *)

Section Potential.

Import Operators.

Lemma mapM_ok_exists {A B : Type} (f : A -> result B) (l : list A) :
  (forall a, In a l -> exists b, f a = Ok b) -> exists bs, mapM f l = Ok bs.
Proof.
  induction l as [|a l IH]; intros H; simpl.
  - now exists [].
  - destruct (H a (or_introl eq_refl)) as [b ->].
    destruct IH as [bs ->]; [intros; apply H; now right|].
    now exists (b :: bs).
Qed.

Lemma Forall2_In_l {A B : Type} (P : A -> B -> Prop) (l : list A) (l' : list B) :
  Forall2 P l l' -> forall a, In a l -> exists b, In b l' /\ P a b.
Proof.
  induction 1 as [|x y l l' Hxy _ IH]; intros a []; subst.
  - exists y. split; [now left|assumption].
  - destruct (IH a H) as (b & Hb & Hab). exists b. split; [now right|assumption].
Qed.

Lemma Forall2_In_r {A B : Type} (P : A -> B -> Prop) (l : list A) (l' : list B) :
  Forall2 P l l' -> forall b, In b l' -> exists a, In a l /\ P a b.
Proof.
  induction 1 as [|x y l l' Hxy _ IH]; intros b []; subst.
  - exists x. split; [now left|assumption].
  - destruct (IH b H) as (a & Ha & Hab). exists a. split; [now right|assumption].
Qed.

Lemma combine_seq_In {A : Type} (l : list A) (s i : nat) (x : A) :
  In (i, x) (combine (seq s (length l)) l)
  <-> (s <= i)%nat /\ nth_error l (i - s) = Some x.
Proof.
  revert s. induction l as [|y l IH]; intros s; simpl.
  - split; [intros []|]. intros [_ H]. now destruct (i - s)%nat.
  - rewrite IH. split.
    + intros [E|[Hs Hn]].
      * injection E as -> ->. split; [lia|]. now rewrite Nat.sub_diag.
      * split; [lia|]. replace (i - s)%nat with (S (i - S s)) by lia.
        exact Hn.
    + intros [Hs Hn]. destruct (Nat.eq_dec s i) as [->|Hne].
      * left. rewrite Nat.sub_diag in Hn. simpl in Hn. now injection Hn as ->.
      * right. split; [lia|].
        replace (i - s)%nat with (S (i - S s)) in Hn by lia. exact Hn.
Qed.

Lemma enumerate_In {A : Type} (l : list A) (i : nat) (x : A) :
  In (i, x) (enumerate l) <-> nth_error l i = Some x.
Proof.
  unfold enumerate. rewrite combine_seq_In, Nat.sub_0_r.
  split; [now intros [_ H]|]. intros H. split; [lia|exact H].
Qed.

Lemma elec_nuc_args_list_In (k_points : list kpoint) (cell_area : R)
  (r_pos : list position) (args : elec_nuc_args) :
  In args (elec_nuc_args_list k_points cell_area r_pos)
  <-> exists i j k_bra k_ket,
        args = (i, j, k_bra, k_ket, r_pos, cell_area) /\
        nth_error k_points i = Some k_bra /\
        nth_error k_points j = Some k_ket.
Proof.
  unfold elec_nuc_args_list. rewrite in_flat_map. split.
  - intros ([i kb] & Hib & Hin). apply in_map_iff in Hin as ([j kk] & <- & Hjk).
    apply enumerate_In in Hib, Hjk. simpl. now exists i, j, kb, kk.
  - intros (i & j & kb & kk & -> & Hi & Hj).
    exists (i, kb). split; [now apply enumerate_In|].
    apply in_map_iff. exists (j, kk). split; [reflexivity|now apply enumerate_In].
Qed.

Lemma elec_nuc_potential_element_eq (i j : nat) (k_bra k_ket : kpoint)
  (r_pos : list position) (cell_area : R) :
  elec_nuc_potential_element (i, j, k_bra, k_ket, r_pos, cell_area)
  = (v <- elec_nuc_value k_bra k_ket r_pos cell_area ;; Ok (i, j, v)).
Proof. reflexivity. Qed.

Lemma np_zeros2_shape {A : Type} (z : A) (n m : nat) :
  mat_shape n m (np_zeros2 z n m).
Proof.
  unfold mat_shape, np_zeros2. split; [apply repeat_length|].
  apply Forall_forall. intros row Hin. apply repeat_spec in Hin. subst.
  apply repeat_length.
Qed.

(** Every entry of the returned matrix is the value computed for its pair
    of k-points. *)
Lemma elec_nuc_potential_entries (k_points : list kpoint) (cell_area : R)
  (r_pos : list position) (V : list (list (ieee C))) :
  elec_nuc_potential k_points cell_area r_pos = Ok V ->
  mat_shape (length k_points) (length k_points) V /\
  forall i j, (i < length k_points)%nat -> (j < length k_points)%nat ->
    exists v,
      elec_nuc_value (nth i k_points []) (nth j k_points []) r_pos cell_area
      = Ok v /\
      mat_get V i j = Ok v.
Proof.
  unfold elec_nuc_potential, pool_map. intros H.
  destruct (mapM _ _) as [results|e] eqn:Em; simpl in H; [|discriminate].
  apply mapM_ok_inv in Em.
  set (n := length k_points) in *.
  assert (Hres : forall i j v, In (i, j, v) results ->
            (i < n)%nat /\ (j < n)%nat /\
            elec_nuc_value (nth i k_points []) (nth j k_points []) r_pos cell_area
            = Ok v).
  { intros i j v Hin.
    destruct (Forall2_In_r _ _ _ Em _ Hin) as (args & Hargs & Hf).
    apply elec_nuc_args_list_In in Hargs
      as (i' & j' & kb & kk & -> & Hi & Hj).
    rewrite elec_nuc_potential_element_eq in Hf.
    destruct (elec_nuc_value kb kk r_pos cell_area) as [w|e] eqn:Ev;
      simpl in Hf; [|discriminate].
    injection Hf as Ei Ej Ew. subst i' j' w.
    assert (nth i k_points [] = kb) as -> by (now apply nth_error_nth).
    assert (nth j k_points [] = kk) as -> by (now apply nth_error_nth).
    repeat split; [apply nth_error_Some; congruence
                  |apply nth_error_Some; congruence|exact Ev]. }
  destruct (fill_ok n n results (np_zeros2 (Finite C0) n n))
    as (V' & EV & SV & GV).
  { apply np_zeros2_shape. }
  { apply Forall_forall. intros [[i j] v] Hin. simpl.
    destruct (Hres i j v Hin) as (Hi & Hj & _). now split. }
  rewrite EV in H. injection H as <-. split; [exact SV|].
  intros i j Hi Hj.
  destruct (GV i j Hi Hj) as [(v & Hin & Hv)|[Hnone _]].
  - exists v. split; [|exact Hv]. now apply Hres.
  - exfalso.
    assert (Hin : In (i, j, nth i k_points [], nth j k_points [], r_pos, cell_area)
                     (elec_nuc_args_list k_points cell_area r_pos)).
    { apply elec_nuc_args_list_In.
      exists i, j, (nth i k_points []), (nth j k_points []).
      repeat split; now apply nth_error_nth'. }
    destruct (Forall2_In_l _ _ _ Em _ Hin) as (res & Hres' & Hf).
    rewrite elec_nuc_potential_element_eq in Hf.
    destruct (elec_nuc_value _ _ _ _) as [w|e]; simpl in Hf; [|discriminate].
    injection Hf as <-. exact (Hnone w Hres').
Qed.

(** The matrix is returned as soon as every pair of k-points has a value. *)
Lemma elec_nuc_potential_returns (k_points : list kpoint) (cell_area : R)
  (r_pos : list position) :
  (forall k_bra k_ket, In k_bra k_points -> In k_ket k_points ->
     exists v, elec_nuc_value k_bra k_ket r_pos cell_area = Ok v) ->
  exists V, elec_nuc_potential k_points cell_area r_pos = Ok V.
Proof.
  intros Hall. unfold elec_nuc_potential, pool_map.
  destruct (mapM_ok_exists elec_nuc_potential_element
              (elec_nuc_args_list k_points cell_area r_pos))
    as [results Em].
  { intros args Hin.
    apply elec_nuc_args_list_In in Hin as (i & j & kb & kk & -> & Hi & Hj).
    rewrite elec_nuc_potential_element_eq.
    destruct (Hall kb kk) as [v ->];
      [eapply nth_error_In; eassumption|eapply nth_error_In; eassumption|].
    now exists (i, j, v). }
  rewrite Em. simpl.
  set (n := length k_points).
  destruct (fill_ok n n results (np_zeros2 (Finite C0) n n))
    as (V' & EV & _).
  { apply np_zeros2_shape. }
  { apply mapM_ok_inv in Em. apply Forall_forall. intros [[i j] v] Hin. simpl.
    destruct (Forall2_In_r _ _ _ Em _ Hin) as (args & Hargs & Hf).
    apply elec_nuc_args_list_In in Hargs as (i' & j' & kb & kk & -> & Hi & Hj).
    rewrite elec_nuc_potential_element_eq in Hf.
    destruct (elec_nuc_value kb kk r_pos cell_area); simpl in Hf; [|discriminate].
    injection Hf as Ei Ej _. subst i' j'.
    split; apply nth_error_Some; congruence. }
  now exists V'.
Qed.

End Potential.

(** * One matrix element of the potential *)

Section PotentialElement.

Import Operators.

Lemma np_array_equal_iff (a b : list Z) : np_array_equal a b = true <-> a = b.
Proof.
  unfold np_array_equal. revert b.
  induction a as [|x a IH]; intros [|y b]; simpl.
  - split; reflexivity.
  - split; discriminate.
  - split; discriminate.
  - specialize (IH b). destruct (Z.eqb_spec x y) as [->|Hne]; simpl.
    + rewrite IH. split; [now intros ->|now intros [= ->]].
    + rewrite andb_false_r. split; [discriminate|]. intros [= E _]. contradiction.
Qed.

Lemma np_array_equal_sym (a b : list Z) :
  np_array_equal a b = np_array_equal b a.
Proof.
  destruct (np_array_equal a b) eqn:E1, (np_array_equal b a) eqn:E2;
    try reflexivity.
  - apply np_array_equal_iff in E1. subst.
    rewrite (proj2 (np_array_equal_iff b b) eq_refl) in E2. discriminate.
  - apply np_array_equal_iff in E2. subst.
    rewrite (proj2 (np_array_equal_iff a a) eq_refl) in E1. discriminate.
Qed.

Lemma componentwise_equal_eq (a b : list Z) : componentwise_equal a b -> a = b.
Proof. intros [Hlen Hnth]. now apply (nth_ext a b 0%Z 0%Z). Qed.

(** With equal k-points every pass through the loop stores [0]. *)
Lemma elec_nuc_loop_equal (k : kpoint) (cell_area : R) (r_pos : list position) :
  forall acc, foldM (elec_nuc_step k k cell_area) r_pos acc
              = Ok (match r_pos with [] => acc | _ :: _ => Finite C0 end).
Proof.
  induction r_pos as [|r rs IH]; intros acc; [reflexivity|].
  cbn [foldM]. unfold elec_nuc_step at 1.
  rewrite (proj2 (np_array_equal_iff k k) eq_refl). simpl.
  rewrite IH. now destruct rs.
Qed.

Lemma elec_nuc_value_equal (k : kpoint) (cell_area : R) (r_pos : list position) :
  elec_nuc_value k k r_pos cell_area = Ok (Finite C0).
Proof.
  unfold elec_nuc_value. rewrite elec_nuc_loop_equal. now destruct r_pos.
Qed.

Lemma sum_sq_fold_nonneg (d : list Z) (a : R) :
  0 <= a -> 0 <= fold_left (fun acc x => acc + IZR x * IZR x) d a.
Proof.
  revert a. induction d as [|x d IH]; intros a Ha; simpl; [exact Ha|].
  apply IH. nra.
Qed.

Lemma np_linalg_norm_sq (d : list Z) : np_linalg_norm d ^ 2 = sum_sq d.
Proof.
  unfold np_linalg_norm. apply pow2_sqrt. apply sum_sq_fold_nonneg. lra.
Qed.

Lemma Cmul_negi (p : R) : Cmul (Copp Ci) (RtoC p) = mkC 0 (- p).
Proof. apply C_eq; simpl; ring. Qed.

(** One pass of the loop for two different k-points. *)
Lemma elec_nuc_step_ne (k_bra k_ket : kpoint) (cell_area : R) (acc : C)
  (r : position) (d : list Z) (p : R) :
  np_array_equal k_bra k_ket = false ->
  np_sub_int32 k_bra k_ket = Ok d ->
  np_dot_mixed d r = Ok p ->
  cell_area * sum_sq d <> 0 ->
  elec_nuc_step k_bra k_ket cell_area (Finite acc) r
  = Ok (Finite (Cadd acc (Cmul (RtoC (4 * PI / (cell_area * sum_sq d)))
                               (cis (- p))))).
Proof.
  intros Hne Hd Hp Hnz. unfold elec_nuc_step.
  rewrite Hne, Hd. cbn [bind]. rewrite Hp. cbn [bind].
  rewrite np_linalg_norm_sq, np_fdiv_finite by assumption.
  cbn [ieee_map ieee_map2].
  now rewrite Cmul_negi, Cexp_imag.
Qed.

End PotentialElement.

Section PotentialClaims.

Import Operators.

(** C3.  For k-points [k_bra] and [k_ket] that are equal component by
    component, [elec_nuc_potential_element] returns exactly [0], whatever
    the nuclear positions and the cell area; hence every entry of the matrix
    of [elec_nuc_potential] between equal k-points, every diagonal entry
    among them, is [0]. *)
Theorem elec_nuc_equal_kpoints_zero (i j : nat) (k_bra k_ket : kpoint)
  (r_pos : list position) (cell_area : R) :
  componentwise_equal k_bra k_ket ->
  elec_nuc_potential_element (i, j, k_bra, k_ket, r_pos, cell_area)
  = Ok (i, j, Finite C0) /\
  forall (k_points : list kpoint) (V : list (list (ieee C))) (a b : nat),
    elec_nuc_potential k_points cell_area r_pos = Ok V ->
    (a < length k_points)%nat -> (b < length k_points)%nat ->
    nth a k_points [] = k_bra -> nth b k_points [] = k_ket ->
    mat_get V a b = Ok (Finite C0).
Proof.
  intros Heq. apply componentwise_equal_eq in Heq. subst k_ket. split.
  - rewrite elec_nuc_potential_element_eq, elec_nuc_value_equal. reflexivity.
  - intros k_points V a b HV Ha Hb Hka Hkb.
    destruct (elec_nuc_potential_entries _ _ _ _ HV) as [_ Hent].
    destruct (Hent a b Ha Hb) as (v & Hv & Hget).
    rewrite Hka, Hkb, elec_nuc_value_equal in Hv. injection Hv as <-.
    exact Hget.
Qed.

Lemma elec_nuc_equal_kpoints_zero_witness :
  elec_nuc_potential_element
    (0%nat, 1%nat, [1%Z; 0%Z], [1%Z; 0%Z], [[1; 2]; [3; 4]], 5)
  = Ok (0%nat, 1%nat, Finite C0).
Proof.
  apply (elec_nuc_equal_kpoints_zero 0 1 [1%Z; 0%Z] [1%Z; 0%Z] [[1; 2]; [3; 4]] 5).
  split; [reflexivity|]. intros c _. reflexivity.
Defined.

Lemma example_value_01 :
  elec_nuc_value [0%Z] [1%Z] [[0]] 1 = Ok (Finite (RtoC (4 * PI))).
Proof.
  unfold elec_nuc_value. cbn [foldM].
  rewrite (elec_nuc_step_ne [0%Z] [1%Z] 1 C0 [0] [(-1)%Z] 0).
  - cbn [bind]. do 2 f_equal. apply C_eq; simpl;
      rewrite Ropp_0, ?cos_0, ?sin_0; unfold sum_sq; simpl; field.
  - reflexivity.
  - reflexivity.
  - unfold np_dot_mixed. simpl. f_equal. ring.
  - unfold sum_sq. simpl. lra.
Qed.

Lemma example_value_10 :
  elec_nuc_value [1%Z] [0%Z] [[0]] 1 = Ok (Finite (RtoC (4 * PI))).
Proof.
  unfold elec_nuc_value. cbn [foldM].
  rewrite (elec_nuc_step_ne [1%Z] [0%Z] 1 C0 [0] [1%Z] 0).
  - cbn [bind]. do 2 f_equal. apply C_eq; simpl;
      rewrite Ropp_0, ?cos_0, ?sin_0; unfold sum_sq; simpl; field.
  - reflexivity.
  - reflexivity.
  - unfold np_dot_mixed. simpl. f_equal. ring.
  - unfold sum_sq. simpl. lra.
Qed.

Lemma example_kinetic :
  kenetic [[0%Z]; [1%Z]] 1 1
  = Ok [[Finite 0; Finite 0]; [Finite 0; Finite (1 / 2)]].
Proof.
  rewrite kenetic_eq. unfold np_diag. simpl.
  replace (int32_sq (wrap32 (dot_self [0%Z]))) with 0%Z by reflexivity.
  replace (int32_sq (wrap32 (dot_self [1%Z]))) with 1%Z by reflexivity.
  rewrite !np_fdiv_finite by lra.
  replace (1 * (1 * 1) * 0 / (2 * 1)) with 0 by field.
  replace (1 * (1 * 1) * 1 / (2 * 1)) with (1 / 2) by field.
  reflexivity.
Qed.

(** C1 (as amended).  For [k_points = [(0,), (1,)]], [r_pos = [(0.0,)]]
    and [cell_area = 1.0], with the default [hbar = m = 1]: [kenetic] is
    [diag(0, 1/2)]; the potential matrix is 2 by 2, its two off-diagonal
    entries are [4 pi] and its two diagonal entries are [0]. *)
Theorem example_end_to_end :
  kenetic [[0%Z]; [1%Z]] 1 1
  = Ok [[Finite 0; Finite 0]; [Finite 0; Finite (1 / 2)]] /\
  exists V,
    elec_nuc_potential [[0%Z]; [1%Z]] 1 [[0]] = Ok V /\
    mat_shape 2 2 V /\
    mat_get V 0 1 = Ok (Finite (RtoC (4 * PI))) /\
    mat_get V 1 0 = Ok (Finite (RtoC (4 * PI))) /\
    mat_get V 0 0 = Ok (Finite C0) /\
    mat_get V 1 1 = Ok (Finite C0).
Proof.
  split; [exact example_kinetic|].
  destruct (elec_nuc_potential_returns [[0%Z]; [1%Z]] 1 [[0]]) as [V HV].
  { intros kb kk [<-|[<-|[]]] [<-|[<-|[]]]; eexists;
      first [apply elec_nuc_value_equal | apply example_value_01
            | apply example_value_10]. }
  exists V. split; [exact HV|].
  destruct (elec_nuc_potential_entries _ _ _ _ HV) as [HS Hent].
  split; [exact HS|].
  assert (Hget : forall i j v, (i < 2)%nat -> (j < 2)%nat ->
            elec_nuc_value (nth i [[0%Z]; [1%Z]] []) (nth j [[0%Z]; [1%Z]] [])
                           [[0]] 1 = Ok v ->
            mat_get V i j = Ok v).
  { intros i j v Hi Hj Hv. destruct (Hent i j Hi Hj) as (w & Hw & Hg).
    pose proof (eq_trans (eq_sym Hv) Hw) as E. now injection E as <-. }
  repeat split; apply Hget; try lia;
    first [apply elec_nuc_value_equal | apply example_value_01
          | apply example_value_10].
Qed.

(** C1, the claim as stated, fails on the kinetic matrix: its second
    diagonal entry is [1/2], so the matrix is not [diag(0, 1)]. *)
Lemma example_kinetic_counterexample :
  kenetic [[0%Z]; [1%Z]] 1 1
  <> Ok [[Finite 0; Finite 0]; [Finite 0; Finite 1]].
Proof.
  rewrite example_kinetic. intros H. injection H as H. lra.
Qed.

End PotentialClaims.

(** * Exchanging bra and ket *)

Section Hermitian.

Import Operators.

Lemma np_sub_int32_exact (a b : list Z) :
  length a = length b -> diff_fits a b ->
  np_sub_int32 a b = Ok (map (fun p => (fst p - snd p)%Z) (combine a b)).
Proof.
  intros Hlen Hfit. unfold np_sub_int32.
  rewrite Hlen, Nat.eqb_refl. f_equal.
  apply map_ext_in. intros p Hp.
  apply wrap32_small. unfold diff_fits in Hfit.
  rewrite Forall_forall in Hfit. now apply Hfit.
Qed.

Lemma np_sub_int32_mismatch (a b : list Z) :
  length a <> length b -> np_sub_int32 a b = Raise ValueError.
Proof.
  intros H. unfold np_sub_int32. apply Nat.eqb_neq in H. now rewrite H.
Qed.

Lemma diff_swap (a b : list Z) :
  map (fun p => (fst p - snd p)%Z) (combine b a)
  = map Z.opp (map (fun p => (fst p - snd p)%Z) (combine a b)).
Proof.
  revert b. induction a as [|x a IH]; intros [|y b]; simpl; try reflexivity.
  rewrite IH. f_equal. lia.
Qed.

Lemma sum_sq_opp (d : list Z) : sum_sq (map Z.opp d) = sum_sq d.
Proof.
  unfold sum_sq. generalize 0.
  induction d as [|x d IH]; intros a; simpl; [reflexivity|].
  rewrite IH. f_equal. rewrite opp_IZR. ring.
Qed.

Lemma np_linalg_norm_opp (d : list Z) :
  np_linalg_norm (map Z.opp d) = np_linalg_norm d.
Proof. unfold np_linalg_norm. f_equal. apply sum_sq_opp. Qed.

Lemma np_dot_mixed_opp (d : list Z) (r : list R) :
  np_dot_mixed (map Z.opp d) r = result_map Ropp (np_dot_mixed d r).
Proof.
  unfold np_dot_mixed. rewrite length_map.
  destruct (Nat.eqb (length d) (length r)); [|reflexivity].
  simpl. f_equal. rewrite <- Ropp_0 at 1. generalize 0.
  revert r. induction d as [|x d IH]; intros r a; simpl; [reflexivity|].
  destruct r as [|y r]; simpl; [reflexivity|].
  rewrite <- IH. f_equal. rewrite opp_IZR. ring.
Qed.

Lemma phase_conj (c p : R) :
  Cmul (RtoC c) (Cexp (Cmul (Copp Ci) (RtoC (- p))))
  = Cconj (Cmul (RtoC c) (Cexp (Cmul (Copp Ci) (RtoC p)))).
Proof.
  rewrite !Cmul_negi, !Cexp_imag, Cconj_mul, Cconj_RtoC, cis_conj.
  reflexivity.
Qed.

Lemma Cconj_0 : Cconj C0 = C0.
Proof. apply C_eq; simpl; ring. Qed.

(** One pass of the loop with bra and ket exchanged gives the conjugate. *)
Lemma elec_nuc_step_conj (k_bra k_ket : kpoint) (cell_area : R)
  (acc : ieee C) (r : position) :
  diff_fits k_bra k_ket -> diff_fits k_ket k_bra ->
  elec_nuc_step k_ket k_bra cell_area (ieee_map Cconj acc) r
  = result_map (ieee_map Cconj) (elec_nuc_step k_bra k_ket cell_area acc r).
Proof.
  intros Hf Hb. unfold elec_nuc_step.
  rewrite (np_array_equal_sym k_ket k_bra).
  destruct (np_array_equal k_bra k_ket).
  { simpl. now rewrite Cconj_0. }
  destruct (Nat.eq_dec (length k_bra) (length k_ket)) as [Hlen|Hlen].
  2:{ rewrite !np_sub_int32_mismatch by congruence. reflexivity. }
  rewrite (np_sub_int32_exact k_bra k_ket Hlen Hf).
  rewrite (np_sub_int32_exact k_ket k_bra (eq_sym Hlen) Hb).
  cbn [bind]. rewrite diff_swap.
  set (d := map (fun p => (fst p - snd p)%Z) (combine k_bra k_ket)).
  rewrite np_dot_mixed_opp, np_linalg_norm_opp.
  destruct (np_dot_mixed d r) as [p|e]; [|reflexivity].
  cbn [result_map bind].
  destruct (np_fdiv (4 * PI) (cell_area * np_linalg_norm d ^ 2)) as [c|];
    destruct acc as [a|]; cbn [ieee_map ieee_map2 result_map]; try reflexivity.
  now rewrite phase_conj, Cconj_add.
Qed.

Lemma elec_nuc_loop_conj (k_bra k_ket : kpoint) (cell_area : R)
  (r_pos : list position) :
  diff_fits k_bra k_ket -> diff_fits k_ket k_bra ->
  forall acc,
    foldM (elec_nuc_step k_ket k_bra cell_area) r_pos (ieee_map Cconj acc)
    = result_map (ieee_map Cconj)
                 (foldM (elec_nuc_step k_bra k_ket cell_area) r_pos acc).
Proof.
  intros Hf Hb. induction r_pos as [|r rs IH]; intros acc; [reflexivity|].
  cbn [foldM]. rewrite elec_nuc_step_conj by assumption.
  destruct (elec_nuc_step k_bra k_ket cell_area acc r) as [acc'|e];
    [|reflexivity].
  cbn [result_map bind]. apply IH.
Qed.

Lemma elec_nuc_value_conj (k_bra k_ket : kpoint) (cell_area : R)
  (r_pos : list position) :
  diff_fits k_bra k_ket -> diff_fits k_ket k_bra ->
  elec_nuc_value k_ket k_bra r_pos cell_area
  = result_map (ieee_map Cconj) (elec_nuc_value k_bra k_ket r_pos cell_area).
Proof.
  intros Hf Hb. unfold elec_nuc_value.
  rewrite <- (elec_nuc_loop_conj k_bra k_ket cell_area r_pos Hf Hb).
  cbn [ieee_map]. now rewrite Cconj_0.
Qed.

(** With k-points and positions of one dimension the loop never raises. *)
Lemma elec_nuc_value_returns (D : nat) (k_bra k_ket : kpoint) (cell_area : R)
  (r_pos : list position) :
  length k_bra = D -> length k_ket = D ->
  (forall r, In r r_pos -> length r = D) ->
  exists v, elec_nuc_value k_bra k_ket r_pos cell_area = Ok v.
Proof.
  intros Hb Hk. unfold elec_nuc_value. generalize (Finite C0 : ieee C).
  induction r_pos as [|r rs IH]; intros acc Hr; [now exists acc|].
  cbn [foldM].
  assert (Hstep : exists acc', elec_nuc_step k_bra k_ket cell_area acc r = Ok acc').
  { unfold elec_nuc_step. destruct (np_array_equal k_bra k_ket); [eauto|].
    unfold np_sub_int32. rewrite Hb, Hk, Nat.eqb_refl. cbn [bind].
    unfold np_dot_mixed. rewrite length_map, length_combine, Hb, Hk.
    rewrite Nat.min_id, (Hr r (or_introl eq_refl)), Nat.eqb_refl.
    cbn [bind]. eauto. }
  destruct Hstep as [acc' ->]. cbn [bind]. apply IH.
  intros r' Hin. apply Hr. now right.
Qed.

End Hermitian.

Section HermitianClaims.

Import Operators.

(** C4 (as amended).  For every k-point set in which no difference of two
    k-point components leaves the 32-bit integer range, every cell area and
    every set of nuclear positions: when the k-points and the positions
    share one dimension, [elec_nuc_potential] returns a matrix; and a
    returned matrix [V] whose entries are all finite is Hermitian,
    [V[j,i] = conj(V[i,j])] for all indices [i], [j]. *)
Theorem elec_nuc_potential_hermitian (k_points : list kpoint) (cell_area : R)
  (r_pos : list position) :
  (forall k_bra k_ket, In k_bra k_points -> In k_ket k_points ->
                       diff_fits k_bra k_ket) ->
  (forall D, (forall k, In k k_points -> length k = D) ->
             (forall r, In r r_pos -> length r = D) ->
             exists V, elec_nuc_potential k_points cell_area r_pos = Ok V) /\
  (forall V, elec_nuc_potential k_points cell_area r_pos = Ok V ->
     (forall i j, (i < length k_points)%nat -> (j < length k_points)%nat ->
                  exists z, mat_get V i j = Ok (Finite z)) ->
     forall i j, (i < length k_points)%nat -> (j < length k_points)%nat ->
       exists z, mat_get V i j = Ok (Finite z) /\
                 mat_get V j i = Ok (Finite (Cconj z))).
Proof.
  intros Hfit. split.
  - intros D Hk Hr. apply elec_nuc_potential_returns.
    intros kb kk Hb Hkk. apply (elec_nuc_value_returns D); auto.
  - intros V HV Hfin i j Hi Hj.
    destruct (Hfin i j Hi Hj) as [z Hz]. exists z. split; [exact Hz|].
    destruct (elec_nuc_potential_entries _ _ _ _ HV) as [_ Hent].
    destruct (Hent i j Hi Hj) as (v & Hv & Hg).
    destruct (Hent j i Hj Hi) as (w & Hw & Hg').
    rewrite Hg in Hz. injection Hz as ->.
    rewrite Hg'. do 2 f_equal.
    rewrite elec_nuc_value_conj in Hw
      by (apply Hfit; apply nth_In; assumption).
    rewrite Hv in Hw. cbn [result_map ieee_map] in Hw. now injection Hw as <-.
Qed.

Lemma elec_nuc_potential_hermitian_witness :
  exists V z,
    elec_nuc_potential [[0%Z]; [1%Z]] 1 [[0]] = Ok V /\
    mat_get V 0 1 = Ok (Finite z) /\
    mat_get V 1 0 = Ok (Finite (Cconj z)).
Proof.
  assert (Hfit : forall k_bra k_ket : kpoint,
             In k_bra [[0%Z]; [1%Z]] -> In k_ket [[0%Z]; [1%Z]] ->
             diff_fits k_bra k_ket).
  { intros kb kk [<-|[<-|[]]] [<-|[<-|[]]];
      repeat constructor; unfold int32_range; simpl; lia. }
  destruct (elec_nuc_potential_hermitian [[0%Z]; [1%Z]] 1 [[0]] Hfit)
    as [Hret Hherm].
  destruct (Hret 1%nat) as [V HV].
  { intros k [<-|[<-|[]]]; reflexivity. }
  { intros r [<-|[]]. reflexivity. }
  destruct (elec_nuc_potential_entries _ _ _ _ HV) as [_ Hent].
  assert (Hfin : forall i j, (i < 2)%nat -> (j < 2)%nat ->
            exists z, mat_get V i j = Ok (Finite z)).
  { intros i j Hi Hj. destruct (Hent i j Hi Hj) as (v & Hv & Hg).
    rewrite Hg.
    destruct i as [|[|i]], j as [|[|j]]; try lia; cbn [nth] in Hv.
    - rewrite elec_nuc_value_equal in Hv. injection Hv as <-. eauto.
    - rewrite example_value_01 in Hv. injection Hv as <-. eauto.
    - rewrite example_value_10 in Hv. injection Hv as <-. eauto.
    - rewrite elec_nuc_value_equal in Hv. injection Hv as <-. eauto. }
  destruct (Hherm V HV Hfin 0%nat 1%nat) as (z & H01 & H10);
    [simpl; lia|simpl; lia|].
  exists V, z. repeat split; assumption.
Defined.

Lemma overflow_value (k_bra k_ket : kpoint) :
  np_array_equal k_bra k_ket = false ->
  np_sub_int32 k_bra k_ket = Ok [(-2147483648)%Z] ->
  elec_nuc_value k_bra k_ket [[PI / 4294967296]] 1
  = Ok (Finite (mkC 0 (PI / 1152921504606846976))).
Proof.
  intros Hne Hd. unfold elec_nuc_value. cbn [foldM].
  rewrite (elec_nuc_step_ne k_bra k_ket 1 C0 [PI / 4294967296]
             [(-2147483648)%Z] (- (PI / 2)) Hne Hd).
  - cbn [bind]. do 2 f_equal. rewrite Ropp_involutive.
    unfold cis. rewrite cos_PI2, sin_PI2.
    apply C_eq; unfold sum_sq; simpl; field.
  - unfold np_dot_mixed. simpl. f_equal. field.
  - unfold sum_sq. simpl. lra.
Qed.

(** C4, the claim as stated, fails where a difference of k-point
    components wraps around: for the k-points [(2147483647,)] and [(-1,)]
    both [k_bra - k_ket] and [k_ket - k_bra] are [-2147483648], so the two
    off-diagonal entries are the same number, which is not real; all four
    entries are finite. *)
Lemma elec_nuc_hermitian_counterexample :
  exists V z,
    elec_nuc_potential [[2147483647%Z]; [(-1)%Z]] 1 [[PI / 4294967296]] = Ok V /\
    (forall i j, (i < 2)%nat -> (j < 2)%nat ->
                 exists w, mat_get V i j = Ok (Finite w)) /\
    mat_get V 0 1 = Ok (Finite z) /\
    mat_get V 1 0 = Ok (Finite z) /\
    z <> Cconj z.
Proof.
  set (ks := [[2147483647%Z]; [(-1)%Z]]).
  set (rs := [[PI / 4294967296]]).
  set (z := mkC 0 (PI / 1152921504606846976)).
  assert (H01 : elec_nuc_value [2147483647%Z] [(-1)%Z] rs 1 = Ok (Finite z))
    by (apply overflow_value; reflexivity).
  assert (H10 : elec_nuc_value [(-1)%Z] [2147483647%Z] rs 1 = Ok (Finite z))
    by (apply overflow_value; reflexivity).
  destruct (elec_nuc_potential_returns ks 1 rs) as [V HV].
  { intros kb kk [<-|[<-|[]]] [<-|[<-|[]]]; eexists;
      first [apply elec_nuc_value_equal | exact H01 | exact H10]. }
  exists V, z. split; [exact HV|].
  destruct (elec_nuc_potential_entries _ _ _ _ HV) as [_ Hent].
  assert (Hget : forall i j v, (i < 2)%nat -> (j < 2)%nat ->
            elec_nuc_value (nth i ks []) (nth j ks []) rs 1 = Ok v ->
            mat_get V i j = Ok v).
  { intros i j v Hi Hj Hv. destruct (Hent i j Hi Hj) as (w & Hw & Hg).
    pose proof (eq_trans (eq_sym Hv) Hw) as E. now injection E as <-. }
  split; [|split; [|split]].
  - intros i j Hi Hj.
    destruct i as [|[|i]], j as [|[|j]]; try lia; eexists; apply Hget; try lia;
      first [apply elec_nuc_value_equal | exact H01 | exact H10].
  - apply Hget; try lia. exact H01.
  - apply Hget; try lia. exact H10.
  - unfold z, Cconj. simpl. intros E. injection E as E.
    pose proof PI_RGT_0. lra.
Qed.

End HermitianClaims.

(** * Loops over a range *)

Section RangeLoops.

Import Fourier.

Lemma foldM_app {A S : Type} (body : S -> A -> result S) (l1 l2 : list A) (s : S) :
  foldM body (l1 ++ l2) s = (s' <- foldM body l1 s ;; foldM body l2 s').
Proof.
  revert s. induction l1 as [|a l1 IH]; intros s; simpl; [reflexivity|].
  destruct (body s a); simpl; [apply IH|reflexivity].
Qed.

Lemma py_range_empty (a b : Z) : (b <= a)%Z -> py_range a b = [].
Proof.
  intros H. unfold py_range.
  replace (Z.to_nat (b - a)) with 0%nat by lia. reflexivity.
Qed.

Lemma py_range_cons (a b : Z) :
  (a < b)%Z -> py_range a b = a :: py_range (a + 1) b.
Proof.
  intros H. unfold py_range.
  replace (Z.to_nat (b - a)) with (S (Z.to_nat (b - (a + 1)))) by lia.
  cbn [seq map]. f_equal; [lia|].
  rewrite <- seq_shift, map_map. apply map_ext. intros i. lia.
Qed.

(** A loop that adds one term per index. *)
Lemma foldM_accumulate (body : C -> Z -> result C) (f : nat -> C) (a : Z) (n : nat) :
  (forall acc i, (i < n)%nat ->
     body acc (a + Z.of_nat i)%Z = Ok (Cadd acc (f i))) ->
  foldM body (map (fun i => (a + Z.of_nat i)%Z) (seq 0 n)) C0 = Ok (Csum f n).
Proof.
  induction n as [|n IH]; intros H; [reflexivity|].
  rewrite seq_S, map_app, foldM_app, IH by (intros; apply H; lia).
  cbn [bind map foldM Nat.add]. rewrite H by lia. reflexivity.
Qed.

Lemma skipn_cons_nth {A : Type} (j : nat) (l : list A) :
  (j < length l)%nat -> exists x, skipn j l = x :: skipn (S j) l.
Proof.
  revert j. induction l as [|y l IH]; intros j H; simpl in H; [lia|].
  destruct j as [|j]; [now exists y|].
  apply IH. lia.
Qed.

Lemma list_set_middle {A : Type} (l1 l2 : list A) (x v : A) :
  list_set (length l1) v (l1 ++ x :: l2) = Ok (l1 ++ v :: l2).
Proof.
  induction l1 as [|y l1 IH]; [reflexivity|].
  cbn [length app list_set]. now rewrite IH.
Qed.

(** A loop that stores one entry per index into an array of zeros. *)
Lemma foldM_fill (body : list C -> Z -> result (list C)) (g : nat -> C)
  (a : Z) (n : nat) (init : list C) :
  length init = n ->
  (forall arr i, (i < n)%nat -> length arr = n ->
     body arr (a + Z.of_nat i)%Z = list_set i (g i) arr) ->
  foldM body (map (fun i => (a + Z.of_nat i)%Z) (seq 0 n)) init
  = Ok (map g (seq 0 n)).
Proof.
  intros Hlen Hbody.
  assert (Hpre : forall j, (j <= n)%nat ->
            foldM body (map (fun i => (a + Z.of_nat i)%Z) (seq 0 j)) init
            = Ok (map g (seq 0 j) ++ skipn j init)).
  { induction j as [|j IH]; intros Hj; [reflexivity|].
    rewrite seq_S, map_app, foldM_app, IH by lia.
    cbn [bind map foldM Nat.add].
    destruct (skipn_cons_nth j init ltac:(lia)) as [x Hx].
    rewrite Hbody; [|lia|].
    - rewrite Hx, map_app. cbn [map].
      pose proof (list_set_middle (map g (seq 0 j)) (skipn (S j) init) x (g j))
        as E.
      rewrite length_map, length_seq in E. rewrite E.
      now rewrite <- app_assoc.
    - rewrite length_app, length_map, length_seq, length_skipn. lia. }
  rewrite (Hpre n (Nat.le_refl n)), skipn_all2 by lia. now rewrite app_nil_r.
Qed.

End RangeLoops.

(** * The one-dimensional transforms in closed form *)

Section TransformsClosedForm.

Import Fourier.

Lemma py_cdiv_ok (z : C) (n : Z) :
  n <> 0%Z -> py_cdiv z n = Ok (Cdiv_real z (IZR n)).
Proof. intros H. unfold py_cdiv. apply Z.eqb_neq in H. now rewrite H. Qed.

Lemma py_cdiv_zero (z : C) : py_cdiv z 0 = Raise ZeroDivisionError.
Proof. reflexivity. Qed.

Lemma twiddle_arg_neg (k n len : Z) :
  len <> 0%Z ->
  exists a, twiddle_arg (Copp Ci) k n len = Ok a /\
            Cexp a = cis (- omega k n len).
Proof.
  intros H. unfold twiddle_arg. rewrite py_cdiv_ok by assumption.
  eexists. split; [reflexivity|].
  rewrite <- Cexp_imag. f_equal.
  assert (IZR len <> 0) by (now apply not_0_IZR).
  apply C_eq; unfold omega; simpl; field; assumption.
Qed.

Lemma twiddle_arg_pos (k n len : Z) :
  len <> 0%Z ->
  exists a, twiddle_arg Ci k n len = Ok a /\ Cexp a = cis (omega k n len).
Proof.
  intros H. unfold twiddle_arg. rewrite py_cdiv_ok by assumption.
  eexists. split; [reflexivity|].
  rewrite <- Cexp_imag. f_equal.
  assert (IZR len <> 0) by (now apply not_0_IZR).
  apply C_eq; unfold omega; simpl; field; assumption.
Qed.

Lemma np_zeros_int_ok (n : Z) :
  (0 <= n)%Z -> np_zeros_int n = Ok (repeat C0 (Z.to_nat n)).
Proof.
  intros H. unfold np_zeros_int.
  destruct (Z.ltb_spec n 0); [lia|reflexivity].
Qed.

Lemma np_zeros_int_negative (n : Z) :
  (n < 0)%Z -> np_zeros_int n = Raise ValueError.
Proof.
  intros H. unfold np_zeros_int.
  destruct (Z.ltb_spec n 0); [reflexivity|lia].
Qed.

(** The inner loop of [dft] on a non-empty signal. *)
Lemma dft_inner_loop (signal : list C) (k : Z) :
  signal <> [] ->
  foldM (dft_inner signal k) (py_range 0 (py_len signal)) C0
  = Ok (Csum (fun n => Cmul (nth n signal C0)
                            (cis (- omega k (Z.of_nat n) (py_len signal))))
             (length signal)).
Proof.
  intros Hne. unfold py_range, py_len.
  rewrite Z.sub_0_r, Nat2Z.id.
  apply foldM_accumulate. intros acc i Hi.
  unfold dft_inner. rewrite Z.add_0_l, Nat2Z.id.
  rewrite (list_get_nth C0) by assumption. cbn [bind].
  destruct (twiddle_arg_neg k (Z.of_nat i) (py_len signal)) as (a & Ea & Ha).
  { unfold py_len. destruct signal; [contradiction|simpl; lia]. }
  rewrite Ea. cbn [bind]. rewrite Ha. reflexivity.
Qed.

(** [dft] on a non-empty signal and a window [k_min <= k_max]. *)
Lemma dft_eq (signal : list C) (k_min k_max : Z) :
  signal <> [] -> (k_min <= k_max)%Z ->
  dft signal k_min k_max = Ok (map (dft_coeff signal) (py_range k_min k_max)).
Proof.
  intros Hne Hle. unfold dft.
  rewrite np_zeros_int_ok by lia. cbn [bind].
  unfold py_range. rewrite map_map.
  apply (foldM_fill _ (fun i => dft_coeff signal (k_min + Z.of_nat i))).
  - apply repeat_length.
  - intros arr i Hi Harr. unfold dft_outer.
    rewrite dft_inner_loop by assumption. cbn [bind].
    rewrite py_cdiv_ok.
    + cbn [bind]. f_equal. lia.
    + unfold py_len. destruct signal; [contradiction|simpl; lia].
Qed.

Lemma dft_length (signal spectrum : list C) (k_min k_max : Z) :
  signal <> [] -> (k_min <= k_max)%Z ->
  dft signal k_min k_max = Ok spectrum ->
  length spectrum = Z.to_nat (k_max - k_min).
Proof.
  intros Hne Hle H. rewrite dft_eq in H by assumption.
  injection H as <-. unfold py_range.
  now rewrite !length_map, length_seq.
Qed.

(** The inner loop of [idft], once the spectrum covers the window and
    [sig_len] is not zero. *)
Lemma idft_inner_loop (spectrum : list C) (sig_len k_min k_max n : Z) :
  sig_len <> 0%Z ->
  (Z.to_nat (k_max - k_min) <= length spectrum)%nat ->
  foldM (idft_inner spectrum sig_len k_min n) (py_range k_min k_max) C0
  = Ok (idft_sample spectrum sig_len k_min (Z.to_nat (k_max - k_min)) n).
Proof.
  intros Hnz Hcover. unfold py_range, idft_sample.
  apply foldM_accumulate. intros acc i Hi.
  unfold idft_inner.
  replace (Z.to_nat (k_min + Z.of_nat i - k_min)) with i by lia.
  rewrite (list_get_nth C0) by lia. cbn [bind].
  destruct (twiddle_arg_pos (k_min + Z.of_nat i) n sig_len Hnz) as (a & Ea & Ha).
  rewrite Ea. cbn [bind]. now rewrite Ha.
Qed.

(** [idft] for a spectrum that covers the window. *)
Lemma idft_eq (spectrum : list C) (sig_len k_min k_max : Z) :
  (0 <= sig_len)%Z ->
  (Z.to_nat (k_max - k_min) <= length spectrum)%nat ->
  idft spectrum sig_len k_min k_max
  = Ok (map (fun n => idft_sample spectrum sig_len k_min
                                  (Z.to_nat (k_max - k_min)) (Z.of_nat n))
            (seq 0 (Z.to_nat sig_len))).
Proof.
  intros Hlen Hcover. unfold idft.
  rewrite np_zeros_int_ok by lia. cbn [bind].
  unfold py_range at 1. rewrite Z.sub_0_r.
  apply (foldM_fill _
           (fun n => idft_sample spectrum sig_len k_min
                                 (Z.to_nat (k_max - k_min)) (Z.of_nat n))).
  - apply repeat_length.
  - intros arr i Hi Harr. unfold idft_outer. rewrite Z.add_0_l.
    rewrite idft_inner_loop by lia. cbn [bind]. now rewrite Nat2Z.id.
Qed.

(** An empty signal and a non-empty window: the first division fails. *)
Lemma dft_empty_signal (k_min k_max : Z) :
  (k_min < k_max)%Z -> dft [] k_min k_max = Raise ZeroDivisionError.
Proof.
  intros H. unfold dft. rewrite np_zeros_int_ok by lia. cbn [bind].
  rewrite py_range_cons by assumption. reflexivity.
Qed.

(** An empty window: nothing is computed. *)
Lemma dft_empty_window (signal : list C) (k : Z) : dft signal k k = Ok [].
Proof.
  unfold dft. rewrite Z.sub_diag. cbn [np_zeros_int Z.ltb Z.compare bind].
  rewrite py_range_empty by lia. reflexivity.
Qed.

(** A reversed window: the array of negative length is refused. *)
Lemma dft_reversed_window (signal : list C) (k_min k_max : Z) :
  (k_max < k_min)%Z -> dft signal k_min k_max = Raise ValueError.
Proof.
  intros H. unfold dft. now rewrite np_zeros_int_negative by lia.
Qed.

End TransformsClosedForm.

Section TransformErrorClaims.

Import Fourier.

(** C8 (as amended).  For every signal and every window with
    [k_max <= k_min]: when [k_max = k_min], [dft] returns an empty result
    and raises nothing; when [k_max < k_min], [dft] raises [ValueError], the
    array of negative length being refused. *)
Theorem dft_degenerate_window (signal : list C) (k_min k_max : Z) :
  (k_max <= k_min)%Z ->
  dft signal k_min k_max
  = if (k_max =? k_min)%Z then Ok [] else Raise ValueError.
Proof.
  intros H. destruct (Z.eqb_spec k_max k_min) as [->|Hne].
  - apply dft_empty_window.
  - apply dft_reversed_window. lia.
Qed.

Lemma dft_degenerate_window_witness :
  dft [C1; Ci] 3 3 = Ok [] /\ dft [C1; Ci] 3 2 = Raise ValueError.
Proof.
  split.
  - apply (dft_degenerate_window [C1; Ci] 3 3). lia.
  - apply (dft_degenerate_window [C1; Ci] 3 2). lia.
Defined.

(** C8, the claim as stated, fails for [k_max < k_min]: the call raises
    instead of returning an empty result. *)
Lemma dft_reversed_window_counterexample :
  dft [C1] 1 0 <> Ok [].
Proof. rewrite dft_reversed_window by lia. discriminate. Qed.

(** C10.  For the empty signal and every window with [k_max > k_min], [dft]
    fails with [ZeroDivisionError]; for a non-empty signal the division is
    defined at every frequency of the window, and [dft] returns the
    [k_max - k_min] coefficients. *)
Theorem dft_empty_signal_division (k_min k_max : Z) :
  (k_min < k_max)%Z ->
  dft [] k_min k_max = Raise ZeroDivisionError /\
  forall signal, signal <> [] ->
    dft signal k_min k_max = Ok (map (dft_coeff signal) (py_range k_min k_max)) /\
    length (map (dft_coeff signal) (py_range k_min k_max))
    = Z.to_nat (k_max - k_min).
Proof.
  intros H. split; [now apply dft_empty_signal|].
  intros signal Hne. split; [apply dft_eq; [assumption|lia]|].
  unfold py_range. now rewrite !length_map, length_seq.
Qed.

Lemma dft_empty_signal_division_witness :
  dft [] 0 1 = Raise ZeroDivisionError.
Proof. apply (dft_empty_signal_division 0 1). lia. Defined.

End TransformErrorClaims.

(** * Finite sums of complex numbers *)

Section Sums.

Lemma Csum_ext (f g : nat -> C) (n : nat) :
  (forall i, (i < n)%nat -> f i = g i) -> Csum f n = Csum g n.
Proof.
  induction n as [|n IH]; intros H; simpl; [reflexivity|].
  rewrite IH, H by auto. reflexivity.
Qed.

Lemma Csum_add (f g : nat -> C) (n : nat) :
  Csum (fun i => Cadd (f i) (g i)) n = Cadd (Csum f n) (Csum g n).
Proof.
  induction n as [|n IH]; simpl.
  - now rewrite Cadd_0_l.
  - rewrite IH. apply C_eq; simpl; ring.
Qed.

Lemma Csum_zero (n : nat) : Csum (fun _ => C0) n = C0.
Proof.
  induction n as [|n IH]; simpl; [reflexivity|].
  now rewrite IH, Cadd_0_l.
Qed.

Lemma Csum_mul_l (c : C) (f : nat -> C) (n : nat) :
  Cmul c (Csum f n) = Csum (fun i => Cmul c (f i)) n.
Proof.
  induction n as [|n IH]; simpl.
  - apply Cmul_0_r.
  - now rewrite Cmul_add_distr_l, IH.
Qed.

Lemma Csum_mul_r (c : C) (f : nat -> C) (n : nat) :
  Cmul (Csum f n) c = Csum (fun i => Cmul (f i) c) n.
Proof.
  rewrite Cmul_comm, Csum_mul_l. apply Csum_ext. intros. apply Cmul_comm.
Qed.

Lemma Csum_swap (f : nat -> nat -> C) (n m : nat) :
  Csum (fun i => Csum (fun j => f i j) m) n
  = Csum (fun j => Csum (fun i => f i j) n) m.
Proof.
  induction n as [|n IH]; simpl.
  - now rewrite Csum_zero.
  - now rewrite IH, Csum_add.
Qed.

Lemma Csum_single (f : nat -> C) (n m : nat) :
  (m < n)%nat -> (forall i, (i < n)%nat -> i <> m -> f i = C0) ->
  Csum f n = f m.
Proof.
  induction n as [|n IH]; intros Hm Hz; [lia|]. simpl.
  destruct (Nat.eq_dec m n) as [->|Hne].
  - rewrite (Csum_ext f (fun _ => C0)) by (intros; apply Hz; lia).
    now rewrite Csum_zero, Cadd_0_l.
  - rewrite IH by (try lia; intros; apply Hz; lia).
    rewrite (Hz n) by lia. apply Cadd_0_r.
Qed.

Lemma Csum_const_1 (n : nat) : Csum (fun _ => C1) n = RtoC (INR n).
Proof.
  induction n as [|n IH].
  - reflexivity.
  - cbn [Csum]. rewrite IH, S_INR. apply C_eq; simpl; ring.
Qed.

Lemma Cdiv_real_mul (z : C) (x : R) : Cdiv_real z x = Cmul z (RtoC (/ x)).
Proof. apply C_eq; simpl; unfold Rdiv; ring. Qed.

End Sums.

(** * The sum of the powers of a root of unity *)

Section RootsOfUnity.

(** The telescoping identities for the sums of [cos (i t)] and
    [sin (i t)]. *)
Lemma cis_sum_telescope (t : R) (K : nat) :
  2 * sin (t / 2) * Re (Csum (fun i => cis (INR i * t)) K)
  = sin ((INR K - 1 / 2) * t) + sin (t / 2) /\
  2 * sin (t / 2) * Im (Csum (fun i => cis (INR i * t)) K)
  = cos (t / 2) - cos ((INR K - 1 / 2) * t).
Proof.
  induction K as [|K [IHre IHim]].
  - simpl. replace ((0 - 1 / 2) * t) with (- (t / 2)) by field.
    rewrite sin_neg, cos_neg. split; ring.
  - cbn [Csum Cadd Re Im cis]. rewrite S_INR.
    replace ((INR K + 1 - 1 / 2) * t) with (INR K * t + t / 2) by field.
    replace ((INR K - 1 / 2) * t) with (INR K * t - t / 2) in * by field.
    rewrite sin_plus, cos_plus.
    rewrite sin_minus in IHre. rewrite cos_minus in IHim.
    split; nra.
Qed.

Lemma sin_shift_nat (x : R) (d : nat) : sin (2 * INR d * PI - x) = - sin x.
Proof.
  replace (2 * INR d * PI - x) with (- x + 2 * INR d * PI) by ring.
  now rewrite sin_period, sin_neg.
Qed.

Lemma cos_shift_nat (x : R) (d : nat) : cos (2 * INR d * PI - x) = cos x.
Proof.
  replace (2 * INR d * PI - x) with (- x + 2 * INR d * PI) by ring.
  now rewrite cos_period, cos_neg.
Qed.

(** The powers of [exp(2 pi i d / N)], for [0 < d < N], sum to zero. *)
Lemma root_of_unity_sum_pos (N d : nat) :
  (0 < d)%nat -> (d < N)%nat ->
  Csum (fun i => cis (INR i * (2 * PI * INR d / INR N))) N = C0.
Proof.
  intros Hd HN.
  set (t := 2 * PI * INR d / INR N).
  assert (HNpos : 0 < INR N) by (apply lt_0_INR; lia).
  assert (Hdpos : 0 < INR d) by (apply lt_0_INR; lia).
  assert (HdN : INR d < INR N) by (apply lt_INR; lia).
  pose proof PI_RGT_0 as Hpi.
  destruct (cis_sum_telescope t N) as [Hre Him].
  replace ((INR N - 1 / 2) * t) with (2 * INR d * PI - t / 2) in *
    by (unfold t; field; lra).
  rewrite sin_shift_nat in Hre. rewrite cos_shift_nat in Him.
  assert (Hs : 0 < sin (t / 2)).
  { apply sin_gt_0.
    - unfold t. apply Rdiv_lt_0_compat; [|lra].
      apply Rdiv_lt_0_compat; [nra|lra].
    - unfold t. apply (Rmult_lt_reg_r (INR N)); [lra|].
      replace (2 * PI * INR d / INR N / 2 * INR N) with (PI * INR d)
        by (field; lra).
      nra. }
  apply C_eq; simpl; nra.
Qed.

(** The same for the conjugate root. *)
Lemma root_of_unity_sum_neg (N d : nat) :
  (0 < d)%nat -> (d < N)%nat ->
  Csum (fun i => cis (INR i * (2 * PI * - INR d / INR N))) N = C0.
Proof.
  intros Hd HN.
  pose proof (root_of_unity_sum_pos N d Hd HN) as H.
  assert (E : forall K,
            Csum (fun i => cis (INR i * (2 * PI * - INR d / INR N))) K
            = Cconj (Csum (fun i => cis (INR i * (2 * PI * INR d / INR N))) K)).
  { induction K as [|K IH]; cbn [Csum].
    - now rewrite Cconj_0.
    - rewrite IH, Cconj_add, cis_conj. do 2 f_equal.
      assert (INR N <> 0) by (apply not_0_INR; lia). field. assumption. }
  rewrite E, H. apply Cconj_0.
Qed.

(** The orthogonality of the characters of [Z/N]. *)
Lemma character_sum (N m n : nat) :
  (m < N)%nat -> (n < N)%nat ->
  Csum (fun i => cis (INR i * (2 * PI * (INR m - INR n) / INR N))) N
  = if Nat.eqb m n then RtoC (INR N) else C0.
Proof.
  intros Hm Hn. destruct (Nat.eqb_spec m n) as [->|Hne].
  - rewrite <- Csum_const_1. apply Csum_ext. intros i _.
    rewrite <- cis_0. f_equal.
    assert (INR N <> 0) by (apply not_0_INR; lia). field. assumption.
  - destruct (Nat.lt_ge_cases n m) as [Hlt|Hge].
    + rewrite <- (root_of_unity_sum_pos N (m - n)) by lia.
      apply Csum_ext. intros i _. now rewrite minus_INR by lia.
    + rewrite <- (root_of_unity_sum_neg N (n - m)) by lia.
      apply Csum_ext. intros i _. rewrite minus_INR by lia.
      do 2 f_equal. assert (INR N <> 0) by (apply not_0_INR; lia).
      field. assumption.
Qed.

End RootsOfUnity.

(** * The full-band round trip *)

Section RoundTrip.

Import Fourier.


Lemma nth_dft_coeffs (signal : list C) (k_min k_max : Z) (i : nat) :
  (i < Z.to_nat (k_max - k_min))%nat ->
  nth i (map (dft_coeff signal) (py_range k_min k_max)) C0
  = dft_coeff signal (k_min + Z.of_nat i).
Proof.
  intros Hi. unfold py_range. rewrite map_map.
  now rewrite nth_map_seq by assumption.
Qed.

(** One term of the double sum of the round trip. *)
Lemma round_trip_term (signal : list C) (i m : nat) :
  signal <> [] ->
  Cmul (dft_coeff signal (0 + Z.of_nat i))
       (cis (omega (0 + Z.of_nat i) (Z.of_nat m) (py_len signal)))
  = Csum (fun n =>
            Cmul (Cmul (nth n signal C0) (RtoC (/ INR (length signal))))
                 (cis (INR i * (2 * PI * (INR m - INR n)
                                / INR (length signal)))))
         (length signal).
Proof.
  intros Hne.
  assert (HN : INR (length signal) <> 0).
  { apply not_0_INR. destruct signal; [contradiction|simpl; lia]. }
  unfold dft_coeff, py_len. rewrite Cdiv_real_mul, !Csum_mul_r.
  apply Csum_ext. intros n _.
  rewrite <- !INR_IZR_INZ, Z.add_0_l.
  rewrite <- !Cmul_assoc. f_equal.
  rewrite (Cmul_comm (cis _)), <- Cmul_assoc. f_equal.
  rewrite <- cis_add. f_equal.
  unfold omega. rewrite <- !INR_IZR_INZ. field. assumption.
Qed.

Lemma round_trip_sample (signal : list C) (m : nat) :
  (m < length signal)%nat ->
  idft_sample (map (dft_coeff signal) (py_range 0 (py_len signal)))
              (py_len signal) 0 (length signal) (Z.of_nat m)
  = nth m signal C0.
Proof.
  intros Hm.
  assert (Hne : signal <> []) by (destruct signal; [simpl in Hm; lia|discriminate]).
  assert (HN : INR (length signal) <> 0) by (apply not_0_INR; lia).
  unfold idft_sample.
  rewrite (Csum_ext _
             (fun i => Csum (fun n =>
                 Cmul (Cmul (nth n signal C0) (RtoC (/ INR (length signal))))
                      (cis (INR i * (2 * PI * (INR m - INR n)
                                     / INR (length signal)))))
               (length signal))).
  2:{ intros i Hi. rewrite nth_dft_coeffs by (unfold py_len; lia).
      now apply round_trip_term. }
  rewrite Csum_swap.
  rewrite (Csum_ext _
             (fun n => Cmul (Cmul (nth n signal C0) (RtoC (/ INR (length signal))))
                            (if Nat.eqb m n then RtoC (INR (length signal))
                             else C0))).
  2:{ intros n Hn. rewrite <- Csum_mul_l. f_equal.
      now apply character_sum. }
  rewrite (Csum_single _ _ m Hm).
  - rewrite Nat.eqb_refl. apply C_eq; simpl; field; assumption.
  - intros n Hn Hnm. apply Nat.neq_sym, Nat.eqb_neq in Hnm. rewrite Hnm.
    apply Cmul_0_r.
Qed.

Lemma dft_idft_full_band (signal : list C) :
  signal <> [] ->
  idft (map (dft_coeff signal) (py_range 0 (py_len signal)))
       (py_len signal) 0 (py_len signal)
  = Ok signal.
Proof.
  intros Hne. unfold py_len at 2 3.
  rewrite idft_eq.
  - f_equal. rewrite Z.sub_0_r, !Nat2Z.id.
    apply (nth_ext _ _ C0 C0).
    + now rewrite length_map, length_seq.
    + intros m Hm. rewrite length_map, length_seq in Hm.
      rewrite nth_map_seq by assumption.
      now apply round_trip_sample.
  - lia.
  - unfold py_range, py_len. rewrite !length_map, length_seq. lia.
Qed.

End RoundTrip.

(** * The two-dimensional transforms *)

Section TwoDimensional.

Import Fourier.

Lemma mapM_map {A B D : Type} (f : B -> result D) (g : A -> B) (l : list A) :
  mapM f (map g l) = mapM (fun a => f (g a)) l.
Proof.
  induction l as [|a l IH]; simpl; [reflexivity|]. now rewrite IH.
Qed.

Lemma list_as_map_seq {A : Type} (d : A) (l : list A) :
  map (fun c => nth c l d) (seq 0 (length l)) = l.
Proof.
  induction l as [|x l IH]; [reflexivity|].
  cbn [length seq map nth]. f_equal.
  rewrite <- seq_shift, map_map. exact IH.
Qed.

Lemma combine_map_same {A B D : Type} (f : A -> B) (g : A -> D) (l : list A) :
  combine (map f l) (map g l) = map (fun a => (f a, g a)) l.
Proof.
  induction l as [|a l IH]; simpl; [reflexivity|]. now rewrite IH.
Qed.

(** The two ways of exchanging the axes agree on a grid with at least one
    row and rows of one length. *)
Lemma np_transpose_swap_axes {A : Type} (d : A) (n : nat) (grid : list (list A)) :
  grid <> [] -> Forall (fun row => length row = n) grid ->
  np_transpose d grid = swap_axes grid.
Proof.
  induction grid as [|row rest IH]; intros Hne Hall; [contradiction|].
  inversion Hall as [|? ? Hrow Hrest]; subst.
  unfold np_transpose. cbn [hd].
  destruct rest as [|row' rest'].
  - cbn [swap_axes].
    transitivity (map (fun x => [x])
                      (map (fun c => nth c row d) (seq 0 (length row)))).
    + rewrite map_map. reflexivity.
    + now rewrite list_as_map_seq.
  - change (swap_axes (row :: row' :: rest'))
      with (map (fun p => fst p :: snd p) (combine row (swap_axes (row' :: rest')))).
    rewrite <- IH by (discriminate || assumption).
    unfold np_transpose. cbn [hd].
    inversion Hrest as [|? ? Hrow' _]; subst. rewrite Hrow'.
    transitivity
      (map (fun p => fst p :: snd p)
           (combine (map (fun c => nth c row d) (seq 0 (length row)))
                    (map (fun c => map (fun r => nth c r d) (row' :: rest'))
                         (seq 0 (length row))))).
    + rewrite combine_map_same, map_map. reflexivity.
    + now rewrite list_as_map_seq.
Qed.

Lemma columns_of_eq {A : Type} (d : A) (n : nat) (grid : list (list A)) :
  grid <> [] -> Forall (fun row => length row = n) grid ->
  columns_of d grid = map (fun c => map (fun r => nth c r d) grid) (seq 0 n).
Proof.
  intros Hne Hall. destruct grid as [|row rest]; [contradiction|].
  inversion Hall; subst. reflexivity.
Qed.

Lemma shape1_eq {A : Type} (n : nat) (grid : list (list A)) :
  grid <> [] -> Forall (fun row => length row = n) grid ->
  shape1 grid = Ok n.
Proof.
  intros Hne Hall. destruct grid as [|row rest]; [contradiction|].
  inversion Hall; subst. reflexivity.
Qed.

Lemma column_eq {A : Type} (d : A) (n : nat) (grid : list (list A)) (col : nat) :
  Forall (fun row => length row = n) grid -> (col < n)%nat ->
  column grid col = Ok (map (fun r => nth col r d) grid).
Proof.
  intros Hall Hcol. unfold column. apply mapM_ok_all.
  intros row Hin. rewrite Forall_forall in Hall.
  apply list_get_nth. rewrite (Hall row Hin). exact Hcol.
Qed.

(** Transforming every column, as the code and as the specification do
    it. *)
Lemma by_columns_eq (f : list C -> result (list C)) (n : nat)
  (grid : list (list C)) :
  grid <> [] -> Forall (fun row => length row = n) grid ->
  mapM (fun col => c <- column grid col ;; f c) (seq 0 n)
  = mapM f (columns_of C0 grid).
Proof.
  intros Hne Hall. rewrite (columns_of_eq C0 n) by assumption.
  rewrite mapM_map. apply mapM_ext. intros col Hin.
  apply in_seq in Hin. rewrite (column_eq C0 n) by (assumption || lia).
  reflexivity.
Qed.

Lemma by_rows_eq {A B : Type} (f : list A -> result B) (grid : list (list A)) :
  mapM (fun row => r <- list_get row grid ;; f r) (seq 0 (length grid))
  = mapM f grid.
Proof.
  transitivity (mapM f (map (fun i => nth i grid []) (seq 0 (length grid)))).
  - rewrite mapM_map. apply mapM_ext. intros i Hin. apply in_seq in Hin.
    rewrite (list_get_nth []) by lia. reflexivity.
  - now rewrite list_as_map_seq.
Qed.

Lemma list_set_length {A : Type} (i : nat) (v : A) (l l' : list A) :
  list_set i v l = Ok l' -> length l' = length l.
Proof.
  intros H. destruct (Nat.lt_ge_cases i (length l)) as [Hlt|Hge].
  - destruct (list_set_ok i v l Hlt) as (l'' & E & Hlen & _).
    rewrite E in H. now injection H as <-.
  - rewrite list_set_out in H by assumption. discriminate.
Qed.

Lemma foldM_length {A : Type} (body : list C -> A -> result (list C))
  (l : list A) :
  (forall arr a arr', body arr a = Ok arr' -> length arr' = length arr) ->
  forall init out, foldM body l init = Ok out -> length out = length init.
Proof.
  intros Hbody. induction l as [|a l IH]; intros init out H; simpl in H.
  - now injection H as <-.
  - destruct (body init a) as [arr'|e] eqn:E; simpl in H; [|discriminate].
    rewrite (IH _ _ H). now apply (Hbody init a).
Qed.

Lemma idft_length (spectrum out : list C) (sig_len k_min k_max : Z) :
  idft spectrum sig_len k_min k_max = Ok out -> length out = Z.to_nat sig_len.
Proof.
  unfold idft, np_zeros_int. destruct (sig_len <? 0)%Z; [discriminate|].
  cbn [bind]. intros H. apply foldM_length in H.
  - rewrite H. apply repeat_length.
  - intros arr n arr' Hb. unfold idft_outer in Hb.
    destruct (foldM (idft_inner spectrum sig_len k_min n)
                    (py_range k_min k_max) C0) as [s|e];
      cbn [bind] in Hb; [|discriminate].
    now apply list_set_length in Hb.
Qed.

Lemma mapM_Forall {A B : Type} (f : A -> result B) (P : B -> Prop)
  (l : list A) (bs : list B) :
  (forall a b, f a = Ok b -> P b) -> mapM f l = Ok bs -> Forall P bs.
Proof.
  intros HP H. apply mapM_ok_inv in H.
  induction H as [|a b l bs Hab _ IH]; constructor; eauto.
Qed.

Lemma mapM_length {A B : Type} (f : A -> result B) (l : list A) (bs : list B) :
  mapM f l = Ok bs -> length bs = length l.
Proof. intros H. apply mapM_ok_inv in H. symmetry. eapply Forall2_length, H. Qed.

End TwoDimensional.

Section TwoDimensionalClaim.

Import Fourier.

Lemma dft_length_any (signal out : list C) (k_min k_max : Z) :
  dft signal k_min k_max = Ok out -> length out = Z.to_nat (k_max - k_min).
Proof.
  unfold dft, np_zeros_int. destruct (k_max - k_min <? 0)%Z; [discriminate|].
  cbn [bind]. intros H. apply foldM_length in H.
  - rewrite H. apply repeat_length.
  - intros arr k arr' Hb. unfold dft_outer in Hb.
    destruct (foldM (dft_inner signal k) (py_range 0 (py_len signal)) C0)
      as [s|e]; cbn [bind] in Hb; [|discriminate].
    destruct (py_cdiv s (py_len signal)) as [v|e]; cbn [bind] in Hb;
      [|discriminate].
    now apply list_set_length in Hb.
Qed.

Lemma np_transpose_shape {A : Type} (d : A) (grid : list (list A)) :
  mat_shape (length (hd [] grid)) (length grid) (np_transpose d grid).
Proof.
  unfold mat_shape, np_transpose. split.
  - now rewrite length_map, length_seq.
  - apply Forall_forall. intros row Hin.
    apply in_map_iff in Hin as (c & <- & _). apply length_map.
Qed.

(** The rows of a rectangular grid with non-empty rows are all
    transformed. *)
Lemma dft_every_row (grid : list (list C)) (n : nat) (k_min k_max : Z) :
  (0 < n)%nat -> Forall (fun row => length row = n) grid -> (k_min <= k_max)%Z ->
  mapM (fun row => dft row k_min k_max) grid
  = Ok (map (fun row => map (dft_coeff row) (py_range k_min k_max)) grid).
Proof.
  intros Hn Hall Hle. apply mapM_ok_all. intros row Hin.
  rewrite Forall_forall in Hall. specialize (Hall row Hin).
  apply dft_eq; [|assumption]. destruct row; [simpl in Hall; lia|discriminate].
Qed.

(** C9.  For every non-empty rectangular grid of complex samples and every
    window [k_min < k_max], [dft2] returns what the separable transform
    returns: the one-dimensional [dft] of every row, then the
    one-dimensional [dft] of every column of that intermediate result,
    with the two axes of the outcome exchanged back; the result has one
    row and one column per frequency of the window.  [idft2] is the mirror
    order: on every non-empty rectangular spectrum it returns (or raises)
    what the one-dimensional [idft] of every column, then of every row of
    the intermediate result, returns (or raises). *)
Theorem dft2_is_separable (signal_2d : list (list C)) (ncols : nat)
  (k_min k_max : Z) :
  signal_2d <> [] -> (0 < ncols)%nat ->
  Forall (fun row => length row = ncols) signal_2d ->
  (k_min < k_max)%Z ->
  (exists out,
     dft2 signal_2d k_min k_max = Ok out /\
     dft2_separable signal_2d k_min k_max = Ok out /\
     mat_shape (Z.to_nat (k_max - k_min)) (Z.to_nat (k_max - k_min)) out) /\
  (forall (spectrum_2d : list (list C)) (width : nat) (original_shape : Z * Z)
          (a b : Z),
     spectrum_2d <> [] -> Forall (fun row => length row = width) spectrum_2d ->
     idft2 spectrum_2d original_shape a b
     = idft2_separable spectrum_2d original_shape a b).
Proof.
  intros Hne Hcols Hall Hwin. split.
  - set (K := Z.to_nat (k_max - k_min)).
    set (dft_rows := map (fun row => map (dft_coeff row) (py_range k_min k_max))
                         signal_2d).
    assert (Hrows : mapM (fun row => dft row k_min k_max) signal_2d = Ok dft_rows)
      by (apply (dft_every_row _ ncols); (assumption || lia)).
    assert (Hne' : dft_rows <> [])
      by (unfold dft_rows; destruct signal_2d; [contradiction|discriminate]).
    assert (Hall' : Forall (fun row => length row = K) dft_rows).
    { apply Forall_forall. intros row Hin.
      apply in_map_iff in Hin as (r & <- & _).
      unfold py_range. now rewrite !length_map, length_seq. }
    set (cols_in := columns_of C0 dft_rows).
    assert (Hcin : cols_in
                   = map (fun c => map (fun r => nth c r C0) dft_rows) (seq 0 K))
      by (apply columns_of_eq; assumption).
    assert (Hcols_ok : mapM (fun col => dft col k_min k_max) cols_in
                       = Ok (map (fun col => map (dft_coeff col)
                                                 (py_range k_min k_max))
                                 cols_in)).
    { apply (dft_every_row _ (length dft_rows)); [| |lia].
      - destruct dft_rows; [contradiction|simpl; lia].
      - rewrite Hcin. apply Forall_forall. intros col Hin.
        apply in_map_iff in Hin as (c & <- & _). apply length_map. }
    set (cols := map (fun col => map (dft_coeff col) (py_range k_min k_max))
                     cols_in) in *.
    assert (Hcne : cols <> []).
    { unfold cols. rewrite Hcin.
      assert (0 < K)%nat by (unfold K; lia).
      destruct K; [lia|discriminate]. }
    assert (Hcall : Forall (fun row => length row = K) cols).
    { apply Forall_forall. intros row Hin.
      apply in_map_iff in Hin as (r & <- & _).
      unfold py_range. now rewrite !length_map, length_seq. }
    exists (swap_axes cols). split; [|split].
    + unfold dft2. rewrite Hrows. cbn [bind].
      rewrite (shape1_eq K) by assumption. cbn [bind].
      rewrite (by_columns_eq (fun c => dft c k_min k_max) K) by assumption.
      fold cols_in. rewrite Hcols_ok. cbn [bind].
      now rewrite (np_transpose_swap_axes C0 K) by assumption.
    + unfold dft2_separable. rewrite Hrows. cbn [bind].
      fold cols_in. now rewrite Hcols_ok.
    + rewrite <- (np_transpose_swap_axes C0 K) by assumption.
      pose proof (np_transpose_shape C0 cols) as Hs.
      replace (length (hd [] cols)) with K in Hs.
      2:{ destruct cols as [|c0 cs]; [contradiction|].
          inversion Hcall; subst. simpl. congruence. }
      replace (length cols) with K in Hs; [exact Hs|].
      unfold cols. rewrite length_map, Hcin, length_map, length_seq.
      reflexivity.
  - intros spectrum_2d width original_shape a b Hsne Hsall.
    unfold idft2, idft2_separable.
    rewrite (shape1_eq width) by assumption. cbn [bind].
    rewrite (by_columns_eq (fun c => idft c (fst original_shape) a b) width)
      by assumption.
    destruct (mapM (fun col => idft col (fst original_shape) a b)
                   (columns_of C0 spectrum_2d)) as [cols|e] eqn:Ecols;
      [|reflexivity].
    cbn [bind].
    assert (Hswap : np_transpose C0 cols = swap_axes cols).
    { destruct cols as [|c0 cs] eqn:Ec; [reflexivity|].
      apply (np_transpose_swap_axes C0 (Z.to_nat (fst original_shape)));
        [discriminate|].
      apply (mapM_Forall _ _ _ _ (fun col out => idft_length col out _ a b) Ecols). }
    rewrite Hswap. apply by_rows_eq.
Qed.

Lemma dft2_is_separable_witness :
  exists out,
    dft2 [[C1; C0]; [Ci; C1]] 0 2 = Ok out /\
    dft2_separable [[C1; C0]; [Ci; C1]] 0 2 = Ok out.
Proof.
  destruct (dft2_is_separable [[C1; C0]; [Ci; C1]] 2 0 2)
    as [(out & H1 & H2 & _) _].
  - discriminate.
  - lia.
  - repeat constructor.
  - lia.
  - exists out. split; [exact H1|exact H2].
Defined.

End TwoDimensionalClaim.

(** * The plane-wave function *)

Section PlaneWave.

Import Wavefunctions.

Lemma dict_get_single (k : list Z) (c : C) : dict_get [(k, c)] k = Ok c.
Proof.
  unfold dict_get. cbn [find fst snd].
  now destruct (list_eq_dec Z.eq_dec k k).
Qed.

Lemma phase_at_zero (c : C) :
  Cadd C0 (Cmul c (Cexp (Cmul (Cmul (RtoC PI) Ci) (RtoC 0)))) = c.
Proof.
  replace (Cmul (Cmul (RtoC PI) Ci) (RtoC 0)) with C0
    by (apply C_eq; simpl; ring).
  now rewrite Cexp_0, Cmul_1_r, Cadd_0_l.
Qed.

Lemma flat_map_singleton {A B : Type} (f : A -> B) (l : list A) :
  flat_map (fun a => [f a]) l = map f l.
Proof. induction l as [|a l IH]; simpl; [reflexivity|now rewrite IH]. Qed.

Lemma map_const_repeat {A B : Type} (b : B) (l : list A) :
  map (fun _ => b) l = repeat b (length l).
Proof. induction l as [|a l IH]; simpl; [reflexivity|now rewrite IH]. Qed.

Lemma nth_repeat_any {A : Type} (a : A) (n i : nat) : nth i (repeat a n) a = a.
Proof.
  revert i. induction n as [|n IH]; intros [|i]; simpl; auto.
Qed.

(** The contraction of a grid of zero points with the wave vector (1, 0). *)
Lemma np_tensordot_zero_grid (n1 n2 : nat) :
  np_tensordot (mk_nd [n1; n2; 2%nat] (repeat 0 (n1 * n2 * 2))) [1%Z; 0%Z] 2
  = Ok (mk_nd [n1; n2] (repeat 0 (n1 * n2))).
Proof.
  unfold np_tensordot. cbn [shape data nth_error length Nat.eqb firstn skipn app].
  f_equal. f_equal. cbn [size_of fold_right seq map fold_left nth].
  rewrite flat_map_singleton.
  rewrite (map_ext _ (fun _ => 0))
    by (intros; rewrite !nth_repeat_any; simpl; ring).
  rewrite map_const_repeat, length_seq. f_equal. lia.
Qed.

Lemma space_function_zero_grid (c : C) (n1 n2 : nat) :
  space_function [([1%Z; 0%Z], c)] 2
                 (mk_nd [n1; n2; 2%nat] (repeat 0 (n1 * n2 * 2)))
  = Ok (mk_nd [n1; n2] (repeat c (n1 * n2))).
Proof.
  unfold space_function. cbn [map fst mapM]. unfold plane_wave_term.
  rewrite dict_get_single. cbn [bind].
  rewrite np_tensordot_zero_grid. cbn [bind foldM].
  unfold np_add, py_zero, nd_map. cbn [shape data bind].
  f_equal. f_equal. rewrite !map_repeat. now rewrite phase_at_zero.
Qed.

Lemma space_function_bare_vector (c : C) :
  space_function [([1%Z; 0%Z], c)] 2 (mk_nd [2%nat] [0; 0]) = Raise IndexError.
Proof.
  unfold space_function. cbn [map fst mapM]. unfold plane_wave_term.
  rewrite dict_get_single. reflexivity.
Qed.

(** C6.  For every complex [c], [plane_wave({(1,0): c})] returns a
    function.  Evaluated at the point [(0,0)] given as a vector, an array of
    shape [(2,)], that function does not return [c]: it raises [IndexError],
    because the contraction asks for the third axis of its argument.  The
    value [c] comes back only when the point is wrapped in a two-dimensional
    grid: on a 1 by 1 grid that holds [(0,0)] (shape [(1,1,2)]) the result
    is the 1 by 1 array that holds exactly [c], and on an [n1] by [n2] grid
    of points [(0,0)] it is the [n1] by [n2] array filled with [c]. *)
Theorem plane_wave_at_origin (c : C) :
  exists f,
    plane_wave [([1%Z; 0%Z], c)] = Ok f /\
    f (mk_nd [2%nat] [0; 0]) = Raise IndexError /\
    f (mk_nd [1; 1; 2]%nat [0; 0]) = Ok (mk_nd [1; 1]%nat [c]) /\
    forall n1 n2,
      f (mk_nd [n1; n2; 2%nat] (repeat 0 (n1 * n2 * 2)))
      = Ok (mk_nd [n1; n2] (repeat c (n1 * n2))).
Proof.
  exists (space_function [([1%Z; 0%Z], c)] 2).
  split; [reflexivity|]. split; [apply space_function_bare_vector|]. split.
  - exact (space_function_zero_grid c 1 1).
  - apply space_function_zero_grid.
Qed.

End PlaneWave.

(** * Normalising a sampled field *)

Section Renorm.

Import Wavefunctions.

Lemma Cnorm2_nonneg (z : C) : 0 <= Cnorm2 z.
Proof. unfold Cnorm2. nra. Qed.

Lemma Cnorm2_zero_iff (z : C) : Cnorm2 z = 0 <-> z = C0.
Proof.
  split.
  - intros H. unfold Cnorm2 in H. apply C_eq; simpl; nra.
  - intros ->. unfold Cnorm2. simpl. ring.
Qed.

Lemma norm2_fold_ge (v : list C) (a : R) :
  a <= fold_left (fun acc z => acc + Cnorm2 z) v a.
Proof.
  revert a. induction v as [|z v IH]; intros a; simpl; [lra|].
  pose proof (Cnorm2_nonneg z). specialize (IH (a + Cnorm2 z)). lra.
Qed.

Lemma norm2_fold_pos (v : list C) (a : R) (z : C) :
  0 <= a -> In z v -> z <> C0 ->
  0 < fold_left (fun acc z => acc + Cnorm2 z) v a.
Proof.
  revert a. induction v as [|y v IH]; intros a Ha Hin Hz; [contradiction|].
  simpl. pose proof (Cnorm2_nonneg y) as Hy. destruct Hin as [->|Hin].
  - assert (Cnorm2 z <> 0) by (rewrite Cnorm2_zero_iff; exact Hz).
    pose proof (norm2_fold_ge v (a + Cnorm2 z)). lra.
  - apply IH; [lra|assumption|assumption].
Qed.

Lemma norm2_fold_zero (v : list C) :
  Forall (eq C0) v -> fold_left (fun acc z => acc + Cnorm2 z) v 0 = 0.
Proof.
  induction 1 as [|z v <- _ IH]; simpl; [reflexivity|].
  replace (0 + Cnorm2 C0) with 0 by (unfold Cnorm2; simpl; ring). exact IH.
Qed.

Lemma norm2_fold_scaled (v : list C) (x a : R) :
  x <> 0 ->
  fold_left (fun acc z => acc + Cnorm2 z) (map (fun z => Cdiv_real z x) v)
            (a / (x * x))
  = fold_left (fun acc z => acc + Cnorm2 z) v a / (x * x).
Proof.
  intros Hx. revert a. induction v as [|z v IH]; intros a; simpl; [reflexivity|].
  rewrite <- IH. f_equal. unfold Cnorm2, Cdiv_real. simpl. field. exact Hx.
Qed.

Lemma np_cdiv_finite (z : C) (y : R) :
  y <> 0 -> np_cdiv z y = Finite (Cdiv_real z y).
Proof. intros H. unfold np_cdiv. now destruct (Req_dec_T y 0). Qed.

Lemma np_cdiv_zero (z : C) : np_cdiv z 0 = NonFinite.
Proof. unfold np_cdiv. destruct (Req_dec_T 0 0); [reflexivity|contradiction]. Qed.

(** C7 (as amended).  For every field with a non-zero entry,
    [plane_wave_renorm] returns an array of the same shape whose entries
    are the entries of the field divided by its flattened L2 norm, all
    finite, and whose flattened L2 norm is 1.  For an all-zero field
    nothing is raised: the division is by zero, and the function returns
    an array of the same shape in which every entry is a non-finite value
    ([nan]); an all-zero field without entries comes back as it went
    in. *)
Theorem plane_wave_renorm_unit (field : ndarray C) :
  ((exists z, In z (data field) /\ z <> C0) ->
   exists out,
     plane_wave_renorm field = mk_nd (shape field) (map Finite out) /\
     out = map (fun z => Cdiv_real z (np_linalg_norm_c (data field))) (data field) /\
     length out = length (data field) /\
     np_linalg_norm_c out = 1) /\
  (Forall (eq C0) (data field) ->
   plane_wave_renorm field
   = mk_nd (shape field) (repeat NonFinite (length (data field)))).
Proof.
  split.
  - intros (z & Hin & Hz).
    set (total := fold_left (fun acc z => acc + Cnorm2 z) (data field) 0).
    assert (HS : 0 < total) by (apply (norm2_fold_pos _ 0 z); [lra|assumption..]).
    assert (Hn : np_linalg_norm_c (data field) <> 0).
    { unfold np_linalg_norm_c. fold total.
      pose proof (sqrt_lt_R0 total HS). lra. }
    exists (map (fun z => Cdiv_real z (np_linalg_norm_c (data field))) (data field)).
    split; [|split; [reflexivity|split; [apply length_map|]]].
    + unfold plane_wave_renorm. f_equal. rewrite map_map.
      apply map_ext. intros y. now apply np_cdiv_finite.
    + unfold np_linalg_norm_c at 1.
      replace 0 with (0 / (np_linalg_norm_c (data field)
                           * np_linalg_norm_c (data field))) at 1
        by (field; exact Hn).
      rewrite norm2_fold_scaled by exact Hn. fold total.
      unfold np_linalg_norm_c. fold total.
      rewrite sqrt_sqrt by lra.
      replace (total / total) with 1 by (field; lra). apply sqrt_1.
  - intros Hz. unfold plane_wave_renorm. f_equal.
    unfold np_linalg_norm_c. rewrite norm2_fold_zero by assumption.
    rewrite sqrt_0.
    rewrite (map_ext _ (fun _ => NonFinite)) by (intros; apply np_cdiv_zero).
    apply map_const_repeat.
Qed.

Lemma plane_wave_renorm_unit_witness :
  (exists out,
     plane_wave_renorm (mk_nd [2%nat] [C1; C0]) = mk_nd [2%nat] (map Finite out) /\
     np_linalg_norm_c out = 1) /\
  plane_wave_renorm (mk_nd [2%nat] [C0; C0])
  = mk_nd [2%nat] [NonFinite; NonFinite].
Proof.
  split.
  - destruct (proj1 (plane_wave_renorm_unit (mk_nd [2%nat] [C1; C0])))
      as (out & H1 & _ & _ & H2).
    + exists C1. split; [now left|]. unfold C1, C0. intros E.
      injection E as E. lra.
    + exists out. split; [exact H1|exact H2].
  - apply (proj2 (plane_wave_renorm_unit (mk_nd [2%nat] [C0; C0]))).
    repeat constructor.
Defined.

(** C7, the claim as stated, fails on an all-zero field: the call returns
    an array and raises nothing.  For the all-zero field without entries
    (shape [(0,)]) the returned array does not even hold a non-finite
    value that would show the division by zero: it is the empty array. *)
Lemma plane_wave_renorm_zero_counterexample :
  Forall (eq C0) (data (mk_nd [0%nat] ([] : list C))) /\
  plane_wave_renorm (mk_nd [0%nat] []) = mk_nd [0%nat] [] /\
  ~ In NonFinite (data (plane_wave_renorm (mk_nd [0%nat] []))).
Proof.
  split; [constructor|]. split; [reflexivity|]. intros [].
Qed.

End Renorm.

(** * Further properties of the Hamiltonian assembly *)

Section HamiltonianExtras.

Import Operators.

Lemma nth_map_default {A B : Type} (g : A -> B) (l : list A) (d : A) (d' : B)
  (i : nat) :
  (i < length l)%nat -> nth i (map g l) d' = g (nth i l d).
Proof.
  intros H. rewrite (nth_indep _ d' (g d)) by (now rewrite length_map).
  apply map_nth.
Qed.

Lemma mat_shape_row {A : Type} (n m : nat) (mat : list (list A)) (i : nat) :
  mat_shape n m mat -> (i < n)%nat -> length (nth i mat []) = m.
Proof.
  intros [Hn Hrows] Hi. rewrite Forall_forall in Hrows.
  apply Hrows, nth_In. lia.
Qed.

Lemma mat_add_shape (n : nat) (T : list (list (ieee R)))
  (V : list (list (ieee C))) :
  mat_shape n n T -> mat_shape n n V -> mat_shape n n (mat_add T V).
Proof.
  intros HT HV. pose proof HT as [HTn HTr]. pose proof HV as [HVn HVr].
  unfold mat_add. split.
  - rewrite length_map, length_combine. lia.
  - apply Forall_forall. intros row Hin.
    apply in_map_iff in Hin as ([rt rv] & <- & Hin).
    rewrite length_map, length_combine. simpl.
    rewrite Forall_forall in HTr, HVr.
    rewrite (HTr rt), (HVr rv);
      [lia|eapply in_combine_r; eassumption|eapply in_combine_l; eassumption].
Qed.

Lemma mat_add_get (n : nat) (T : list (list (ieee R)))
  (V : list (list (ieee C))) (i j : nat) (t : ieee R) (v : ieee C) :
  mat_shape n n T -> mat_shape n n V -> (i < n)%nat -> (j < n)%nat ->
  mat_get T i j = Ok t -> mat_get V i j = Ok v ->
  mat_get (mat_add T V) i j
  = Ok (ieee_map2 (fun x z => Cadd (RtoC x) z) t v).
Proof.
  intros HT HV Hi Hj Ht Hv.
  rewrite (mat_get_nth (Finite 0) n n T i j HT Hi Hj) in Ht.
  rewrite (mat_get_nth (Finite C0) n n V i j HV Hi Hj) in Hv.
  injection Ht as <-. injection Hv as <-.
  rewrite (mat_get_nth (Finite C0) n n _ i j (mat_add_shape n T V HT HV) Hi Hj).
  f_equal. unfold mat_add.
  pose proof HT as [HTn _]. pose proof HV as [HVn _].
  rewrite (nth_map_default _ _ ([], [])) by (rewrite length_combine; lia).
  rewrite combine_nth by lia. cbn [fst snd].
  pose proof (mat_shape_row n n T i HT Hi) as Ht.
  pose proof (mat_shape_row n n V i HV Hi) as Hv.
  rewrite (nth_map_default _ _ (Finite 0, Finite C0))
    by (rewrite length_combine; lia).
  rewrite combine_nth by lia. reflexivity.
Qed.

Lemma elec_nuc_diagonal_zero (k_points : list kpoint) (cell_area : R)
  (r_pos : list position) (V : list (list (ieee C))) (i : nat) :
  elec_nuc_potential k_points cell_area r_pos = Ok V ->
  (i < length k_points)%nat -> mat_get V i i = Ok (Finite C0).
Proof.
  intros HV Hi.
  destruct (elec_nuc_potential_entries _ _ _ _ HV) as [_ Hent].
  destruct (Hent i i Hi Hi) as (v & Hv & Hg).
  rewrite elec_nuc_value_equal in Hv. now injection Hv as <-.
Qed.

(** The entries of the Hamiltonian once the potential matrix is there. *)
Lemma hamiltonian_entries (k_points : list kpoint) (cell_area : R)
  (r_pos : list position) (hbar m : R) (V : list (list (ieee C))) :
  elec_nuc_potential k_points cell_area r_pos = Ok V ->
  exists T H,
    kenetic k_points hbar m = Ok T /\
    plane_wave_hamiltonian k_points cell_area r_pos hbar m = Ok H /\
    mat_shape (length k_points) (length k_points) H /\
    (forall i, (i < length k_points)%nat ->
               mat_get H i i = result_map (ieee_map RtoC) (mat_get T i i)) /\
    (forall i j, (i < length k_points)%nat -> (j < length k_points)%nat ->
                 i <> j -> mat_get H i j = mat_get V i j).
Proof.
  unfold plane_wave_hamiltonian. rewrite kenetic_eq. cbn [bind].
  set (entry := fun k => np_fdiv _ _).
  set (T := np_diag (map entry k_points)).
  set (n := length k_points).
  assert (HT : mat_shape n n T).
  { pose proof (np_diag_shape (map entry k_points)) as Hs.
    rewrite length_map in Hs. exact Hs. }
  assert (HTget : forall i j, (i < n)%nat -> (j < n)%nat ->
            mat_get T i j
            = Ok (if Nat.eqb i j then nth i (map entry k_points) (Finite 0)
                  else Finite 0)).
  { intros i j Hi Hj. apply np_diag_get; rewrite length_map; assumption. }
  intros HV. rewrite HV. cbn [bind].
  destruct (elec_nuc_potential_entries _ _ _ _ HV) as [HVs Hent].
  exists T, (mat_add T V). split; [reflexivity|]. split; [reflexivity|].
  split; [now apply mat_add_shape|]. split.
  - intros i Hi. rewrite HTget by assumption. rewrite Nat.eqb_refl.
    rewrite (mat_add_get n T V i i _ (Finite C0) HT HVs Hi Hi
               (HTget i i Hi Hi) (elec_nuc_diagonal_zero _ _ _ _ _ HV Hi)).
    rewrite Nat.eqb_refl. cbn [result_map]. f_equal.
    destruct (nth i (map entry k_points) (Finite 0)) as [x|];
      cbn [ieee_map ieee_map2]; [|reflexivity].
    f_equal. apply C_eq; simpl; ring.
  - intros i j Hi Hj Hij. destruct (Hent i j Hi Hj) as (v & _ & Hg).
    rewrite (mat_add_get n T V i j _ v HT HVs Hi Hj (HTget i j Hi Hj) Hg).
    apply Nat.eqb_neq in Hij. rewrite Hij, Hg. f_equal.
    destruct v as [z|]; cbn [ieee_map2]; [|reflexivity].
    f_equal. apply C_eq; simpl; ring.
Qed.

Lemma hamiltonian_ok_inv (k_points : list kpoint) (cell_area : R)
  (r_pos : list position) (hbar m : R) (H : list (list (ieee C))) :
  plane_wave_hamiltonian k_points cell_area r_pos hbar m = Ok H ->
  exists V, elec_nuc_potential k_points cell_area r_pos = Ok V.
Proof.
  unfold plane_wave_hamiltonian. rewrite kenetic_eq. cbn [bind].
  destruct (elec_nuc_potential k_points cell_area r_pos) as [V|e];
    [eauto|discriminate].
Qed.

(** X1.  [plane_wave_hamiltonian] composes the two matrices.  Once
    [kenetic] has returned its matrix [T], the function raises exactly what
    [elec_nuc_potential] raises; and when that returns the matrix [V], it
    returns an [n] by [n] matrix whose diagonal is the diagonal of [T] (as
    complex numbers) and whose off-diagonal entries are those of [V]. *)
Theorem hamiltonian_decomposition (k_points : list kpoint) (cell_area : R)
  (r_pos : list position) (hbar m : R) (T : list (list (ieee R))) :
  kenetic k_points hbar m = Ok T ->
  (forall e, elec_nuc_potential k_points cell_area r_pos = Raise e ->
             plane_wave_hamiltonian k_points cell_area r_pos hbar m = Raise e) /\
  (forall V, elec_nuc_potential k_points cell_area r_pos = Ok V ->
     exists H,
       plane_wave_hamiltonian k_points cell_area r_pos hbar m = Ok H /\
       mat_shape (length k_points) (length k_points) H /\
       (forall i, (i < length k_points)%nat ->
                  mat_get H i i = result_map (ieee_map RtoC) (mat_get T i i)) /\
       (forall i j, (i < length k_points)%nat -> (j < length k_points)%nat ->
                    i <> j -> mat_get H i j = mat_get V i j)).
Proof.
  intros HT. split.
  - intros e He. unfold plane_wave_hamiltonian.
    rewrite HT, He. reflexivity.
  - intros V HV.
    destruct (hamiltonian_entries k_points cell_area r_pos hbar m V HV)
      as (T' & H & HT' & HH & Hshape & Hdiag & Hoff).
    rewrite HT in HT'. injection HT' as <-.
    exists H. split; [exact HH|]. split; [exact Hshape|].
    split; [exact Hdiag|exact Hoff].
Qed.

Lemma hamiltonian_decomposition_witness :
  exists H,
    plane_wave_hamiltonian [[0%Z]; [1%Z]] 1 [[0]] 1 1 = Ok H /\
    mat_get H 0 1 = Ok (Finite (RtoC (4 * PI))) /\
    mat_get H 1 1 = Ok (Finite (RtoC (1 / 2))).
Proof.
  destruct (elec_nuc_potential_returns [[0%Z]; [1%Z]] 1 [[0]]) as [V HV].
  { intros kb kk [<-|[<-|[]]] [<-|[<-|[]]]; eexists;
      first [apply elec_nuc_value_equal | apply example_value_01
            | apply example_value_10]. }
  destruct (proj2 (hamiltonian_decomposition [[0%Z]; [1%Z]] 1 [[0]] 1 1 _
                     example_kinetic) V HV)
    as (H & HH & _ & Hdiag & Hoff).
  exists H. split; [exact HH|]. split.
  - rewrite (Hoff 0%nat 1%nat) by (simpl; lia).
    destruct (elec_nuc_potential_entries _ _ _ _ HV) as [_ Hent].
    destruct (Hent 0%nat 1%nat) as (v & Hv & Hg); [simpl; lia..|].
    cbn [nth] in Hv. rewrite example_value_01 in Hv. injection Hv as <-.
    exact Hg.
  - rewrite (Hdiag 1%nat) by (simpl; lia). reflexivity.
Defined.

(** X2.  When no difference of two k-point components leaves the 32-bit
    range, a returned Hamiltonian whose entries are all finite is
    Hermitian: [H[j,i] = conj(H[i,j])], the diagonal being real. *)
Theorem hamiltonian_hermitian (k_points : list kpoint) (cell_area : R)
  (r_pos : list position) (hbar m : R) (H : list (list (ieee C))) :
  (forall k_bra k_ket, In k_bra k_points -> In k_ket k_points ->
                       diff_fits k_bra k_ket) ->
  plane_wave_hamiltonian k_points cell_area r_pos hbar m = Ok H ->
  (forall i j, (i < length k_points)%nat -> (j < length k_points)%nat ->
               exists z, mat_get H i j = Ok (Finite z)) ->
  forall i j, (i < length k_points)%nat -> (j < length k_points)%nat ->
    exists z, mat_get H i j = Ok (Finite z) /\
              mat_get H j i = Ok (Finite (Cconj z)).
Proof.
  intros Hfit HH Hfin i j Hi Hj.
  destruct (hamiltonian_ok_inv _ _ _ _ _ _ HH) as [V HV].
  destruct (hamiltonian_entries k_points cell_area r_pos hbar m V HV)
    as (T & H' & HT & HH' & _ & Hdiag & Hoff).
  rewrite HH in HH'. injection HH' as <-.
  destruct (Hfin i j Hi Hj) as [z Hz]. exists z. split; [exact Hz|].
  destruct (Nat.eq_dec i j) as [->|Hij].
  - rewrite Hz. do 2 f_equal. rewrite Hdiag in Hz by assumption.
    destruct (mat_get T j j) as [[x|]|e]; cbn in Hz; try discriminate.
    injection Hz as <-. symmetry. apply Cconj_RtoC.
  - rewrite Hoff in Hz by assumption. rewrite Hoff by auto.
    destruct (elec_nuc_potential_entries _ _ _ _ HV) as [_ Hent].
    destruct (Hent i j Hi Hj) as (v & Hv & Hg).
    destruct (Hent j i Hj Hi) as (w & Hw & Hg').
    rewrite Hg in Hz. injection Hz as ->. rewrite Hg'. do 2 f_equal.
    rewrite elec_nuc_value_conj in Hw
      by (apply Hfit; apply nth_In; assumption).
    rewrite Hv in Hw. cbn [result_map ieee_map] in Hw. now injection Hw as <-.
Qed.

Lemma example_hamiltonian :
  exists H,
    plane_wave_hamiltonian [[0%Z]; [1%Z]] 1 [[0]] 1 1 = Ok H /\
    forall i j, (i < 2)%nat -> (j < 2)%nat ->
                exists z, mat_get H i j = Ok (Finite z).
Proof.
  destruct (elec_nuc_potential_returns [[0%Z]; [1%Z]] 1 [[0]]) as [V HV].
  { intros kb kk [<-|[<-|[]]] [<-|[<-|[]]]; eexists;
      first [apply elec_nuc_value_equal | apply example_value_01
            | apply example_value_10]. }
  destruct (hamiltonian_entries [[0%Z]; [1%Z]] 1 [[0]] 1 1 V HV)
    as (T & H & HT & HH & _ & Hdiag & Hoff).
  rewrite example_kinetic in HT. injection HT as <-.
  destruct (elec_nuc_potential_entries _ _ _ _ HV) as [_ Hent].
  exists H. split; [exact HH|]. intros i j Hi Hj.
  destruct (Nat.eq_dec i j) as [->|Hij].
  - rewrite Hdiag by exact Hj.
    destruct j as [|[|j]]; [eexists; reflexivity..|lia].
  - rewrite Hoff by assumption.
    destruct (Hent i j Hi Hj) as (v & Hv & Hg). rewrite Hg.
    destruct i as [|[|i]], j as [|[|j]]; try lia; cbn [nth] in Hv.
    + rewrite example_value_01 in Hv. injection Hv as <-. eauto.
    + rewrite example_value_10 in Hv. injection Hv as <-. eauto.
Qed.

Lemma hamiltonian_hermitian_witness :
  exists H z,
    plane_wave_hamiltonian [[0%Z]; [1%Z]] 1 [[0]] 1 1 = Ok H /\
    mat_get H 0 1 = Ok (Finite z) /\
    mat_get H 1 0 = Ok (Finite (Cconj z)).
Proof.
  destruct example_hamiltonian as (H & HH & Hfin).
  assert (Hfit : forall k_bra k_ket : kpoint,
             In k_bra [[0%Z]; [1%Z]] -> In k_ket [[0%Z]; [1%Z]] ->
             diff_fits k_bra k_ket).
  { intros kb kk [<-|[<-|[]]] [<-|[<-|[]]];
      repeat constructor; unfold int32_range; simpl; lia. }
  destruct (hamiltonian_hermitian [[0%Z]; [1%Z]] 1 [[0]] 1 1 H Hfit HH Hfin
              0%nat 1%nat) as (z & H01 & H10); [simpl; lia..|].
  exists H, z. repeat split; assumption.
Defined.

(** X3.  The matrix that [kenetic] returns, for any [hbar] and [m], also
    zero or negative ones: it is [n] by [n] with zeros off the diagonal;
    its diagonal is finite when [m] is not zero; when [m = 0] every
    diagonal entry is non-finite, the division being NumPy's (no
    [ZeroDivisionError]).  And [kenetic] depends on [hbar] only through its
    square: [- hbar] gives what [hbar] gives. *)
Theorem kenetic_any_parameters (k_points : list kpoint) (hbar m : R) :
  (forall T, kenetic k_points hbar m = Ok T ->
     mat_shape (length k_points) (length k_points) T /\
     (forall i j, (i < length k_points)%nat -> (j < length k_points)%nat ->
                  i <> j -> mat_get T i j = Ok (Finite 0)) /\
     (m <> 0 -> forall i, (i < length k_points)%nat ->
                exists x, mat_get T i i = Ok (Finite x)) /\
     (m = 0 -> forall i, (i < length k_points)%nat ->
               mat_get T i i = Ok NonFinite)) /\
  kenetic k_points (- hbar) m = kenetic k_points hbar m.
Proof.
  split.
  - intros T HT. rewrite kenetic_eq in HT. injection HT as <-.
    set (entry := fun k => np_fdiv _ _).
    assert (Hlen : length (map entry k_points) = length k_points)
      by apply length_map.
    assert (Hdiag : forall i, (i < length k_points)%nat ->
              mat_get (np_diag (map entry k_points)) i i
              = Ok (entry (nth i k_points []))).
    { intros i Hi. rewrite np_diag_get by lia. rewrite Nat.eqb_refl.
      rewrite (nth_indep _ (Finite 0) (entry [])) by lia.
      now rewrite (map_nth entry). }
    split.
    { rewrite <- Hlen. apply np_diag_shape. }
    split; [|split].
    + intros i j Hi Hj Hij. rewrite np_diag_get by lia.
      apply Nat.eqb_neq in Hij. now rewrite Hij.
    + intros Hm i Hi. rewrite (Hdiag i Hi). unfold entry.
      rewrite np_fdiv_finite by lra. eauto.
    + intros Hm i Hi. rewrite (Hdiag i Hi). unfold entry, np_fdiv.
      destruct (Req_dec_T (2 * m) 0); [reflexivity|lra].
  - rewrite !kenetic_eq. do 2 f_equal. apply map_ext. intros k.
    f_equal. ring.
Qed.

Lemma kenetic_any_parameters_witness :
  (exists T, kenetic [[1%Z]] 1 0 = Ok T /\ mat_get T 0 0 = Ok NonFinite) /\
  (exists T x, kenetic [[1%Z]] 1 (-1) = Ok T /\ mat_get T 0 0 = Ok (Finite x)).
Proof.
  split.
  - eexists. split; [apply kenetic_eq|].
    destruct (proj1 (kenetic_any_parameters [[1%Z]] 1 0) _
                (kenetic_eq [[1%Z]] 1 0)) as (_ & _ & _ & Hzero).
    apply Hzero; [reflexivity|simpl; lia].
  - destruct (proj1 (kenetic_any_parameters [[1%Z]] 1 (-1)) _
                (kenetic_eq [[1%Z]] 1 (-1))) as (_ & _ & Hfin & _).
    destruct (Hfin ltac:(lra) 0%nat ltac:(simpl; lia)) as [x Hx].
    eexists. exists x. split; [apply kenetic_eq|exact Hx].
Defined.

End HamiltonianExtras.

(** * Further properties of the potential *)

Section PotentialExtras.

Import Operators.

Lemma sum_sq_fold_gt (d : list Z) (a : R) (x : Z) :
  In x d -> x <> 0%Z -> a < fold_left (fun acc y => acc + IZR y * IZR y) d a.
Proof.
  revert a. induction d as [|y d IH]; intros a Hin Hx; [contradiction|].
  simpl. destruct Hin as [->|Hin].
  - assert (IZR x <> 0) by (now apply not_0_IZR).
    assert (0 < IZR x * IZR x) by nra.
    assert (Hge : forall l b, b <= fold_left (fun acc y => acc + IZR y * IZR y) l b).
    { induction l as [|z l IHl]; intros b; simpl; [lra|].
      specialize (IHl (b + IZR z * IZR z)). nra. }
    specialize (Hge d (a + IZR x * IZR x)). lra.
  - specialize (IH (a + IZR y * IZR y) Hin Hx). nra.
Qed.

Lemma exact_diff_nonzero (a b : list Z) :
  length a = length b -> a <> b ->
  exists x, In x (exact_diff a b) /\ x <> 0%Z.
Proof.
  unfold exact_diff. revert b.
  induction a as [|x a IH]; intros [|y b] Hlen Hne; simpl in Hlen;
    try discriminate; [contradiction|].
  destruct (Z.eq_dec x y) as [->|Hxy].
  - destruct (IH b) as (z & Hz & Hnz); [lia|congruence|].
    exists z. split; [now right|assumption].
  - exists (x - y)%Z. split; [now left|lia].
Qed.

Lemma sum_sq_diff_pos (a b : list Z) :
  length a = length b -> a <> b -> 0 < sum_sq (exact_diff a b).
Proof.
  intros Hlen Hne. destruct (exact_diff_nonzero a b Hlen Hne) as (x & Hin & Hx).
  unfold sum_sq. now apply (sum_sq_fold_gt _ 0 x).
Qed.

Lemma length_exact_diff (a b : list Z) :
  length a = length b -> length (exact_diff a b) = length a.
Proof. intros H. unfold exact_diff. rewrite length_map, length_combine. lia. Qed.

Lemma np_dot_mixed_ok (d : list Z) (r : list R) :
  length d = length r -> np_dot_mixed d r = Ok (dot_zr d r).
Proof. intros H. unfold np_dot_mixed. now rewrite H, Nat.eqb_refl. Qed.

Lemma np_array_equal_false (a b : list Z) :
  a <> b -> np_array_equal a b = false.
Proof.
  intros H. destruct (np_array_equal a b) eqn:E; [|reflexivity].
  apply np_array_equal_iff in E. contradiction.
Qed.

(** The loop over the nuclei for two different k-points. *)
Lemma elec_nuc_loop_formula (D : nat) (k_bra k_ket : kpoint) (cell_area : R)
  (r_pos : list position) :
  length k_bra = D -> length k_ket = D -> k_bra <> k_ket ->
  diff_fits k_bra k_ket -> cell_area <> 0 ->
  (forall r, In r r_pos -> length r = D) ->
  forall acc,
    foldM (elec_nuc_step k_bra k_ket cell_area) r_pos (Finite acc)
    = Ok (Finite
            (fold_left
               (fun acc r =>
                  Cadd acc
                       (Cmul (RtoC (4 * PI
                                    / (cell_area * sum_sq (exact_diff k_bra k_ket))))
                             (cis (- dot_zr (exact_diff k_bra k_ket) r))))
               r_pos acc)).
Proof.
  intros Hb Hk Hne Hfit HA.
  pose proof (sum_sq_diff_pos k_bra k_ket ltac:(congruence) Hne) as Hpos.
  induction r_pos as [|r rs IH]; intros Hr acc; [reflexivity|].
  cbn [foldM fold_left].
  rewrite (elec_nuc_step_ne k_bra k_ket cell_area acc r
             (exact_diff k_bra k_ket) (dot_zr (exact_diff k_bra k_ket) r)).
  - cbn [bind]. apply IH. intros r' Hin. apply Hr. now right.
  - now apply np_array_equal_false.
  - apply np_sub_int32_exact; [congruence|assumption].
  - apply np_dot_mixed_ok. rewrite length_exact_diff by congruence.
    rewrite (Hr r (or_introl eq_refl)). exact Hb.
  - nra.
Qed.

(** X4.  For two different k-points of one dimension [D] whose difference
    does not overflow, a non-zero cell area and nuclei of dimension [D],
    [elec_nuc_potential_element] returns the finite Coulomb sum
    [sum_r 4 pi / (area |dk|^2) exp(-i dk.r)], [dk = k_bra - k_ket], with
    the indices [i], [j] handed back unchanged. *)
Theorem elec_nuc_element_formula (D i j : nat) (k_bra k_ket : kpoint)
  (r_pos : list position) (cell_area : R) :
  length k_bra = D -> length k_ket = D -> k_bra <> k_ket ->
  diff_fits k_bra k_ket -> cell_area <> 0 ->
  (forall r, In r r_pos -> length r = D) ->
  elec_nuc_potential_element (i, j, k_bra, k_ket, r_pos, cell_area)
  = Ok (i, j, Finite (potential_formula k_bra k_ket r_pos cell_area)).
Proof.
  intros Hb Hk Hne Hfit HA Hr.
  rewrite elec_nuc_potential_element_eq. unfold elec_nuc_value.
  rewrite (elec_nuc_loop_formula D) by assumption. reflexivity.
Qed.

Lemma elec_nuc_element_formula_witness :
  elec_nuc_potential_element (0%nat, 1%nat, [0%Z], [1%Z], [[0]; [1]], 2)
  = Ok (0%nat, 1%nat, Finite (potential_formula [0%Z] [1%Z] [[0]; [1]] 2)).
Proof.
  apply (elec_nuc_element_formula 1); try reflexivity.
  - discriminate.
  - repeat constructor; unfold int32_range; simpl; lia.
  - lra.
  - intros r [<-|[<-|[]]]; reflexivity.
Defined.

Lemma elec_nuc_loop_nonfinite (D : nat) (k_bra k_ket : kpoint) (cell_area : R)
  (r_pos : list position) :
  length k_bra = D -> length k_ket = D -> k_bra <> k_ket ->
  (forall r, In r r_pos -> length r = D) ->
  foldM (elec_nuc_step k_bra k_ket cell_area) r_pos NonFinite = Ok NonFinite.
Proof.
  intros Hb Hk Hne. induction r_pos as [|r rs IH]; intros Hr; [reflexivity|].
  cbn [foldM]. unfold elec_nuc_step at 1.
  rewrite np_array_equal_false by assumption.
  unfold np_sub_int32. rewrite Hb, Hk, Nat.eqb_refl. cbn [bind].
  unfold np_dot_mixed. rewrite length_map, length_combine, Hb, Hk, Nat.min_id.
  rewrite (Hr r (or_introl eq_refl)), Nat.eqb_refl. cbn [bind ieee_map2].
  apply IH. intros r' Hin. apply Hr. now right.
Qed.

(** X5.  With a cell area of zero, the element between two different
    k-points of dimension [D] is non-finite as soon as there is one
    nucleus (the positions being of dimension [D]); no exception is
    raised. *)
Theorem elec_nuc_zero_area (D i j : nat) (k_bra k_ket : kpoint)
  (r : position) (r_pos : list position) :
  length k_bra = D -> length k_ket = D -> k_bra <> k_ket ->
  (forall r', In r' (r :: r_pos) -> length r' = D) ->
  elec_nuc_potential_element (i, j, k_bra, k_ket, r :: r_pos, 0)
  = Ok (i, j, NonFinite).
Proof.
  intros Hb Hk Hne Hr.
  rewrite elec_nuc_potential_element_eq. unfold elec_nuc_value.
  cbn [foldM]. unfold elec_nuc_step at 1.
  rewrite np_array_equal_false by assumption.
  unfold np_sub_int32. rewrite Hb, Hk, Nat.eqb_refl. cbn [bind].
  unfold np_dot_mixed. rewrite length_map, length_combine, Hb, Hk, Nat.min_id.
  rewrite (Hr r (or_introl eq_refl)), Nat.eqb_refl. cbn [bind].
  unfold np_fdiv. destruct (Req_dec_T _ 0) as [_|Hnz]; [|exfalso; apply Hnz; ring].
  cbn [ieee_map ieee_map2].
  rewrite (elec_nuc_loop_nonfinite D) by (auto; intros; apply Hr; now right).
  reflexivity.
Qed.

Lemma elec_nuc_zero_area_witness :
  elec_nuc_potential_element (0%nat, 1%nat, [0%Z], [1%Z], [[0]], 0)
  = Ok (0%nat, 1%nat, NonFinite).
Proof.
  apply (elec_nuc_zero_area 1); try reflexivity.
  - discriminate.
  - intros r [<-|[]]. reflexivity.
Defined.

(** X6.  Without nuclei the loop never runs: for every k-point set, also
    one whose points differ in dimension, and every cell area,
    [elec_nuc_potential] returns the [n] by [n] zero matrix. *)
Theorem elec_nuc_no_nuclei (k_points : list kpoint) (cell_area : R) :
  exists V,
    elec_nuc_potential k_points cell_area [] = Ok V /\
    mat_shape (length k_points) (length k_points) V /\
    forall i j, (i < length k_points)%nat -> (j < length k_points)%nat ->
                mat_get V i j = Ok (Finite C0).
Proof.
  destruct (elec_nuc_potential_returns k_points cell_area []) as [V HV].
  { intros kb kk _ _. now exists (Finite C0). }
  exists V. split; [exact HV|].
  destruct (elec_nuc_potential_entries _ _ _ _ HV) as [HS Hent].
  split; [exact HS|]. intros i j Hi Hj.
  destruct (Hent i j Hi Hj) as (v & Hv & Hg).
  cbv [elec_nuc_value foldM] in Hv. now injection Hv as <-.
Qed.

Lemma elec_nuc_step_raises (k_bra k_ket : kpoint) (cell_area : R)
  (acc : ieee C) (r : position) (e : exn) :
  elec_nuc_step k_bra k_ket cell_area acc r = Raise e -> e = ValueError.
Proof.
  unfold elec_nuc_step, np_sub_int32, np_dot_mixed.
  destruct (np_array_equal k_bra k_ket); [discriminate|].
  destruct (Nat.eqb (length k_bra) (length k_ket)); cbn [bind];
    [|now intros [= <-]].
  destruct (Nat.eqb _ (length r)); cbn [bind]; [discriminate|now intros [= <-]].
Qed.

Lemma foldM_raises {A S : Type} (body : S -> A -> result S) (P : exn -> Prop)
  (l : list A) :
  (forall s a e, body s a = Raise e -> P e) ->
  forall s e, foldM body l s = Raise e -> P e.
Proof.
  intros Hbody. induction l as [|a l IH]; intros s e H; simpl in H;
    [discriminate|].
  destruct (body s a) as [s'|e'] eqn:E; simpl in H.
  - now apply (IH s').
  - injection H as <-. now apply (Hbody s a).
Qed.

Lemma mapM_raise_inv {A B : Type} (f : A -> result B) (l : list A) (e : exn) :
  mapM f l = Raise e -> exists a, In a l /\ f a = Raise e.
Proof.
  induction l as [|a l IH]; simpl; [discriminate|].
  destruct (f a) as [b|e'] eqn:E; simpl.
  - destruct (mapM f l) as [bs|e'']; simpl; [discriminate|].
    intros [= <-]. destruct IH as (a' & Hin & Ha'); [reflexivity|].
    exists a'. split; [now right|assumption].
  - intros [= <-]. exists a. split; [now left|assumption].
Qed.

Lemma elec_nuc_results_in_range (k_points : list kpoint) (cell_area : R)
  (r_pos : list position) (results : list (nat * nat * ieee C)) :
  mapM elec_nuc_potential_element
       (elec_nuc_args_list k_points cell_area r_pos) = Ok results ->
  Forall (fun r => (fst (fst r) < length k_points)%nat /\
                   (snd (fst r) < length k_points)%nat) results.
Proof.
  intros Em. apply mapM_ok_inv in Em. apply Forall_forall.
  intros [[i j] v] Hin. simpl.
  destruct (Forall2_In_r _ _ _ Em _ Hin) as (args & Hargs & Hf).
  apply elec_nuc_args_list_In in Hargs as (i' & j' & kb & kk & -> & Hi & Hj).
  rewrite elec_nuc_potential_element_eq in Hf.
  destruct (elec_nuc_value kb kk r_pos cell_area); simpl in Hf; [|discriminate].
  injection Hf as Ei Ej _. subst i' j'.
  split; apply nth_error_Some; congruence.
Qed.

Lemma elec_nuc_potential_raises (k_points : list kpoint) (cell_area : R)
  (r_pos : list position) (e : exn) :
  elec_nuc_potential k_points cell_area r_pos = Raise e -> e = ValueError.
Proof.
  unfold elec_nuc_potential, pool_map.
  destruct (mapM elec_nuc_potential_element _) as [results|e'] eqn:Em;
    cbn [bind].
  - intros H. exfalso.
    destruct (fill_ok (length k_points) (length k_points) results
                (np_zeros2 (Finite C0) (length k_points) (length k_points)))
      as (V & EV & _).
    + apply np_zeros2_shape.
    + now apply (elec_nuc_results_in_range _ cell_area r_pos).
    + rewrite EV in H. discriminate.
  - intros [= <-]. apply mapM_raise_inv in Em as (args & Hin & Hf).
    apply elec_nuc_args_list_In in Hin as (i & j & kb & kk & -> & _ & _).
    rewrite elec_nuc_potential_element_eq in Hf. unfold elec_nuc_value in Hf.
    destruct (foldM (elec_nuc_step kb kk cell_area) r_pos (Finite C0))
      as [v|e''] eqn:Ef; cbn [bind] in Hf; [discriminate|].
    injection Hf as <-.
    apply (foldM_raises _ (fun e => e = ValueError) _
             (elec_nuc_step_raises kb kk cell_area) _ _ Ef).
Qed.

(** X7.  The only exception [elec_nuc_potential] raises is [ValueError];
    and it does raise it when the k-point set holds two different points
    of dimension [D] while the first nucleus has another dimension: no
    matrix is returned. *)
Theorem elec_nuc_dimension_mismatch (k_points : list kpoint) (cell_area : R)
  (r_pos : list position) :
  (forall e, elec_nuc_potential k_points cell_area r_pos = Raise e ->
             e = ValueError) /\
  (forall D i j r rest,
     (i < length k_points)%nat -> (j < length k_points)%nat ->
     nth i k_points [] <> nth j k_points [] ->
     length (nth i k_points []) = D -> length (nth j k_points []) = D ->
     r_pos = r :: rest -> length r <> D ->
     elec_nuc_potential k_points cell_area r_pos = Raise ValueError).
Proof.
  split; [apply elec_nuc_potential_raises|].
  intros D i j r rest Hi Hj Hne Hli Hlj -> Hr.
  destruct (elec_nuc_potential k_points cell_area (r :: rest)) as [V|e] eqn:E.
  - exfalso.
    destruct (elec_nuc_potential_entries _ _ _ _ E) as [_ Hent].
    destruct (Hent i j Hi Hj) as (v & Hv & _).
    unfold elec_nuc_value in Hv. cbn [foldM] in Hv.
    unfold elec_nuc_step at 1 in Hv.
    rewrite np_array_equal_false in Hv by assumption.
    unfold np_sub_int32 in Hv. rewrite Hli, Hlj, Nat.eqb_refl in Hv.
    cbn [bind] in Hv. unfold np_dot_mixed in Hv.
    rewrite length_map, length_combine, Hli, Hlj, Nat.min_id in Hv.
    apply Nat.neq_sym, Nat.eqb_neq in Hr. rewrite Hr in Hv. discriminate.
  - f_equal. now apply (elec_nuc_potential_raises _ _ _ _ E).
Qed.

Lemma elec_nuc_dimension_mismatch_witness :
  elec_nuc_potential [[0%Z]; [1%Z]] 1 [[0; 0]] = Raise ValueError.
Proof.
  apply (proj2 (elec_nuc_dimension_mismatch [[0%Z]; [1%Z]] 1 [[0; 0]])
           1%nat 0%nat 1%nat [0; 0] []); try reflexivity;
    simpl; try lia; discriminate.
Defined.

Lemma ieee_add_assoc (a b c : ieee C) :
  ieee_map2 Cadd (ieee_map2 Cadd a b) c
  = ieee_map2 Cadd a (ieee_map2 Cadd b c).
Proof.
  destruct a, b, c; cbn; try reflexivity. now rewrite Cadd_assoc.
Qed.

Lemma elec_nuc_step_add (k_bra k_ket : kpoint) (cell_area : R)
  (acc : ieee C) (r : position) :
  k_bra <> k_ket ->
  elec_nuc_step k_bra k_ket cell_area acc r
  = result_map (ieee_map2 Cadd acc)
               (elec_nuc_step k_bra k_ket cell_area (Finite C0) r).
Proof.
  intros Hne. unfold elec_nuc_step.
  rewrite np_array_equal_false by assumption.
  destruct (np_sub_int32 k_bra k_ket) as [d|e]; cbn [bind result_map];
    [|reflexivity].
  destruct (np_dot_mixed d r) as [p|e]; cbn [bind result_map]; [|reflexivity].
  f_equal. destruct (np_fdiv _ _) as [c|], acc as [a|]; cbn; try reflexivity.
  now rewrite Cadd_0_l.
Qed.

Lemma elec_nuc_loop_add (k_bra k_ket : kpoint) (cell_area : R)
  (r_pos : list position) :
  k_bra <> k_ket ->
  forall acc,
    foldM (elec_nuc_step k_bra k_ket cell_area) r_pos acc
    = result_map (ieee_map2 Cadd acc)
                 (foldM (elec_nuc_step k_bra k_ket cell_area) r_pos (Finite C0)).
Proof.
  intros Hne. induction r_pos as [|r rs IH]; intros acc.
  - cbn. destruct acc; cbn; [|reflexivity]. now rewrite Cadd_0_r.
  - cbn [foldM]. rewrite (elec_nuc_step_add _ _ _ acc) by assumption.
    destruct (elec_nuc_step k_bra k_ket cell_area (Finite C0) r) as [t|e];
      cbn [bind result_map]; [|reflexivity].
    rewrite (IH (ieee_map2 Cadd acc t)), (IH t).
    destruct (foldM (elec_nuc_step k_bra k_ket cell_area) rs (Finite C0))
      as [v|e]; cbn [result_map]; [|reflexivity].
    f_equal. apply ieee_add_assoc.
Qed.

(** X8.  The nuclei superpose: when the element for the nuclei [r1] is
    [v1] and the element for the nuclei [r2] is [v2], the element for the
    two lists together is [v1 + v2]. *)
Theorem elec_nuc_superposition (i j : nat) (k_bra k_ket : kpoint)
  (r1 r2 : list position) (cell_area : R) (v1 v2 : ieee C) :
  elec_nuc_potential_element (i, j, k_bra, k_ket, r1, cell_area)
  = Ok (i, j, v1) ->
  elec_nuc_potential_element (i, j, k_bra, k_ket, r2, cell_area)
  = Ok (i, j, v2) ->
  elec_nuc_potential_element (i, j, k_bra, k_ket, r1 ++ r2, cell_area)
  = Ok (i, j, ieee_map2 Cadd v1 v2).
Proof.
  rewrite !elec_nuc_potential_element_eq. unfold elec_nuc_value.
  intros H1 H2.
  destruct (foldM (elec_nuc_step k_bra k_ket cell_area) r1 (Finite C0))
    as [w1|e] eqn:E1; cbn [bind] in H1; [|discriminate].
  destruct (foldM (elec_nuc_step k_bra k_ket cell_area) r2 (Finite C0))
    as [w2|e] eqn:E2; cbn [bind] in H2; [|discriminate].
  injection H1 as ->. injection H2 as ->.
  rewrite foldM_app, E1. cbn [bind].
  destruct (list_eq_dec Z.eq_dec k_bra k_ket) as [->|Hne].
  - rewrite elec_nuc_loop_equal in *.
    injection E2 as <-. injection E1 as <-.
    destruct r1, r2; cbn; do 3 f_equal; apply C_eq; simpl; ring.
  - rewrite elec_nuc_loop_add, E2 by assumption. reflexivity.
Qed.

Lemma elec_nuc_superposition_witness :
  elec_nuc_potential_element (0%nat, 1%nat, [0%Z], [1%Z], [[0]] ++ [[0]], 1)
  = Ok (0%nat, 1%nat,
        ieee_map2 Cadd (Finite (RtoC (4 * PI))) (Finite (RtoC (4 * PI)))).
Proof.
  apply elec_nuc_superposition;
    rewrite elec_nuc_potential_element_eq, example_value_01; reflexivity.
Defined.

Lemma zip_add_sub (a b q : list Z) :
  length a = length q -> length b = length q ->
  map (fun p => wrap32 (fst p - snd p)) (combine (zip_add a q) (zip_add b q))
  = map (fun p => wrap32 (fst p - snd p)) (combine a b).
Proof.
  unfold zip_add. revert b q.
  induction a as [|x a IH]; intros [|y b] [|z q] Ha Hb; simpl in *;
    try discriminate; try reflexivity.
  rewrite IH by lia. do 2 f_equal. lia.
Qed.

Lemma zip_add_inj (a b q : list Z) :
  length a = length q -> length b = length q ->
  zip_add a q = zip_add b q -> a = b.
Proof.
  unfold zip_add. revert b q.
  induction a as [|x a IH]; intros [|y b] [|z q] Ha Hb H; simpl in *;
    try discriminate; try reflexivity.
  injection H as Hxy Hrest. f_equal; [lia|]. apply (IH b q); (lia || assumption).
Qed.

Lemma length_zip_add (a q : list Z) :
  length a = length q -> length (zip_add a q) = length a.
Proof. intros H. unfold zip_add. rewrite length_map, length_combine. lia. Qed.

(** X9.  The element depends on the two k-points only through their
    difference: moving both by one integer vector [q] of their dimension
    leaves [elec_nuc_potential_element] unchanged. *)
Theorem elec_nuc_shift_invariant (i j : nat) (k_bra k_ket q : kpoint)
  (r_pos : list position) (cell_area : R) :
  length k_bra = length q -> length k_ket = length q ->
  elec_nuc_potential_element
    (i, j, zip_add k_bra q, zip_add k_ket q, r_pos, cell_area)
  = elec_nuc_potential_element (i, j, k_bra, k_ket, r_pos, cell_area).
Proof.
  intros Hb Hk. rewrite !elec_nuc_potential_element_eq. f_equal.
  unfold elec_nuc_value.
  assert (Hstep : forall acc r,
            elec_nuc_step (zip_add k_bra q) (zip_add k_ket q) cell_area acc r
            = elec_nuc_step k_bra k_ket cell_area acc r).
  { intros acc r. unfold elec_nuc_step.
    assert (Heq : np_array_equal (zip_add k_bra q) (zip_add k_ket q)
                  = np_array_equal k_bra k_ket).
    { destruct (np_array_equal k_bra k_ket) eqn:E.
      - apply np_array_equal_iff in E. subst. now apply np_array_equal_iff.
      - apply np_array_equal_false. intros Hz.
        apply zip_add_inj in Hz; [|assumption..]. subst.
        rewrite (proj2 (np_array_equal_iff k_ket k_ket) eq_refl) in E.
        discriminate. }
    rewrite Heq. unfold np_sub_int32.
    rewrite !length_zip_add, zip_add_sub by assumption. reflexivity. }
  generalize (Finite C0 : ieee C).
  induction r_pos as [|r rs IH]; intros acc; [reflexivity|].
  cbn [foldM]. rewrite Hstep.
  destruct (elec_nuc_step k_bra k_ket cell_area acc r); cbn [bind];
    [apply IH|reflexivity].
Qed.

Lemma elec_nuc_shift_invariant_witness :
  elec_nuc_potential_element
    (0%nat, 1%nat, zip_add [0%Z] [5%Z], zip_add [1%Z] [5%Z], [[0]], 1)
  = elec_nuc_potential_element (0%nat, 1%nat, [0%Z], [1%Z], [[0]], 1).
Proof. apply elec_nuc_shift_invariant; reflexivity. Defined.

End PotentialExtras.

(** * Further properties of the one-dimensional transforms *)

Section TransformExtras.

Import Fourier.

Lemma idft_inner_short (spectrum : list C) (sig_len k_min n : Z) (K : nat) :
  sig_len <> 0%Z -> (length spectrum < K)%nat ->
  foldM (idft_inner spectrum sig_len k_min n)
        (map (fun i => (k_min + Z.of_nat i)%Z) (seq 0 K)) C0
  = Raise IndexError.
Proof.
  intros Hnz HK.
  replace K with (length spectrum + S (K - S (length spectrum)))%nat by lia.
  rewrite seq_app, map_app, foldM_app.
  pose proof (idft_inner_loop spectrum sig_len k_min
                (k_min + Z.of_nat (length spectrum)) n Hnz) as Hpre.
  unfold py_range in Hpre.
  replace (Z.to_nat (k_min + Z.of_nat (length spectrum) - k_min))
    with (length spectrum) in Hpre by lia.
  rewrite Hpre by lia. cbn [bind seq map foldM Nat.add].
  unfold idft_inner at 1.
  rewrite list_get_out by lia. reflexivity.
Qed.

(** X10.  The edge cases of [idft]: a negative [sig_len] raises
    [ValueError]; an empty or reversed window ([k_max <= k_min]) raises
    nothing and gives [sig_len] zeros, whatever the spectrum; and a
    spectrum shorter than a non-empty window raises [IndexError] as soon as
    there is one sample to rebuild. *)
Theorem idft_edge_cases (spectrum : list C) (sig_len k_min k_max : Z) :
  ((sig_len < 0)%Z ->
   idft spectrum sig_len k_min k_max = Raise ValueError) /\
  ((0 <= sig_len)%Z -> (k_max <= k_min)%Z ->
   idft spectrum sig_len k_min k_max = Ok (repeat C0 (Z.to_nat sig_len))) /\
  ((1 <= sig_len)%Z -> (length spectrum < Z.to_nat (k_max - k_min))%nat ->
   idft spectrum sig_len k_min k_max = Raise IndexError).
Proof.
  split; [|split].
  - intros H. unfold idft. now rewrite np_zeros_int_negative.
  - intros Hs Hw. rewrite idft_eq by lia.
    replace (Z.to_nat (k_max - k_min)) with 0%nat by lia.
    cbn [idft_sample Csum]. f_equal.
    rewrite map_const_repeat. now rewrite length_seq.
  - intros Hs Hshort. unfold idft. rewrite np_zeros_int_ok by lia.
    cbn [bind]. rewrite (py_range_cons 0 sig_len) by lia.
    cbn [foldM]. unfold idft_outer at 1. unfold py_range at 1.
    rewrite idft_inner_short by (lia || assumption). reflexivity.
Qed.

Lemma idft_edge_cases_witness :
  idft [C1] (-1) 0 1 = Raise ValueError /\
  idft [C1] 2 3 1 = Ok [C0; C0] /\
  idft [C1] 2 0 2 = Raise IndexError.
Proof.
  destruct (idft_edge_cases [C1] (-1) 0 1) as (H1 & _ & _).
  destruct (idft_edge_cases [C1] 2 3 1) as (_ & H2 & _).
  destruct (idft_edge_cases [C1] 2 0 2) as (_ & _ & H3).
  split; [apply H1; lia|]. split; [apply H2; lia|].
  apply H3; [lia|]. simpl. lia.
Defined.

(** X11.  [idft] reads only the entries of the spectrum that the window
    covers: entries appended after them do not change the result. *)
Theorem idft_ignores_tail (spectrum tail : list C) (sig_len k_min k_max : Z) :
  (0 <= sig_len)%Z ->
  (Z.to_nat (k_max - k_min) <= length spectrum)%nat ->
  idft (spectrum ++ tail) sig_len k_min k_max
  = idft spectrum sig_len k_min k_max.
Proof.
  intros Hs Hcover.
  rewrite !idft_eq by (try rewrite length_app; lia).
  f_equal. apply map_ext. intros n. unfold idft_sample.
  apply Csum_ext. intros i Hi. now rewrite app_nth1 by lia.
Qed.

Lemma idft_ignores_tail_witness :
  idft ([C1; Ci] ++ [C1]) 2 0 2 = idft [C1; Ci] 2 0 2.
Proof. apply idft_ignores_tail; [lia|]. simpl. lia. Defined.

(** X12.  Whenever they return, [dft] returns exactly [k_max - k_min]
    coefficients and [idft] exactly [sig_len] samples, whatever the length
    of their input. *)
Theorem transform_lengths (input out : list C) (sig_len k_min k_max : Z) :
  (dft input k_min k_max = Ok out -> length out = Z.to_nat (k_max - k_min)) /\
  (idft input sig_len k_min k_max = Ok out -> length out = Z.to_nat sig_len).
Proof. split; [apply dft_length_any|apply idft_length]. Qed.

Lemma transform_lengths_witness :
  exists out, dft [C1; Ci] 0 3 = Ok out /\ length out = 3%nat.
Proof.
  exists (map (dft_coeff [C1; Ci]) (py_range 0 3)).
  assert (H : dft [C1; Ci] 0 3 = Ok (map (dft_coeff [C1; Ci]) (py_range 0 3)))
    by (apply dft_eq; [discriminate|lia]).
  split; [exact H|].
  exact (proj1 (transform_lengths [C1; Ci] _ 0 0 3) H).
Defined.

Lemma cis_period_nat (x : R) (n : nat) : cis (x + 2 * INR n * PI) = cis x.
Proof. unfold cis. now rewrite cos_period, sin_period. Qed.

Lemma cis_period_Z (x : R) (z : Z) : cis (x + 2 * IZR z * PI) = cis x.
Proof.
  destruct (Z_le_gt_dec 0 z) as [Hz|Hz].
  - rewrite <- (Z2Nat.id z Hz), <- INR_IZR_INZ. apply cis_period_nat.
  - rewrite <- (cis_period_nat (x + 2 * IZR z * PI) (Z.to_nat (- z))).
    f_equal. rewrite INR_IZR_INZ, Z2Nat.id by lia. rewrite opp_IZR. ring.
Qed.

Lemma dft_coeff_periodic (signal : list C) (k q : Z) :
  signal <> [] ->
  dft_coeff signal (k + q * py_len signal) = dft_coeff signal k.
Proof.
  intros Hne. unfold dft_coeff. f_equal. apply Csum_ext. intros n _.
  f_equal.
  assert (HN : IZR (py_len signal) <> 0).
  { apply not_0_IZR. unfold py_len. destruct signal; [contradiction|simpl; lia]. }
  rewrite <- (cis_period_Z (- omega (k + q * py_len signal) _ _)
                           (q * Z.of_nat n)).
  f_equal. unfold omega. rewrite plus_IZR, !mult_IZR. field. exact HN.
Qed.

(** X13.  The spectrum is periodic in the frequency index with period
    [N = len(signal)]: moving the window by a multiple of [N] changes
    nothing, neither the coefficients nor the exception raised. *)
Theorem dft_window_periodic (signal : list C) (k_min k_max q : Z) :
  dft signal (k_min + q * py_len signal) (k_max + q * py_len signal)
  = dft signal k_min k_max.
Proof.
  destruct (Z_lt_le_dec k_max k_min) as [Hrev|Hle].
  - now rewrite !dft_reversed_window by lia.
  - destruct signal as [|x signal].
    + unfold py_len. cbn [length Z.of_nat]. now rewrite Z.mul_0_r, !Z.add_0_r.
    + rewrite !dft_eq by (discriminate || lia). f_equal.
      unfold py_range.
      replace (k_max + q * py_len (x :: signal)
               - (k_min + q * py_len (x :: signal)))%Z
        with (k_max - k_min)%Z by lia.
      rewrite !map_map. apply map_ext. intros i.
      rewrite <- (dft_coeff_periodic (x :: signal) (k_min + Z.of_nat i) q)
        by discriminate.
      f_equal. lia.
Qed.

(** One term of the double sum of the round trip over a window that
    starts at [a]. *)
Lemma round_trip_term_shifted (signal : list C) (a : Z) (i m : nat) :
  signal <> [] ->
  Cmul (dft_coeff signal (a + Z.of_nat i))
       (cis (omega (a + Z.of_nat i) (Z.of_nat m) (py_len signal)))
  = Csum (fun n =>
            Cmul (Cmul (Cmul (nth n signal C0) (RtoC (/ INR (length signal))))
                       (cis (IZR a * (2 * PI * (INR m - INR n)
                                      / INR (length signal)))))
                 (cis (INR i * (2 * PI * (INR m - INR n)
                                / INR (length signal)))))
         (length signal).
Proof.
  intros Hne.
  assert (HN : INR (length signal) <> 0).
  { apply not_0_INR. destruct signal; [contradiction|simpl; lia]. }
  unfold dft_coeff, py_len. rewrite Cdiv_real_mul, !Csum_mul_r.
  apply Csum_ext. intros n _.
  rewrite <- !INR_IZR_INZ.
  rewrite <- !Cmul_assoc. f_equal.
  rewrite (Cmul_comm (cis _) (Cmul _ _)), <- !Cmul_assoc. f_equal.
  rewrite <- !cis_add. f_equal.
  unfold omega. rewrite plus_IZR, <- !INR_IZR_INZ. field. assumption.
Qed.

Lemma round_trip_sample_shifted (signal : list C) (a : Z) (m : nat) :
  (m < length signal)%nat ->
  idft_sample (map (dft_coeff signal) (py_range a (a + py_len signal)))
              (py_len signal) a (length signal) (Z.of_nat m)
  = nth m signal C0.
Proof.
  intros Hm.
  assert (Hne : signal <> []) by (destruct signal; [simpl in Hm; lia|discriminate]).
  assert (HN : INR (length signal) <> 0) by (apply not_0_INR; lia).
  unfold idft_sample.
  rewrite (Csum_ext _
             (fun i => Csum (fun n =>
                 Cmul (Cmul (Cmul (nth n signal C0)
                                  (RtoC (/ INR (length signal))))
                            (cis (IZR a * (2 * PI * (INR m - INR n)
                                           / INR (length signal)))))
                      (cis (INR i * (2 * PI * (INR m - INR n)
                                     / INR (length signal)))))
               (length signal))).
  2:{ intros i Hi. rewrite nth_dft_coeffs by (unfold py_len; lia).
      now apply round_trip_term_shifted. }
  rewrite Csum_swap.
  rewrite (Csum_ext _
             (fun n => Cmul (Cmul (Cmul (nth n signal C0)
                                        (RtoC (/ INR (length signal))))
                                  (cis (IZR a * (2 * PI * (INR m - INR n)
                                                 / INR (length signal)))))
                            (if Nat.eqb m n then RtoC (INR (length signal))
                             else C0))).
  2:{ intros n Hn. rewrite <- Csum_mul_l. f_equal.
      now apply character_sum. }
  rewrite (Csum_single _ _ m Hm).
  - rewrite Nat.eqb_refl.
    replace (IZR a * (2 * PI * (INR m - INR m) / INR (length signal))) with 0
      by (field; assumption).
    rewrite cis_0, Cmul_1_r. apply C_eq; simpl; field; assumption.
  - intros n Hn Hnm. apply Nat.neq_sym, Nat.eqb_neq in Hnm. rewrite Hnm.
    apply Cmul_0_r.
Qed.

(** X14.  The round trip is exact over every window of full length: for
    every signal of length [N >= 1] and every start [a], also a negative
    one, [idft(dft(signal, a, a + N), N, a, a + N)] returns the signal.
    The window [0, N) is one case among them. *)
Theorem dft_idft_round_trip_any_start (signal : list C) (a : Z) :
  (1 <= length signal)%nat ->
  exists spectrum,
    dft signal a (a + py_len signal) = Ok spectrum /\
    idft spectrum (py_len signal) a (a + py_len signal) = Ok signal.
Proof.
  intros HN.
  assert (Hne : signal <> []) by (destruct signal; [simpl in HN; lia|discriminate]).
  exists (map (dft_coeff signal) (py_range a (a + py_len signal))).
  split; [apply dft_eq; [assumption|unfold py_len; lia]|].
  assert (HK : Z.to_nat (a + py_len signal - a) = length signal)
    by (unfold py_len; lia).
  rewrite idft_eq.
  - f_equal. rewrite HK. unfold py_len at 3. rewrite Nat2Z.id.
    apply (nth_ext _ _ C0 C0).
    + now rewrite length_map, length_seq.
    + intros m Hm. rewrite length_map, length_seq in Hm.
      rewrite nth_map_seq by assumption.
      now apply round_trip_sample_shifted.
  - unfold py_len. lia.
  - unfold py_range. rewrite !length_map, length_seq. lia.
Qed.

Lemma dft_idft_round_trip_any_start_witness :
  exists spectrum,
    dft [C1; Ci; C0] (-1) 2 = Ok spectrum /\
    idft spectrum 3 (-1) 2 = Ok [C1; Ci; C0].
Proof.
  destruct (dft_idft_round_trip_any_start [C1; Ci; C0] (-1)) as (sp & Hd & Hi).
  - simpl. lia.
  - exists sp. split; [exact Hd|exact Hi].
Defined.

Lemma dft_coeff_constant (c : C) (N i : nat) :
  (i < N)%nat ->
  dft_coeff (repeat c N) (Z.of_nat i) = if Nat.eqb i 0 then c else C0.
Proof.
  intros Hi. unfold dft_coeff, py_len. rewrite repeat_length.
  assert (HN : INR N <> 0) by (apply not_0_INR; lia).
  rewrite (Csum_ext _
             (fun n => Cmul c (cis (INR n * (2 * PI * (INR 0 - INR i) / INR N))))).
  2:{ intros n Hn. f_equal.
      - rewrite (nth_indep _ C0 c) by (now rewrite repeat_length).
        apply nth_repeat_any.
      - f_equal. unfold omega. rewrite <- !INR_IZR_INZ. simpl. field.
        assumption. }
  rewrite <- Csum_mul_l, character_sum by lia.
  rewrite <- INR_IZR_INZ.
  destruct i as [|i]; cbn [Nat.eqb].
  - apply C_eq; simpl; field; assumption.
  - apply C_eq; simpl; field; assumption.
Qed.

(** X15.  The full spectrum of a constant signal: for [N >= 1] samples all
    equal to [c], [dft] over the window [0, N) returns [c] at frequency 0
    and zero at every other frequency. *)
Theorem dft_constant_signal (c : C) (N : nat) :
  (1 <= N)%nat ->
  dft (repeat c N) 0 (Z.of_nat N) = Ok (c :: repeat C0 (N - 1)).
Proof.
  intros HN. rewrite dft_eq by (lia || (destruct N; [lia|discriminate])).
  f_equal. unfold py_range. rewrite Z.sub_0_r, Nat2Z.id, map_map.
  apply (nth_ext _ _ C0 C0).
  - rewrite length_map, length_seq. simpl. rewrite repeat_length. lia.
  - intros i Hi. rewrite length_map, length_seq in Hi.
    rewrite nth_map_seq by assumption. rewrite Z.add_0_l.
    rewrite dft_coeff_constant by assumption.
    destruct i as [|i]; [reflexivity|]. cbn [Nat.eqb nth].
    symmetry. apply nth_repeat_any.
Qed.

Lemma dft_constant_signal_witness :
  dft (repeat Ci 3) 0 3 = Ok [Ci; C0; C0].
Proof. apply (dft_constant_signal Ci 3). lia. Defined.

Lemma dft_coeff_linear (c : C) (x y : list C) (k : Z) :
  length x = length y ->
  dft_coeff (map (fun p => Cadd (Cmul c (fst p)) (snd p)) (combine x y)) k
  = Cadd (Cmul c (dft_coeff x k)) (dft_coeff y k).
Proof.
  intros Hlen. unfold dft_coeff, py_len.
  rewrite length_map, length_combine, <- Hlen, Nat.min_id.
  rewrite !Cdiv_real_mul, Cmul_assoc, Csum_mul_l, <- Cmul_add_distr_r.
  f_equal. rewrite <- Csum_add. apply Csum_ext. intros n Hn.
  rewrite (nth_map_default _ _ (C0, C0)) by (rewrite length_combine; lia).
  rewrite combine_nth by assumption. cbn [fst snd].
  rewrite Cmul_add_distr_r, Cmul_assoc. reflexivity.
Qed.

(** X16.  [dft] is linear: for two non-empty signals [x], [y] of one
    length, a complex [c] and a window [k_min <= k_max], the transform of
    [c x + y] is [c dft(x) + dft(y)], coefficient by coefficient. *)
Theorem dft_linear (c : C) (x y : list C) (k_min k_max : Z) :
  x <> [] -> length x = length y -> (k_min <= k_max)%Z ->
  exists X Y,
    dft x k_min k_max = Ok X /\ dft y k_min k_max = Ok Y /\
    dft (map (fun p => Cadd (Cmul c (fst p)) (snd p)) (combine x y))
        k_min k_max
    = Ok (map (fun p => Cadd (Cmul c (fst p)) (snd p)) (combine X Y)).
Proof.
  intros Hx Hlen Hle.
  assert (Hy : y <> []) by (destruct x, y; simpl in *; congruence).
  exists (map (dft_coeff x) (py_range k_min k_max)),
         (map (dft_coeff y) (py_range k_min k_max)).
  split; [now apply dft_eq|]. split; [now apply dft_eq|].
  rewrite dft_eq; [|destruct x, y; simpl in *; congruence|assumption].
  f_equal. rewrite combine_map_same, map_map.
  apply map_ext. intros k. cbn [fst snd]. now apply dft_coeff_linear.
Qed.

Lemma dft_linear_witness :
  exists X Y,
    dft [C1; C0] 0 2 = Ok X /\ dft [Ci; C1] 0 2 = Ok Y /\
    dft (map (fun p => Cadd (Cmul Ci (fst p)) (snd p))
             (combine [C1; C0] [Ci; C1])) 0 2
    = Ok (map (fun p => Cadd (Cmul Ci (fst p)) (snd p)) (combine X Y)).
Proof.
  apply (dft_linear Ci [C1; C0] [Ci; C1] 0 2); [discriminate|reflexivity|lia].
Defined.

End TransformExtras.

(** * Further properties of the two-dimensional transforms *)

Section TwoDimensionalExtras.

Import Fourier.

Lemma np_transpose_eq {A : Type} (d : A) (n : nat) (grid : list (list A)) :
  grid <> [] -> Forall (fun row => length row = n) grid ->
  np_transpose d grid
  = map (fun c => map (fun r => nth c r d) grid) (seq 0 n).
Proof.
  intros Hne Hall. unfold np_transpose.
  destruct grid as [|row rest]; [contradiction|].
  inversion Hall; subst. reflexivity.
Qed.

(** Taking the columns of the columns gives the grid back. *)
Lemma columns_of_columns {A : Type} (d : A) (rows width : nat)
  (grid : list (list A)) :
  length grid = rows -> Forall (fun row => length row = width) grid ->
  map (fun c => map (fun r => nth c r d)
                    (map (fun c' => map (fun r' => nth c' r' d) grid)
                         (seq 0 width)))
      (seq 0 rows)
  = grid.
Proof.
  intros Hrows Hall. apply (nth_ext _ _ [] []).
  - now rewrite length_map, length_seq.
  - intros i Hi. rewrite length_map, length_seq in Hi.
    rewrite nth_map_seq by assumption. rewrite map_map.
    rewrite (map_ext _ (fun c => nth c (nth i grid []) d)).
    + rewrite Forall_forall in Hall.
      rewrite <- (Hall (nth i grid [])) by (apply nth_In; lia).
      apply list_as_map_seq.
    + intros c.
      apply (nth_map_default (fun r' => nth c r' d) grid [] d i). lia.
Qed.

Lemma columns_shape {A : Type} (d : A) (width : nat) (grid : list (list A)) :
  Forall (fun col => length col = length grid)
         (map (fun c => map (fun r => nth c r d) grid) (seq 0 width)).
Proof.
  apply Forall_forall. intros col Hin.
  apply in_map_iff in Hin as (c & <- & _). apply length_map.
Qed.

(** [dft2] on a rectangular grid with non-empty rows and a non-empty
    window, written out. *)
Lemma dft2_eq (signal_2d : list (list C)) (ncols : nat) (k_min k_max : Z) :
  signal_2d <> [] -> (0 < ncols)%nat ->
  Forall (fun row => length row = ncols) signal_2d ->
  (k_min < k_max)%Z ->
  dft2 signal_2d k_min k_max
  = Ok (np_transpose C0
          (map (fun col => map (dft_coeff col) (py_range k_min k_max))
               (map (fun c =>
                       map (fun r => nth c r C0)
                           (map (fun row => map (dft_coeff row)
                                                (py_range k_min k_max))
                                signal_2d))
                    (seq 0 (Z.to_nat (k_max - k_min)))))).
Proof.
  intros Hne Hcols Hall Hwin.
  set (K := Z.to_nat (k_max - k_min)).
  set (dft_rows := map (fun row => map (dft_coeff row) (py_range k_min k_max))
                       signal_2d).
  assert (Hne' : dft_rows <> [])
    by (unfold dft_rows; destruct signal_2d; [contradiction|discriminate]).
  assert (Hall' : Forall (fun row => length row = K) dft_rows).
  { apply Forall_forall. intros row Hin.
    apply in_map_iff in Hin as (r & <- & _).
    unfold py_range. now rewrite !length_map, length_seq. }
  unfold dft2.
  rewrite (dft_every_row _ ncols) by (assumption || lia).
  fold dft_rows. cbn [bind].
  rewrite (shape1_eq K) by assumption. cbn [bind].
  rewrite (by_columns_eq (fun c => dft c k_min k_max) K) by assumption.
  rewrite (columns_of_eq C0 K) by assumption.
  rewrite (dft_every_row _ (length dft_rows)).
  - reflexivity.
  - destruct dft_rows; [contradiction|simpl; lia].
  - apply columns_shape.
  - lia.
Qed.

(** X17.  The edge cases of the two-dimensional transforms: a grid
    without rows makes [dft2] and [idft2] raise [IndexError] (the array has
    no second axis); on a grid with rows, [dft2] raises [ValueError] for a
    reversed window, returns an empty result for an empty window, and
    raises [ZeroDivisionError] for a non-empty window when the first row
    is empty. *)
Theorem transforms_2d_edge_cases (row : list C) (rest : list (list C))
  (original_shape : Z * Z) (k_min k_max : Z) :
  dft2 [] k_min k_max = Raise IndexError /\
  idft2 [] original_shape k_min k_max = Raise IndexError /\
  ((k_max < k_min)%Z -> dft2 (row :: rest) k_min k_max = Raise ValueError) /\
  (k_max = k_min -> dft2 (row :: rest) k_min k_max = Ok []) /\
  ((k_min < k_max)%Z -> dft2 ([] :: rest) k_min k_max = Raise ZeroDivisionError).
Proof.
  split; [reflexivity|]. split; [reflexivity|]. split; [|split].
  - intros H. unfold dft2. cbn [mapM].
    now rewrite dft_reversed_window.
  - intros ->. unfold dft2.
    rewrite (mapM_ok_all _ (fun _ => [])) by (intros; apply dft_empty_window).
    reflexivity.
  - intros H. unfold dft2. cbn [mapM].
    now rewrite dft_empty_signal.
Qed.

Lemma transforms_2d_edge_cases_witness :
  dft2 [[C1]] 2 1 = Raise ValueError /\
  dft2 [[C1]] 1 1 = Ok [] /\
  dft2 [[]; [C1]] 0 1 = Raise ZeroDivisionError.
Proof.
  destruct (transforms_2d_edge_cases [C1] [] (1, 1)%Z 2 1) as (_ & _ & H1 & _).
  destruct (transforms_2d_edge_cases [C1] [] (1, 1)%Z 1 1) as (_ & _ & _ & H2 & _).
  destruct (transforms_2d_edge_cases [] [[C1]] (1, 1)%Z 0 1) as (_ & _ & _ & _ & H3).
  split; [apply H1; lia|]. split; [now apply H2|apply H3; lia].
Defined.

(** X18.  The entries of [dft2]: on a rectangular grid with non-empty rows
    and a window [k_min < k_max], entry [(i, j)] of the result is the
    coefficient of frequency [k_min + i] along the rows axis of the
    coefficients of frequency [k_min + j] of the rows; the two frequency
    axes come back in the order of the two axes of the input. *)
Theorem dft2_entries (signal_2d : list (list C)) (ncols : nat) (k_min k_max : Z) :
  signal_2d <> [] -> (0 < ncols)%nat ->
  Forall (fun row => length row = ncols) signal_2d ->
  (k_min < k_max)%Z ->
  exists out,
    dft2 signal_2d k_min k_max = Ok out /\
    forall i j, (i < Z.to_nat (k_max - k_min))%nat ->
                (j < Z.to_nat (k_max - k_min))%nat ->
      nth j (nth i out []) C0
      = dft_coeff (map (fun row => dft_coeff row (k_min + Z.of_nat j)) signal_2d)
                  (k_min + Z.of_nat i).
Proof.
  intros Hne Hcols Hall Hwin. eexists. split; [now apply (dft2_eq _ ncols)|].
  intros i j Hi Hj.
  set (K := Z.to_nat (k_max - k_min)) in *.
  rewrite (np_transpose_eq C0 K).
  - rewrite nth_map_seq by assumption.
    rewrite (nth_map_default _ _ []) by (now rewrite !length_map, length_seq).
    rewrite (nth_map_default _ _ []) by (now rewrite length_map, length_seq).
    rewrite nth_map_seq by assumption.
    rewrite nth_dft_coeffs by assumption. f_equal.
    rewrite map_map. apply map_ext. intros row.
    now apply nth_dft_coeffs.
  - assert (0 < K)%nat by (unfold K; lia).
    destruct K; [lia|discriminate].
  - apply Forall_forall. intros col Hin.
    apply in_map_iff in Hin as (c & <- & _).
    unfold py_range. now rewrite !length_map, length_seq.
Qed.

Lemma dft2_entries_witness :
  exists out,
    dft2 [[C1; C0]; [Ci; C1]] 0 2 = Ok out /\
    nth 1 (nth 0 out []) C0
    = dft_coeff (map (fun row => dft_coeff row 1) [[C1; C0]; [Ci; C1]]) 0.
Proof.
  destruct (dft2_entries [[C1; C0]; [Ci; C1]] 2 0 2) as (out & Hout & Hent).
  - discriminate.
  - lia.
  - repeat constructor.
  - lia.
  - exists out. split; [exact Hout|].
    exact (Hent 0%nat 1%nat ltac:(simpl; lia) ltac:(simpl; lia)).
Defined.

(** Every list of a grid of lists of length [N] comes back from its full
    spectrum. *)
Lemma idft_every_spectrum (N : nat) (grid : list (list C)) :
  (1 <= N)%nat -> Forall (fun row => length row = N) grid ->
  mapM (fun s => idft s (Z.of_nat N) 0 (Z.of_nat N))
       (map (fun row => map (dft_coeff row) (py_range 0 (Z.of_nat N))) grid)
  = Ok grid.
Proof.
  intros HN Hall. rewrite mapM_map.
  rewrite <- (map_id grid) at 2. apply mapM_ok_all.
  intros row Hin. rewrite Forall_forall in Hall. specialize (Hall row Hin).
  replace (Z.of_nat N) with (py_len row) by (unfold py_len; lia).
  apply dft_idft_full_band. destruct row; [simpl in Hall; lia|discriminate].
Qed.

(** X19.  The two-dimensional round trip: for every [N] by [N] grid,
    [N >= 1], [idft2(dft2(grid, 0, N), (N, N), 0, N)] returns the grid. *)
Theorem dft2_idft2_round_trip (N : nat) (grid : list (list C)) :
  (1 <= N)%nat -> length grid = N ->
  Forall (fun row => length row = N) grid ->
  exists spectrum,
    dft2 grid 0 (Z.of_nat N) = Ok spectrum /\
    idft2 spectrum (Z.of_nat N, Z.of_nat N) 0 (Z.of_nat N) = Ok grid.
Proof.
  intros HN Hlen Hall.
  assert (Hne : grid <> []) by (destruct grid; [simpl in Hlen; lia|discriminate]).
  eexists. split; [apply (dft2_eq _ N); (assumption || lia)|].
  replace (Z.to_nat (Z.of_nat N - 0)) with N by lia.
  set (dft_rows := map (fun row => map (dft_coeff row) (py_range 0 (Z.of_nat N)))
                       grid).
  set (colsD := map (fun c => map (fun r => nth c r C0) dft_rows) (seq 0 N)).
  set (cols := map (fun col => map (dft_coeff col) (py_range 0 (Z.of_nat N)))
                   colsD).
  assert (Hrows_len : length dft_rows = N)
    by (unfold dft_rows; now rewrite length_map).
  assert (Hrows_all : Forall (fun row => length row = N) dft_rows).
  { apply Forall_forall. intros row Hin.
    apply in_map_iff in Hin as (r & <- & _).
    unfold py_range. rewrite !length_map, length_seq. lia. }
  assert (HcolsD_len : length colsD = N)
    by (unfold colsD; now rewrite length_map, length_seq).
  assert (HcolsD_all : Forall (fun col => length col = N) colsD).
  { pose proof (columns_shape C0 N dft_rows) as Hs.
    rewrite Hrows_len in Hs. exact Hs. }
  assert (Hcols_len : length cols = N)
    by (unfold cols; now rewrite length_map).
  assert (Hcols_all : Forall (fun row => length row = N) cols).
  { apply Forall_forall. intros row Hin.
    apply in_map_iff in Hin as (r & <- & _).
    unfold py_range. rewrite !length_map, length_seq. lia. }
  assert (Hnonempty : forall (l : list (list C)), length l = N -> l <> [])
    by (intros l Hl ->; simpl in Hl; lia).
  rewrite (np_transpose_eq C0 N cols) by auto.
  set (spectrum := map (fun c => map (fun r => nth c r C0) cols) (seq 0 N)).
  assert (Hspec_len : length spectrum = N)
    by (unfold spectrum; now rewrite length_map, length_seq).
  assert (Hspec_all : Forall (fun row => length row = N) spectrum).
  { pose proof (columns_shape C0 N cols) as Hs.
    rewrite Hcols_len in Hs. exact Hs. }
  unfold idft2. cbn [fst snd].
  rewrite (shape1_eq N) by auto. cbn [bind].
  rewrite (by_columns_eq (fun c => idft c (Z.of_nat N) 0 (Z.of_nat N)) N)
    by auto.
  rewrite (columns_of_eq C0 N) by auto.
  unfold spectrum. rewrite (columns_of_columns C0 N N cols) by assumption.
  unfold cols. rewrite (idft_every_spectrum N colsD) by assumption.
  cbn [bind].
  rewrite (np_transpose_eq C0 N colsD) by auto.
  unfold colsD. rewrite (columns_of_columns C0 N N dft_rows) by assumption.
  rewrite by_rows_eq.
  unfold dft_rows. now apply idft_every_spectrum.
Qed.

Lemma dft2_idft2_round_trip_witness :
  exists spectrum,
    dft2 [[C1; C0]; [Ci; C1]] 0 2 = Ok spectrum /\
    idft2 spectrum (2, 2)%Z 0 2 = Ok [[C1; C0]; [Ci; C1]].
Proof.
  apply (dft2_idft2_round_trip 2 [[C1; C0]; [Ci; C1]]);
    [lia|reflexivity|repeat constructor].
Defined.

End TwoDimensionalExtras.

(** * Further properties of the plane-wave function *)

Section PlaneWaveExtras.

Import Wavefunctions.

Lemma dict_get_head (k : list Z) (c : C) (rest : coeffs) :
  dict_get ((k, c) :: rest) k = Ok c.
Proof.
  unfold dict_get. cbn [find fst snd].
  now destruct (list_eq_dec Z.eq_dec k k).
Qed.

(** X20.  What [plane_wave] refuses: an empty dictionary raises
    [StopIteration] when the function is built; the function built from a
    dictionary whose first key has [D] components raises [IndexError] on
    every array with at most [D] axes (a bare vector, a list of points),
    and [ValueError] on an array whose axis [D] does not have length [D]. *)
Theorem plane_wave_shape_errors (k0 : list Z) (c0 : C) (rest : coeffs)
  (r : ndarray R) :
  plane_wave [] = Raise StopIteration /\
  exists f,
    plane_wave ((k0, c0) :: rest) = Ok f /\
    ((length (shape r) <= length k0)%nat -> f r = Raise IndexError) /\
    (forall n, nth_error (shape r) (length k0) = Some n -> n <> length k0 ->
               f r = Raise ValueError).
Proof.
  split; [reflexivity|].
  exists (space_function ((k0, c0) :: rest) (length k0)).
  split; [reflexivity|]. split.
  - intros Hdim. unfold space_function. cbn [map fst mapM].
    unfold plane_wave_term at 1. rewrite dict_get_head. cbn [bind].
    unfold np_tensordot. apply nth_error_None in Hdim. rewrite Hdim.
    reflexivity.
  - intros n Hn Hne. unfold space_function. cbn [map fst mapM].
    unfold plane_wave_term at 1. rewrite dict_get_head. cbn [bind].
    unfold np_tensordot. rewrite Hn.
    apply Nat.eqb_neq in Hne. rewrite Hne. reflexivity.
Qed.

Lemma plane_wave_shape_errors_witness :
  exists f,
    plane_wave [([1%Z; 0%Z], C1); ([0%Z; 1%Z], Ci)] = Ok f /\
    f (mk_nd [3; 2]%nat [0; 0; 0; 0; 0; 0]) = Raise IndexError /\
    f (mk_nd [1; 1; 3]%nat [0; 0; 0]) = Raise ValueError.
Proof.
  destruct (plane_wave_shape_errors [1%Z; 0%Z] C1 [([0%Z; 1%Z], Ci)]
              (mk_nd [3; 2]%nat [0; 0; 0; 0; 0; 0])) as (_ & f & Hf & Hidx & _).
  destruct (plane_wave_shape_errors [1%Z; 0%Z] C1 [([0%Z; 1%Z], Ci)]
              (mk_nd [1; 1; 3]%nat [0; 0; 0])) as (_ & f' & Hf' & _ & Hval).
  rewrite Hf in Hf'. injection Hf' as <-.
  exists f. split; [exact Hf|]. split.
  - apply Hidx. simpl. lia.
  - apply (Hval 3%nat); [reflexivity|simpl; lia].
Defined.

Lemma fold_left_ext {A B : Type} (f g : A -> B -> A) (l : list B) (a : A) :
  (forall x y, f x y = g x y) -> fold_left f l a = fold_left g l a.
Proof.
  intros H. revert a. induction l as [|y l IH]; intros a; simpl;
    [reflexivity|]. now rewrite H, IH.
Qed.

(** The contraction of a [D]-dimensional grid of [D]-vectors with a wave
    vector. *)
Lemma np_tensordot_grid (grid : list nat) (D : nat) (values : list R)
  (k : list Z) :
  length grid = D -> length k = D ->
  np_tensordot (mk_nd (grid ++ [D]) values) k D
  = Ok (mk_nd grid
              (map (fun o => point_dot (mk_nd (grid ++ [D]) values) D o k)
                   (seq 0 (size_of grid)))).
Proof.
  intros Hg Hk. unfold np_tensordot. cbn [shape data].
  rewrite nth_error_app2 by lia.
  replace (D - length grid)%nat with 0%nat by lia. cbn [nth_error].
  rewrite Hk, Nat.eqb_refl.
  rewrite firstn_app, firstn_all2 by lia.
  replace (D - length grid)%nat with 0%nat by lia. cbn [firstn].
  rewrite skipn_all2 by (rewrite length_app; simpl; lia).
  rewrite !app_nil_r. cbn [size_of fold_right seq map].
  rewrite flat_map_singleton. do 2 f_equal.
  apply map_ext. intros o. unfold point_dot. cbn [data].
  apply fold_left_ext. intros acc t. do 2 f_equal. f_equal. lia.
Qed.

Lemma dict_get_in (coeffs_dict : coeffs) (k : list Z) (c : C) :
  NoDup (map fst coeffs_dict) -> In (k, c) coeffs_dict ->
  dict_get coeffs_dict k = Ok c.
Proof.
  unfold dict_get. induction coeffs_dict as [|[k' c'] l IH]; intros Hnd Hin;
    [contradiction|].
  cbn [find fst snd map] in *. inversion Hnd as [|? ? Hnotin Hnd']; subst.
  destruct (list_eq_dec Z.eq_dec k' k) as [->|Hne].
  - destruct Hin as [E|Hin]; [now injection E as <-|].
    exfalso. apply Hnotin. apply in_map_iff. now exists (k, c).
  - destruct Hin as [E|Hin]; [injection E as E _; contradiction|].
    now apply IH.
Qed.

Lemma exp_i_pi (x : R) : Cexp (Cmul (Cmul (RtoC PI) Ci) (RtoC x)) = cis (PI * x).
Proof.
  rewrite <- Cexp_imag. f_equal. apply C_eq; simpl; ring.
Qed.

Lemma fold_left_mapped {A B D : Type} (f : A -> D -> A) (h : B -> D)
  (l : list B) (a : A) :
  fold_left f (map h l) a = fold_left (fun acc b => f acc (h b)) l a.
Proof.
  revert a. induction l as [|b l IH]; intros a; simpl; [reflexivity|apply IH].
Qed.

(** Adding the remaining terms to a running sum of the same shape. *)
Lemma np_add_loop (grid : list nat) (P : nat) (terms : list (nat -> C)) :
  grid <> [] ->
  forall g : nat -> C,
    foldM np_add (map (fun t => mk_nd grid (map t (seq 0 P))) terms)
          (mk_nd grid (map g (seq 0 P)))
    = Ok (mk_nd grid
                (map (fun o => fold_left (fun acc t => Cadd acc (t o)) terms (g o))
                     (seq 0 P))).
Proof.
  intros Hne. induction terms as [|t terms IH]; intros g; [reflexivity|].
  cbn [map foldM fold_left].
  assert (Hadd : np_add (mk_nd grid (map g (seq 0 P)))
                        (mk_nd grid (map t (seq 0 P)))
                 = Ok (mk_nd grid (map (fun o => Cadd (g o) (t o)) (seq 0 P)))).
  { unfold np_add. cbn [shape data].
    destruct grid as [|n0 grid']; [contradiction|].
    destruct (list_eq_dec Nat.eq_dec (n0 :: grid') (n0 :: grid'));
      [|contradiction].
    now rewrite combine_map_same, map_map. }
  rewrite Hadd. cbn [bind]. apply IH.
Qed.

(** X21.  On a [D]-dimensional grid of [D]-vectors (an array of shape
    [grid + (D,)] with [D >= 1] grid axes), the function built from a
    dictionary whose keys all have [D] components returns an array of
    shape [grid] whose entry at every grid point is
    [sum_k coeffs[k] exp(i pi k.r)], the terms taken in the order of the
    dictionary. *)
Theorem plane_wave_on_grid (coeffs_dict : coeffs) (D : nat) (grid : list nat)
  (values : list R) :
  coeffs_dict <> [] -> NoDup (map fst coeffs_dict) ->
  Forall (fun kc => length (fst kc) = D) coeffs_dict ->
  (1 <= D)%nat -> length grid = D ->
  exists f,
    plane_wave coeffs_dict = Ok f /\
    f (mk_nd (grid ++ [D]) values)
    = Ok (mk_nd grid
                (map (plane_wave_value coeffs_dict (mk_nd (grid ++ [D]) values) D)
                     (seq 0 (size_of grid)))).
Proof.
  intros Hne Hnd Hkeys HD Hgrid.
  set (r := mk_nd (grid ++ [D]) values).
  set (P := size_of grid).
  set (term := fun (kc : list Z * C) (o : nat) =>
                 Cmul (snd kc) (cis (PI * point_dot r D o (fst kc)))).
  assert (Hgne : grid <> []) by (intros ->; simpl in Hgrid; lia).
  assert (Hterms : mapM (plane_wave_term coeffs_dict D r) (map fst coeffs_dict)
                   = Ok (map (fun kc => mk_nd grid (map (term kc) (seq 0 P)))
                             coeffs_dict)).
  { rewrite mapM_map. apply mapM_ok_all. intros [k c] Hin.
    rewrite Forall_forall in Hkeys. pose proof (Hkeys _ Hin) as Hk.
    cbn [fst] in Hk. unfold plane_wave_term. cbn [fst].
    rewrite (dict_get_in _ _ _ Hnd Hin). cbn [bind].
    unfold r. rewrite np_tensordot_grid by assumption. cbn [bind].
    unfold nd_map. cbn [shape data]. do 2 f_equal. rewrite map_map.
    apply map_ext. intros o. unfold term. cbn [fst snd]. now rewrite exp_i_pi. }
  destruct coeffs_dict as [|[k0 c0] rest]; [contradiction|].
  exists (space_function ((k0, c0) :: rest) D). split.
  - unfold plane_wave. cbn [first_key fst bind].
    inversion Hkeys as [|? ? Hk0 _]; subst. cbn [fst] in Hk0.
    now rewrite Hk0.
  - unfold space_function. rewrite Hterms. cbn [bind map foldM].
    assert (Hfirst : np_add py_zero (mk_nd grid (map (term (k0, c0)) (seq 0 P)))
                     = Ok (mk_nd grid
                                 (map (fun o => Cadd C0 (term (k0, c0) o))
                                      (seq 0 P)))).
    { unfold np_add, py_zero, nd_map. cbn [shape data]. now rewrite map_map. }
    rewrite Hfirst. cbn [bind].
    rewrite <- (map_map (fun kc => term kc)
                        (fun t => mk_nd grid (map t (seq 0 P))) rest).
    rewrite np_add_loop by assumption. do 2 f_equal.
    apply map_ext. intros o. unfold plane_wave_value. cbn [fold_left].
    now rewrite fold_left_mapped.
Qed.

Lemma plane_wave_on_grid_witness :
  exists f,
    plane_wave [([1%Z; 0%Z], C1); ([0%Z; 1%Z], Ci)] = Ok f /\
    f (mk_nd ([1; 2]%nat ++ [2%nat]) [0; 1; 1; 0])
    = Ok (mk_nd [1; 2]%nat
                (map (plane_wave_value [([1%Z; 0%Z], C1); ([0%Z; 1%Z], Ci)]
                                       (mk_nd ([1; 2]%nat ++ [2%nat]) [0; 1; 1; 0])
                                       2)
                     (seq 0 (size_of [1; 2]%nat)))).
Proof.
  apply (plane_wave_on_grid [([1%Z; 0%Z], C1); ([0%Z; 1%Z], Ci)] 2 [1; 2]%nat).
  - discriminate.
  - cbn [map fst]. constructor.
    + intros [E|[]]. discriminate.
    + constructor; [intros []|constructor].
  - repeat constructor.
  - lia.
  - reflexivity.
Defined.

Lemma norm2_fold_scale_by (v : list C) (s a : R) :
  fold_left (fun acc z => acc + Cnorm2 z) (map (Cmul (RtoC s)) v) (s * s * a)
  = s * s * fold_left (fun acc z => acc + Cnorm2 z) v a.
Proof.
  revert a. induction v as [|z v IH]; intros a; simpl; [reflexivity|].
  rewrite <- IH. f_equal. unfold Cnorm2. simpl. ring.
Qed.

Lemma np_linalg_norm_c_scale (v : list C) (s : R) :
  0 < s -> np_linalg_norm_c (map (Cmul (RtoC s)) v) = s * np_linalg_norm_c v.
Proof.
  intros Hs. unfold np_linalg_norm_c.
  replace 0 with (s * s * 0) at 1 by ring.
  rewrite norm2_fold_scale_by, sqrt_mult_alt by nra.
  now rewrite sqrt_square by lra.
Qed.

(** X22.  Normalising is blind to the scale of the field: multiplying every
    entry by one positive real factor does not change what
    [plane_wave_renorm] returns, for non-zero and for all-zero fields. *)
Theorem plane_wave_renorm_scale (field : ndarray C) (s : R) :
  0 < s ->
  plane_wave_renorm (nd_map (Cmul (RtoC s)) field) = plane_wave_renorm field.
Proof.
  intros Hs. unfold plane_wave_renorm, nd_map. cbn [shape data]. f_equal.
  rewrite map_map, np_linalg_norm_c_scale by assumption.
  apply map_ext. intros z. unfold np_cdiv.
  destruct (Req_dec_T (np_linalg_norm_c (data field)) 0) as [E|Hn].
  - rewrite E, Rmult_0_r. now destruct (Req_dec_T 0 0).
  - destruct (Req_dec_T (s * np_linalg_norm_c (data field)) 0) as [E|_].
    + exfalso. apply Rmult_integral in E. destruct E; [lra|contradiction].
    + f_equal. apply C_eq; simpl; field; split; (assumption || lra).
Qed.

Lemma plane_wave_renorm_scale_witness :
  plane_wave_renorm (nd_map (Cmul (RtoC 3)) (mk_nd [2%nat] [C1; Ci]))
  = plane_wave_renorm (mk_nd [2%nat] [C1; Ci]).
Proof. apply plane_wave_renorm_scale. lra. Defined.

Lemma renorm_norm_one (v : list C) :
  (exists z, In z v /\ z <> C0) ->
  np_linalg_norm_c (map (fun z => Cdiv_real z (np_linalg_norm_c v)) v) = 1.
Proof.
  intros (z & Hin & Hz).
  set (total := fold_left (fun acc z => acc + Cnorm2 z) v 0).
  assert (HS : 0 < total) by (apply (norm2_fold_pos _ 0 z); [lra|assumption..]).
  assert (Hn : np_linalg_norm_c v <> 0).
  { unfold np_linalg_norm_c. fold total. pose proof (sqrt_lt_R0 total HS). lra. }
  unfold np_linalg_norm_c at 1.
  replace 0 with (0 / (np_linalg_norm_c v * np_linalg_norm_c v)) at 1
    by (field; exact Hn).
  rewrite norm2_fold_scaled by exact Hn. fold total.
  unfold np_linalg_norm_c. fold total.
  rewrite sqrt_sqrt by lra.
  replace (total / total) with 1 by (field; lra). apply sqrt_1.
Qed.

(** X23.  Normalising twice is normalising once: for a field with a
    non-zero entry, the finite entries that [plane_wave_renorm] returns are
    left unchanged by a second call. *)
Theorem plane_wave_renorm_idempotent (field : ndarray C) :
  (exists z, In z (data field) /\ z <> C0) ->
  exists out,
    plane_wave_renorm field = mk_nd (shape field) (map Finite out) /\
    plane_wave_renorm (mk_nd (shape field) out)
    = mk_nd (shape field) (map Finite out).
Proof.
  intros Hnz.
  pose proof (renorm_norm_one (data field) Hnz) as Hone.
  set (out := map (fun z => Cdiv_real z (np_linalg_norm_c (data field)))
                  (data field)) in *.
  assert (Hn : np_linalg_norm_c (data field) <> 0).
  { destruct Hnz as (z & Hin & Hz). unfold np_linalg_norm_c.
    pose proof (sqrt_lt_R0 _ (norm2_fold_pos (data field) 0 z
                                ltac:(lra) Hin Hz)). lra. }
  exists out. split.
  - unfold plane_wave_renorm, out. f_equal. rewrite map_map.
    apply map_ext. intros y. now apply np_cdiv_finite.
  - unfold plane_wave_renorm. cbn [shape data]. rewrite Hone. f_equal.
    apply map_ext. intros y. rewrite np_cdiv_finite by lra. f_equal.
    apply C_eq; simpl; field.
Qed.

Lemma plane_wave_renorm_idempotent_witness :
  exists out,
    plane_wave_renorm (mk_nd [2%nat] [C1; Ci]) = mk_nd [2%nat] (map Finite out) /\
    plane_wave_renorm (mk_nd [2%nat] out) = mk_nd [2%nat] (map Finite out).
Proof.
  apply (plane_wave_renorm_idempotent (mk_nd [2%nat] [C1; Ci])).
  exists C1. split; [now left|]. unfold C1, C0. intros E.
  injection E as E. lra.
Defined.

End PlaneWaveExtras.

(** * The round trip and the window *)

Section RoundTripClaim.

Import Fourier.








End RoundTripClaim.
